(** * The consensus state machine driver of pchain (package [consensus])

    A shallow embedding of the round-step driver: the [enter*] transitions,
    proposal and vote intake, timeout handling and the signing helpers,
    followed by the properties the design document states about them.

    The driver is single-threaded: every handler runs to completion while
    holding [cs.mtx].  It is embedded as state passing over the record
    [ConsensusState], in a monad that also carries Go panics.

    The packages [types], [epoch], [state], [abi] and the cross-chain
    helper are not part of the sources at hand.  Their objects are Go
    pointers; here they are opaque handles whose contents live in an
    abstract store, the [World]: every method of those packages is given
    the store, and a method that may write returns the new one.  Nothing
    else is assumed about them. *)

From Stdlib Require Import ZArith List Bool Lia RelationClasses.
From Stdlib.Strings Require Import String Byte.
Import ListNotations.
Local Open Scope Z_scope.

Set Implicit Arguments.

(** ** Machine integers and byte slices *)

(** [[]byte].  A nil slice and an empty slice both have length 0. *)
Definition bytes := list byte.

Fixpoint bytes_Equal (a b : bytes) : bool :=
  match a, b with
  | [], [] => true
  | x :: a', y :: b' => Byte.eqb x y && bytes_Equal a' b'
  | _, _ => false
  end.

(** [len(s) == 0] *)
Definition len0 (s : bytes) : bool :=
  match s with [] => true | _ => false end.

(** Go's [uint64] and (64-bit) [int] as integers with their wrap-around. *)
Definition to_uint64 (z : Z) : Z := z mod 2 ^ 64.
Definition to_int (z : Z) : Z := (z + 2 ^ 63) mod 2 ^ 64 - 2 ^ 63.

(** ** Results: a Go call either returns or panics *)

Inductive Result (A : Type) : Type :=
| Ok (a : A)
| Panic (msg : string).
Arguments Ok {A} a.
Arguments Panic {A} msg.

(** ** Votes, proposals and errors *)

(** The [byte] that tags a vote, [types.VoteTypePrevote] or
    [types.VoteTypePrecommit]; any other value is kept as it is. *)
Inductive VoteType : Type :=
| VoteTypePrevote
| VoteTypePrecommit
| VoteTypeOther (b : byte).

(** Modelled from the spec: [types.PartSetHeader], whose declaration is
    in package [types]; the data model gives
    [parts_header = {total, merkle_root}]. *)
Record PartSetHeader : Type := mkPartSetHeader {
  psh_Total : Z;
  psh_Hash : bytes
}.

(** [types.PartSetHeader{}] *)
Definition PartSetHeader_zero : PartSetHeader := mkPartSetHeader 0 [].

(** [types.BlockID{hash, header}] *)
Record BlockID : Type := mkBlockID {
  bid_Hash : bytes;
  bid_PartsHeader : PartSetHeader
}.

(** [types.Vote], with the fields [signVote] fills in; the signature is
    kept as the bytes the signer attached ([None] before signing). *)
Record Vote : Type := mkVote {
  vote_ValidatorAddress : bytes;
  vote_ValidatorIndex : Z;      (* uint64 *)
  vote_Height : Z;              (* uint64 *)
  vote_Round : Z;               (* uint64 *)
  vote_Type : VoteType;
  vote_BlockID : BlockID;
  vote_Signature : option bytes
}.

(** Modelled from the spec: [types.Proposal], whose declaration is in
    package [types]; the data model gives [{height, round,
    block_parts_header, pol_round, pol_block_id, signature}]. *)
Record Proposal : Type := mkProposal {
  prop_Height : Z;              (* uint64 *)
  prop_Round : Z;               (* int *)
  prop_BlockPartsHeader : PartSetHeader;
  prop_POLRound : Z;            (* int *)
  prop_POLBlockID : BlockID;
  prop_Signature : option bytes
}.

(** The package-level error values, the conflicting-votes error of
    [types] and any other error value an absent package may return. *)
Inductive Error : Type :=
| ErrMinerBlock
| ErrInvalidProposalSignature
| ErrInvalidProposalPOLRound
| ErrAddingVote
| ErrVoteHeightMismatch
| ErrVoteConflictingVotes (voteA voteB : Vote)
| ErrExternal (msg : string).

(** The type assertion of [err] to the conflicting-votes error of [types]. *)
Definition isErrVoteConflictingVotes (e : Error) : bool :=
  match e with ErrVoteConflictingVotes _ _ => true | _ => false end.

(** [err == ErrVoteHeightMismatch] *)
Definition isErrVoteHeightMismatch (e : Error) : bool :=
  match e with ErrVoteHeightMismatch => true | _ => false end.

(** ** Round steps *)

(** [type RoundStepType uint8], "these must be numeric, ordered". *)
Definition RoundStepType := Z.

Definition RoundStepNewHeight : RoundStepType := 1.
Definition RoundStepNewRound : RoundStepType := 2.
Definition RoundStepWaitForMinerBlock : RoundStepType := 3.
Definition RoundStepPropose : RoundStepType := 4.
Definition RoundStepPrevote : RoundStepType := 5.
Definition RoundStepPrevoteWait : RoundStepType := 6.
Definition RoundStepPrecommit : RoundStepType := 7.
Definition RoundStepPrecommitWait : RoundStepType := 8.
Definition RoundStepCommit : RoundStepType := 9.
Definition RoundStepTest : RoundStepType := 10.

Definition RoundStepType_String (rs : RoundStepType) : string :=
  if rs =? RoundStepNewHeight then "RoundStepNewHeight"
  else if rs =? RoundStepNewRound then "RoundStepNewRound"
  else if rs =? RoundStepPropose then "RoundStepPropose"
  else if rs =? RoundStepWaitForMinerBlock then "RoundStepWaitForMinerBlock"
  else if rs =? RoundStepPrevote then "RoundStepPrevote"
  else if rs =? RoundStepPrevoteWait then "RoundStepPrevoteWait"
  else if rs =? RoundStepPrecommit then "RoundStepPrecommit"
  else if rs =? RoundStepPrecommitWait then "RoundStepPrecommitWait"
  else if rs =? RoundStepCommit then "RoundStepCommit"
  else if rs =? RoundStepTest then "RoundStepTest"
  else "RoundStepUnknown".

(** ** Timeout parameters *)

Record TimeoutParams : Type := mkTimeoutParams {
  WaitForMinerBlock0 : Z;
  Propose0 : Z;
  ProposeDelta : Z;
  Prevote0 : Z;
  PrevoteDelta : Z;
  Precommit0 : Z;
  PrecommitDelta : Z;
  Commit0 : Z;
  SkipTimeoutCommit : bool
}.

(** [time.Duration(ms) * time.Millisecond], an [int64] count of
    nanoseconds. *)
Definition Millisecond : Z := 1000000.
Definition Duration_of_ms (ms : Z) : Z := to_int (to_int ms * Millisecond).

Definition tp_WaitForMinerBlock (tp : TimeoutParams) : Z :=
  Duration_of_ms (WaitForMinerBlock0 tp).
Definition tp_Propose (tp : TimeoutParams) (round : Z) : Z :=
  Duration_of_ms (to_int (Propose0 tp + to_int (ProposeDelta tp * round))).
Definition tp_Prevote (tp : TimeoutParams) (round : Z) : Z :=
  Duration_of_ms (to_int (Prevote0 tp + to_int (PrevoteDelta tp * round))).
Definition tp_Precommit (tp : TimeoutParams) (round : Z) : Z :=
  Duration_of_ms (to_int (Precommit0 tp + to_int (PrecommitDelta tp * round))).

Record timeoutInfo : Type := mkTimeoutInfo {
  ti_Duration : Z;
  ti_Height : Z;                (* uint64 *)
  ti_Round : Z;                 (* int *)
  ti_Step : RoundStepType
}.

(** [types.EventDataRoundState], without its back pointer to the round
    state. *)
Record EventDataRoundState : Type := mkEventDataRoundState {
  ed_Height : Z;
  ed_Round : Z;
  ed_Step : string
}.

(** ** The absent packages *)

(** The pointer types of the absent packages, and the store their
    contents live in. *)
Class Types : Type := {
  World : Type;
  TdmBlock : Type;
  PartSet : Type;
  Part : Type;
  ValidatorSet : Type;
  HeightVoteSet : Type;
  VoteSet : Type;
  PrivValidator : Type;
  PubKey : Type;
  EthBlock : Type;
  Tx : Type;
  TX3ProofData : Type;
  Epoch : Type;
  Commit : Type;
  FunctionType : Type;
  WithdrawArgs : Type
}.

(** [types.Validator], as far as the driver reads it. *)
Record Validator `{Types} : Type := mkValidator {
  val_Address : bytes;
  val_PubKey : PubKey
}.

(** The methods of the absent packages the driver calls.  A method with a
    pointer receiver that the driver may call on nil takes an [option]. *)
Class Externals `{Types} : Type := {
  (* time *)
  time_Now : World -> Z;
  (* types.TdmBlock *)
  Block_Hash : World -> TdmBlock -> bytes;
  Block_HashesTo : World -> option TdmBlock -> bytes -> bool;
  Block_ValidateBasic : World -> option TdmBlock -> option Error;
  Block_FromBytes : World -> PartSet -> World * option TdmBlock * option Error;
  Block_Height : World -> TdmBlock -> Z;
  Block_ChainID : World -> TdmBlock -> string;
  Block_EpochBytes : World -> TdmBlock -> bytes;
  Block_Transactions : World -> TdmBlock -> list Tx;
  Block_TX3ProofData : World -> TdmBlock -> list TX3ProofData;
  Block_setSeenCommit : World -> TdmBlock -> Commit -> World;
  Block_setNeedToSave : World -> TdmBlock -> World;
  Block_setNeedToBroadcast : World -> TdmBlock -> World;
  MakeBlock : World -> Z -> EthBlock -> bytes -> bytes -> list TX3ProofData ->
              World * option TdmBlock * option PartSet;
  (* types.PartSet *)
  PartSet_Header : World -> option PartSet -> PartSetHeader;
  PartSet_HasHeader : World -> option PartSet -> PartSetHeader -> bool;
  PartSet_Total : World -> option PartSet -> Z;
  PartSet_GetPart : World -> option PartSet -> Z -> Part;
  PartSet_AddPart : World -> PartSet -> Part -> bool -> World * bool * option Error;
  PartSet_IsComplete : World -> PartSet -> bool;
  NewPartSetFromHeader : World -> PartSetHeader -> World * PartSet;
  (* types.ValidatorSet *)
  ValidatorSet_Copy : World -> ValidatorSet -> World * ValidatorSet;
  ValidatorSet_IncrementAccum : World -> ValidatorSet -> Z -> World;
  ValidatorSet_GetProposer : World -> ValidatorSet -> Validator;
  ValidatorSet_HasAddress : World -> ValidatorSet -> bytes -> bool;
  ValidatorSet_GetByAddress : World -> ValidatorSet -> bytes -> Z;
  (* HeightVoteSet and types.VoteSet *)
  HeightVoteSet_SetRound : World -> HeightVoteSet -> Z -> World;
  HeightVoteSet_AddVote : World -> HeightVoteSet -> Vote -> string ->
                          World * bool * option Error;
  HeightVoteSet_Prevotes : World -> HeightVoteSet -> Z -> option VoteSet;
  HeightVoteSet_Precommits : World -> HeightVoteSet -> Z -> option VoteSet;
  HeightVoteSet_POLInfo : World -> HeightVoteSet -> Z * BlockID;
  VoteSet_TwoThirdsMajority : World -> option VoteSet -> BlockID * bool;
  VoteSet_HasTwoThirdsMajority : World -> option VoteSet -> bool;
  VoteSet_HasTwoThirdsAny : World -> option VoteSet -> bool;
  VoteSet_HasAll : World -> option VoteSet -> bool;
  VoteSet_MakeCommit : World -> option VoteSet -> Commit;
  (* PrivValidator *)
  PrivValidator_GetAddress : World -> PrivValidator -> bytes;
  PrivValidator_SignVote : World -> PrivValidator -> string -> Vote ->
                           World * Vote * option Error;
  PrivValidator_SignProposal : World -> PrivValidator -> string -> Proposal ->
                               World * Proposal * option Error;
  (* signatures *)
  SignBytes : string -> Proposal -> bytes;
  PubKey_VerifyBytes : PubKey -> bytes -> option bytes -> bool;
  (* cs.state (sm.State) and its TdmExtra *)
  state_ChainID : World -> string;
  state_Height : World -> Z;
  state_NeedToSave : World -> bool;
  state_setNeedToSave : World -> bool -> World;
  state_NeedToBroadcast : World -> bool;
  state_setNeedToBroadcast : World -> bool -> World;
  state_Epoch_Bytes : World -> bytes;
  state_ValidatorsHash : World -> bytes;
  (* cs.Epoch and package epoch *)
  Epoch_StartBlock : World -> Z;
  Epoch_Number : World -> Z;
  Epoch_Bytes : World -> bytes;
  Epoch_ShouldProposeNextEpoch : World -> Z -> bool;
  Epoch_ProposeNextEpoch_Bytes : World -> Z -> Z -> World * bytes;
  Epoch_ValidateNextEpoch : World -> Epoch -> Z -> Z -> option Error;
  Epoch_FromBytes : bytes -> option Epoch;
  Epoch_Number_of : World -> Epoch -> Z;
  (* cs.backend *)
  backend_Commit : World -> TdmBlock -> World * option Error;
  ChainReader_CurrentBlockNumber : World -> Z;
  ChainReader_CurrentBlockTime : World -> Z;
  ChainReader_GetBlockByNumber : World -> Z -> option EthBlock;
  ChainReader_isChainValidator : World -> bool;
  ChainValidator_ValidateBlock : World -> TdmBlock -> World * option Error;
  (* ethereum transactions, package abi, cs.cch *)
  EthBlock_Transactions : EthBlock -> list Tx;
  Tx_To : Tx -> option bytes;
  Tx_Data : Tx -> bytes;
  IsPChainContractAddr : option bytes -> bool;
  FunctionTypeFromId : bytes -> FunctionType * option Error;
  isWithdrawFromMainChain : FunctionType -> bool;
  isWithdrawFromChildChain : FunctionType -> bool;
  UnpackWithdrawFromMainChainArgs : bytes -> WithdrawArgs * option Error;
  cch_GetTX3ProofData : World -> WithdrawArgs -> option TX3ProofData;
  cch_ValidateTX3ProofData : World -> TX3ProofData -> option Error;
  cch_ValidateTX4WithInMemTX3ProofData : World -> Tx -> TX3ProofData -> option Error;
  (* The two routines that report to the main chain over RPC, with
     wall-clock waits: they write no field of the consensus state, and
     are kept as their effect on the store, or a panic. *)
  saveBlockToMainChain : World -> PrivValidator -> option EthBlock -> Result World;
  broadcastTX3ProofDataToMainChain : World -> option EthBlock -> Result World
}.

Section Model.

Context `{X : Externals}.

(** ** Messages and events *)

Inductive ConsensusMessage : Type :=
| ProposalMessage (proposal : Proposal)
| BlockPartMessage (height : Z) (round : Z) (part : Part)
| VoteMessage (vote : Vote)
| OtherMessage.

Record msgInfo : Type := mkMsgInfo {
  mi_Msg : ConsensusMessage;
  mi_PeerKey : string
}.

(** What the driver hands to the event switch, in the order of the
    [types.FireEvent*] calls. *)
Inductive Event : Type :=
| EventNewRoundStep (d : EventDataRoundState)
| EventNewRound (d : EventDataRoundState)
| EventCompleteProposal (d : EventDataRoundState)
| EventPolka (d : EventDataRoundState)
| EventLock (d : EventDataRoundState)
| EventUnlock (d : EventDataRoundState)
| EventRelock (d : EventDataRoundState)
| EventTimeoutPropose (d : EventDataRoundState)
| EventTimeoutWait (d : EventDataRoundState)
| EventVote (vote : Vote)
| EventNewBlock (block : TdmBlock)
| EventNewBlockHeader (height : Z).

(** ** The round state and the consensus state *)

Record RoundState : Type := mkRoundState {
  Height : Z;                   (* uint64 *)
  Round : Z;                    (* int *)
  Step : RoundStepType;
  StartTime : Z;
  CommitTime : Z;
  Validators : ValidatorSet;
  Proposal_ : option Proposal;
  ProposalBlock : option TdmBlock;
  ProposalBlockParts : option PartSet;
  LockedRound : Z;              (* int *)
  LockedBlock : option TdmBlock;
  LockedBlockParts : option PartSet;
  Votes : HeightVoteSet;
  CommitRound : Z;              (* int *)
  LastCommit : option VoteSet
}.

(** [ConsensusState]: the embedded [RoundState], the fields the driver
    reads and writes, and what it has sent out: the internal message
    queue (a channel of capacity [msgQueueSize]), the sends handed to a
    goroutine when that queue is full, the timeouts given to the ticker
    and the events given to the event switch.  [cs.state], [cs.Epoch],
    [cs.backend] and [cs.cch] point into the [World]. *)
Record ConsensusState : Type := mkConsensusState {
  world : World;
  privValidator : option PrivValidator;
  RS : RoundState;
  internalMsgQueue : list msgInfo;
  spawnedSends : list msgInfo;
  scheduled : list timeoutInfo;
  timeoutParams : TimeoutParams;
  evsw : bool;                  (* cs.evsw != nil *)
  fired : list Event;
  nSteps : Z;
  blockFromMiner : option EthBlock
}.

Definition msgQueueSize : Z := 1000.

(** Field updates. *)
Definition set_world (w : World) (cs : ConsensusState) : ConsensusState :=
  mkConsensusState w (privValidator cs) (RS cs) (internalMsgQueue cs)
    (spawnedSends cs) (scheduled cs) (timeoutParams cs) (evsw cs) (fired cs)
    (nSteps cs) (blockFromMiner cs).
Definition set_RS (rs : RoundState) (cs : ConsensusState) : ConsensusState :=
  mkConsensusState (world cs) (privValidator cs) rs (internalMsgQueue cs)
    (spawnedSends cs) (scheduled cs) (timeoutParams cs) (evsw cs) (fired cs)
    (nSteps cs) (blockFromMiner cs).
Definition set_internalMsgQueue (q : list msgInfo) (cs : ConsensusState) :=
  mkConsensusState (world cs) (privValidator cs) (RS cs) q
    (spawnedSends cs) (scheduled cs) (timeoutParams cs) (evsw cs) (fired cs)
    (nSteps cs) (blockFromMiner cs).
Definition set_spawnedSends (q : list msgInfo) (cs : ConsensusState) :=
  mkConsensusState (world cs) (privValidator cs) (RS cs) (internalMsgQueue cs)
    q (scheduled cs) (timeoutParams cs) (evsw cs) (fired cs)
    (nSteps cs) (blockFromMiner cs).
Definition set_scheduled (l : list timeoutInfo) (cs : ConsensusState) :=
  mkConsensusState (world cs) (privValidator cs) (RS cs) (internalMsgQueue cs)
    (spawnedSends cs) l (timeoutParams cs) (evsw cs) (fired cs)
    (nSteps cs) (blockFromMiner cs).
Definition set_fired (l : list Event) (cs : ConsensusState) :=
  mkConsensusState (world cs) (privValidator cs) (RS cs) (internalMsgQueue cs)
    (spawnedSends cs) (scheduled cs) (timeoutParams cs) (evsw cs) l
    (nSteps cs) (blockFromMiner cs).
Definition set_nSteps (n : Z) (cs : ConsensusState) :=
  mkConsensusState (world cs) (privValidator cs) (RS cs) (internalMsgQueue cs)
    (spawnedSends cs) (scheduled cs) (timeoutParams cs) (evsw cs) (fired cs)
    n (blockFromMiner cs).
Definition set_blockFromMiner (b : option EthBlock) (cs : ConsensusState) :=
  mkConsensusState (world cs) (privValidator cs) (RS cs) (internalMsgQueue cs)
    (spawnedSends cs) (scheduled cs) (timeoutParams cs) (evsw cs) (fired cs)
    (nSteps cs) b.

Definition rs_set_RoundStep (round : Z) (step : RoundStepType) (r : RoundState) :=
  mkRoundState (Height r) round step (StartTime r) (CommitTime r)
    (Validators r) (Proposal_ r) (ProposalBlock r) (ProposalBlockParts r)
    (LockedRound r) (LockedBlock r) (LockedBlockParts r) (Votes r)
    (CommitRound r) (LastCommit r).
Definition rs_set_Validators (v : ValidatorSet) (r : RoundState) :=
  mkRoundState (Height r) (Round r) (Step r) (StartTime r) (CommitTime r)
    v (Proposal_ r) (ProposalBlock r) (ProposalBlockParts r)
    (LockedRound r) (LockedBlock r) (LockedBlockParts r) (Votes r)
    (CommitRound r) (LastCommit r).
Definition rs_set_Proposal (p : option Proposal) (r : RoundState) :=
  mkRoundState (Height r) (Round r) (Step r) (StartTime r) (CommitTime r)
    (Validators r) p (ProposalBlock r) (ProposalBlockParts r)
    (LockedRound r) (LockedBlock r) (LockedBlockParts r) (Votes r)
    (CommitRound r) (LastCommit r).
Definition rs_set_ProposalBlock (b : option TdmBlock) (r : RoundState) :=
  mkRoundState (Height r) (Round r) (Step r) (StartTime r) (CommitTime r)
    (Validators r) (Proposal_ r) b (ProposalBlockParts r)
    (LockedRound r) (LockedBlock r) (LockedBlockParts r) (Votes r)
    (CommitRound r) (LastCommit r).
Definition rs_set_ProposalBlockParts (p : option PartSet) (r : RoundState) :=
  mkRoundState (Height r) (Round r) (Step r) (StartTime r) (CommitTime r)
    (Validators r) (Proposal_ r) (ProposalBlock r) p
    (LockedRound r) (LockedBlock r) (LockedBlockParts r) (Votes r)
    (CommitRound r) (LastCommit r).
Definition rs_set_Locked (lr : Z) (b : option TdmBlock) (p : option PartSet)
    (r : RoundState) :=
  mkRoundState (Height r) (Round r) (Step r) (StartTime r) (CommitTime r)
    (Validators r) (Proposal_ r) (ProposalBlock r) (ProposalBlockParts r)
    lr b p (Votes r) (CommitRound r) (LastCommit r).
Definition rs_set_Commit (cr : Z) (ct : Z) (r : RoundState) :=
  mkRoundState (Height r) (Round r) (Step r) (StartTime r) ct
    (Validators r) (Proposal_ r) (ProposalBlock r) (ProposalBlockParts r)
    (LockedRound r) (LockedBlock r) (LockedBlockParts r) (Votes r)
    cr (LastCommit r).

(** ** The driver monad: state passing, with panics *)

Definition M (A : Type) : Type := ConsensusState -> Result (A * ConsensusState).

Definition ret {A} (a : A) : M A := fun cs => Ok (a, cs).

Definition bind {A B} (m : M A) (k : A -> M B) : M B :=
  fun cs => match m cs with
            | Ok (a, cs') => k a cs'
            | Panic msg => Panic msg
            end.

Definition get : M ConsensusState := fun cs => Ok (cs, cs).

Definition modify (f : ConsensusState -> ConsensusState) : M unit :=
  fun cs => Ok (tt, f cs).

Definition panic {A} (msg : string) : M A := fun _ => Panic msg.

Notation "x <- m ;; k" := (bind m (fun x => k))
  (at level 61, m at next level, right associativity).
Notation "m ;;; k" := (bind m (fun _ => k))
  (at level 61, right associativity).

Definition modifyRS (f : RoundState -> RoundState) : M unit :=
  modify (fun cs => set_RS (f (RS cs)) cs).

(** The message of the runtime when a nil pointer or a nil interface is
    used. *)
Definition nilDeref : string := "invalid memory address or nil pointer dereference".
Definition sliceBounds : string := "slice bounds out of range".

(** ** Internal functions for managing the state *)

Definition updateRoundStep (round : Z) (step : RoundStepType) : M unit :=
  modifyRS (rs_set_RoundStep round step).

Definition RoundStateEvent (rs : RoundState) : EventDataRoundState :=
  mkEventDataRoundState (Height rs) (Round rs) (RoundStepType_String (Step rs)).

Definition fire (e : Event) : M unit :=
  modify (fun cs => set_fired (fired cs ++ [e]) cs).

(** [types.FireEventX(cs.evsw, cs.RoundStateEvent())] *)
Definition fireRS (ev : EventDataRoundState -> Event) : M unit :=
  cs <- get ;; fire (ev (RoundStateEvent (RS cs))).

Definition scheduleTimeout (duration : Z) (height : Z) (round : Z)
    (step : RoundStepType) : M unit :=
  modify (fun cs =>
    set_scheduled (scheduled cs ++ [mkTimeoutInfo duration height round step]) cs).

(** The send goes to the queue when it has room, and to a goroutine of
    its own otherwise. *)
Definition sendInternalMessage (mi : msgInfo) : M unit :=
  modify (fun cs =>
    if Z.of_nat (List.length (internalMsgQueue cs)) <? msgQueueSize
    then set_internalMsgQueue (internalMsgQueue cs ++ [mi]) cs
    else set_spawnedSends (spawnedSends cs ++ [mi]) cs).

Definition newStep : M unit :=
  cs <- get ;;
  let rs := RoundStateEvent (RS cs) in
  modify (fun cs => set_nSteps (to_int (nSteps cs + 1)) cs) ;;;
  if evsw cs then fire (EventNewRoundStep rs) else ret tt.

(** [cs.privValidator != nil &&
     bytes.Equal(cs.Validators.GetProposer().Address, cs.privValidator.GetAddress())] *)
Definition isProposer (cs : ConsensusState) : bool :=
  match privValidator cs with
  | Some pv =>
      bytes_Equal
        (val_Address (ValidatorSet_GetProposer (world cs) (Validators (RS cs))))
        (PrivValidator_GetAddress (world cs) pv)
  | None => false
  end.

(** ** Signing votes *)

Definition signVote (type_ : VoteType) (hash : bytes) (header : PartSetHeader)
    : M (Vote * option Error) :=
  cs <- get ;;
  match privValidator cs with
  | None => panic nilDeref
  | Some pv =>
      let addr := PrivValidator_GetAddress (world cs) pv in
      let valIndex :=
        ValidatorSet_GetByAddress (world cs) (Validators (RS cs)) addr in
      let vote :=
        mkVote addr (to_uint64 valIndex) (to_uint64 (Height (RS cs)))
          (to_uint64 (Round (RS cs))) type_ (mkBlockID hash header) None in
      let '(w, vote', err) :=
        PrivValidator_SignVote (world cs) pv (state_ChainID (world cs)) vote in
      modify (set_world w) ;;;
      ret (vote', err)
  end.

(** Sign the vote and publish it on the internal message queue. *)
Definition signAddVote (type_ : VoteType) (hash : bytes) (header : PartSetHeader)
    : M (option Vote) :=
  cs <- get ;;
  match privValidator cs with
  | None => ret None
  | Some pv =>
      if negb (ValidatorSet_HasAddress (world cs) (Validators (RS cs))
                 (PrivValidator_GetAddress (world cs) pv))
      then ret None
      else
        r <- signVote type_ hash header ;;
        match snd r with
        | None =>
            sendInternalMessage (mkMsgInfo (VoteMessage (fst r)) "") ;;;
            ret (Some (fst r))
        | Some _ => ret None
        end
  end.

(** ** Proposals *)

Definition isProposalComplete (cs : ConsensusState) : bool :=
  match Proposal_ (RS cs), ProposalBlock (RS cs) with
  | Some proposal, Some _ =>
      if prop_POLRound proposal <? 0 then true
      else VoteSet_HasTwoThirdsMajority (world cs)
             (HeightVoteSet_Prevotes (world cs) (Votes (RS cs))
                (prop_POLRound proposal))
  | _, _ => false
  end.

(** The loop of [createProposalBlock] that retrieves the TX3 proof data
    for the TX4 transactions of the miner's block. *)
Fixpoint collectTX3ProofData (w : World) (txs : list Tx)
    (tx3ProofData : list TX3ProofData) : Result (list TX3ProofData) :=
  match txs with
  | [] => Ok tx3ProofData
  | tx :: rest =>
      if IsPChainContractAddr (Tx_To tx) then
        let data := Tx_Data tx in
        if Z.of_nat (List.length data) <? 4 then Panic sliceBounds
        else
          let '(function, err) := FunctionTypeFromId (firstn 4 data) in
          match err with
          | Some _ => collectTX3ProofData w rest tx3ProofData
          | None =>
              if isWithdrawFromMainChain function then
                let '(args, err) :=
                  UnpackWithdrawFromMainChainArgs (skipn 4 data) in
                match err with
                | Some _ => collectTX3ProofData w rest tx3ProofData
                | None =>
                    match cch_GetTX3ProofData w args with
                    | Some proof =>
                        collectTX3ProofData w rest (tx3ProofData ++ [proof])
                    | None => collectTX3ProofData w rest tx3ProofData
                    end
                end
              else collectTX3ProofData w rest tx3ProofData
          end
      else collectTX3ProofData w rest tx3ProofData
  end.

(** Create the next block to propose; a nil block when the miner has
    supplied none. *)
Definition createProposalBlock : M (option TdmBlock * option PartSet) :=
  cs <- get ;;
  match blockFromMiner cs with
  | Some ethBlock =>
      let w := world cs in
      let h := Height (RS cs) in
      let '(w1, epochBytes) :=
        if h =? Epoch_StartBlock w then (w, Epoch_Bytes w)
        else if h =? 1 then (w, state_Epoch_Bytes w)
        else if Epoch_ShouldProposeNextEpoch w h then
          let lastHeight := ChainReader_CurrentBlockNumber w in
          let lastBlockTime := ChainReader_CurrentBlockTime w in
          Epoch_ProposeNextEpoch_Bytes w lastHeight lastBlockTime
        else (w, []) in
      let valHash := state_ValidatorsHash w1 in
      modify (fun cs => set_blockFromMiner None (set_world w1 cs)) ;;;
      match collectTX3ProofData w1 (EthBlock_Transactions ethBlock) [] with
      | Panic msg => panic msg
      | Ok tx3ProofData =>
          let '(w2, block, parts) :=
            MakeBlock w1 h ethBlock valHash epochBytes tx3ProofData in
          modify (set_world w2) ;;;
          ret (block, parts)
      end
  | None => ret (None, None)
  end.

Definition defaultDecideProposal (height : Z) (round : Z) : M unit :=
  cs <- get ;;
  bp <- match LockedBlock (RS cs) with
        | Some b => ret (Some b, LockedBlockParts (RS cs))
        | None => createProposalBlock
        end ;;
  match fst bp with
  | None => ret tt
  | Some block =>
      let blockParts := snd bp in
      cs <- get ;;
      let w := world cs in
      let '(polRound, polBlockID) := HeightVoteSet_POLInfo w (Votes (RS cs)) in
      let proposal :=
        mkProposal height round (PartSet_Header w blockParts) polRound
          polBlockID None in
      match privValidator cs with
      | None => panic nilDeref
      | Some pv =>
          let '(w1, proposal', err) :=
            PrivValidator_SignProposal w pv (state_ChainID w) proposal in
          modify (set_world w1) ;;;
          match err with
          | Some _ => ret tt
          | None =>
              sendInternalMessage (mkMsgInfo (ProposalMessage proposal') "") ;;;
              fold_left
                (fun (m : M unit) (i : nat) =>
                   m ;;;
                   cs <- get ;;
                   let part :=
                     PartSet_GetPart (world cs) blockParts (Z.of_nat i) in
                   sendInternalMessage
                     (mkMsgInfo
                        (BlockPartMessage (Height (RS cs)) (Round (RS cs)) part)
                        ""))
                (seq 0 (Z.to_nat (PartSet_Total w1 blockParts)))
                (ret tt)
          end
      end
  end.

(** ** Prevote *)

(** [ValidateTX4]: the TX4 transactions of the block and its TX3 proof
    data must match one by one, in order. *)
Fixpoint ValidateTX4_loop (w : World) (proofs : list TX3ProofData)
    (txs : list Tx) (index : nat) : Result (option Error) :=
  match txs with
  | [] => Ok None
  | tx :: rest =>
      if IsPChainContractAddr (Tx_To tx) then
        let data := Tx_Data tx in
        if Z.of_nat (List.length data) <? 4 then Panic sliceBounds
        else
          let '(function, err) := FunctionTypeFromId (firstn 4 data) in
          match err with
          | Some _ => ValidateTX4_loop w proofs rest index
          | None =>
              if isWithdrawFromMainChain function then
                match nth_error proofs index with
                | None => Ok (Some (ErrExternal "tx3 proof data missing"))
                | Some tx3ProofData =>
                    match cch_ValidateTX3ProofData w tx3ProofData with
                    | Some e => Ok (Some e)
                    | None =>
                        match cch_ValidateTX4WithInMemTX3ProofData w tx
                                tx3ProofData with
                        | Some e => Ok (Some e)
                        | None => ValidateTX4_loop w proofs rest (S index)
                        end
                    end
                end
              else ValidateTX4_loop w proofs rest index
          end
      else ValidateTX4_loop w proofs rest index
  end.

Definition ValidateTX4 (w : World) (b : TdmBlock) : Result (option Error) :=
  ValidateTX4_loop w (Block_TX3ProofData w b) (Block_Transactions w b) 0%nat.

Definition prevoteNil : M unit :=
  signAddVote VoteTypePrevote [] PartSetHeader_zero ;;; ret tt.

(** The last part of [defaultDoPrevote]: the check of a proposed next
    epoch, then the prevote for the proposal block. *)
Definition doPrevote_epoch (pb : TdmBlock) : M unit :=
  cs <- get ;;
  let w := world cs in
  let prevoteBlock :=
    signAddVote VoteTypePrevote (Block_Hash w pb)
      (PartSet_Header w (ProposalBlockParts (RS cs))) ;;; ret tt in
  match Epoch_FromBytes (Block_EpochBytes w pb) with
  | Some proposedNextEpoch =>
      if Epoch_Number_of w proposedNextEpoch =? to_uint64 (Epoch_Number w + 1)
      then
        let lastHeight := ChainReader_CurrentBlockNumber w in
        let lastBlockTime := ChainReader_CurrentBlockTime w in
        match Epoch_ValidateNextEpoch w proposedNextEpoch lastHeight
                lastBlockTime with
        | Some _ => prevoteNil
        | None => prevoteBlock
        end
      else prevoteBlock
  | None => prevoteBlock
  end.

Definition defaultDoPrevote (height : Z) (round : Z) : M unit :=
  cs <- get ;;
  let w := world cs in
  match LockedBlock (RS cs) with
  | Some lb =>
      (* If a block is locked, prevote that. *)
      signAddVote VoteTypePrevote (Block_Hash w lb)
        (PartSet_Header w (LockedBlockParts (RS cs))) ;;; ret tt
  | None =>
      match ProposalBlock (RS cs) with
      | None => prevoteNil
      | Some pb =>
          match Block_ValidateBasic w (Some pb) with
          | Some _ => prevoteNil
          | None =>
              if negb (isProposer cs) then
                (* non-proposer validates tx4 and executes the block here *)
                match ValidateTX4 w pb with
                | Panic msg => panic msg
                | Ok (Some _) => prevoteNil
                | Ok None =>
                    if ChainReader_isChainValidator w then
                      let '(w1, err) := ChainValidator_ValidateBlock w pb in
                      modify (set_world w1) ;;;
                      match err with
                      | Some _ => prevoteNil
                      | None => doPrevote_epoch pb
                      end
                    else doPrevote_epoch pb
                end
              else doPrevote_epoch pb
          end
      end
  end.

Definition enterPrevote (height : Z) (round : Z) : M unit :=
  cs <- get ;;
  if negb (Height (RS cs) =? height) || (round <? Round (RS cs))
     || ((Round (RS cs) =? round) && (RoundStepPrevote <=? Step (RS cs)))
  then ret tt
  else
    (if isProposalComplete cs then fireRS EventCompleteProposal else ret tt) ;;;
    defaultDoPrevote height round ;;;
    (* deferred: done enterPrevote *)
    updateRoundStep round RoundStepPrevote ;;;
    newStep.

Definition enterPrevoteWait (height : Z) (round : Z) : M unit :=
  cs <- get ;;
  if negb (Height (RS cs) =? height) || (round <? Round (RS cs))
     || ((Round (RS cs) =? round) && (RoundStepPrevoteWait <=? Step (RS cs)))
  then ret tt
  else if negb (VoteSet_HasTwoThirdsAny (world cs)
                  (HeightVoteSet_Prevotes (world cs) (Votes (RS cs)) round))
  then panic "enterPrevoteWait, but Prevotes does not have any +2/3 votes"
  else
    scheduleTimeout (tp_Prevote (timeoutParams cs) round) height round
      RoundStepPrevoteWait ;;;
    (* deferred: done enterPrevoteWait *)
    updateRoundStep round RoundStepPrevoteWait ;;;
    newStep.

(** ** Propose and new round *)

(** The body of [enterPropose], up to its deferred function. *)
Definition enterPropose_body (height : Z) (round : Z) : M unit :=
  cs <- get ;;
  (if state_NeedToSave (world cs) then
     match privValidator cs with
     | Some pv =>
         if isProposer cs then
           let lastBlock :=
             ChainReader_GetBlockByNumber (world cs) (state_Height (world cs)) in
           match saveBlockToMainChain (world cs) pv lastBlock with
           | Panic msg => panic msg
           | Ok w => modify (set_world (state_setNeedToSave w false))
           end
         else ret tt
     | None => ret tt
     end
   else ret tt) ;;;
  cs <- get ;;
  (if state_NeedToBroadcast (world cs) then
     if isProposer cs then
       let lastBlock :=
         ChainReader_GetBlockByNumber (world cs) (state_Height (world cs)) in
       match broadcastTX3ProofDataToMainChain (world cs) lastBlock with
       | Panic msg => panic msg
       | Ok w => modify (set_world (state_setNeedToBroadcast w false))
       end
     else ret tt
   else ret tt) ;;;
  cs <- get ;;
  scheduleTimeout (tp_Propose (timeoutParams cs) round) height round
    RoundStepPropose ;;;
  match privValidator cs with
  | None => ret tt
  | Some pv =>
      if negb (bytes_Equal
                 (val_Address
                    (ValidatorSet_GetProposer (world cs) (Validators (RS cs))))
                 (PrivValidator_GetAddress (world cs) pv))
      then ret tt
      else defaultDecideProposal height round
  end.

Definition enterPropose (height : Z) (round : Z) : M unit :=
  cs <- get ;;
  if negb (Height (RS cs) =? height) || (round <? Round (RS cs))
     || ((Round (RS cs) =? round) && (RoundStepPropose <=? Step (RS cs)))
  then ret tt
  else
    enterPropose_body height round ;;;
    (* deferred: done enterPropose *)
    updateRoundStep round RoundStepPropose ;;;
    newStep ;;;
    cs <- get ;;
    if isProposalComplete cs then enterPrevote height (Round (RS cs))
    else ret tt.

Definition enterNewRound (height : Z) (round : Z) : M unit :=
  cs <- get ;;
  if negb (Height (RS cs) =? height) || (round <? Round (RS cs))
     || ((Round (RS cs) =? round)
         && negb (Step (RS cs) =? RoundStepNewHeight))
  then ret tt
  else
    (* Increment validators if necessary *)
    validators <-
      (if Round (RS cs) <? round then
         let '(w1, validators) :=
           ValidatorSet_Copy (world cs) (Validators (RS cs)) in
         let w2 :=
           ValidatorSet_IncrementAccum w1 validators
             (to_int (round - Round (RS cs))) in
         modify (set_world w2) ;;; ret validators
       else ret (Validators (RS cs))) ;;
    (* Setup new round *)
    updateRoundStep round RoundStepNewRound ;;;
    modifyRS (rs_set_Validators validators) ;;;
    (if round =? 0 then ret tt
     else modifyRS (fun rs =>
            rs_set_ProposalBlockParts None
              (rs_set_ProposalBlock None (rs_set_Proposal None rs)))) ;;;
    modify (fun cs =>
      set_world
        (HeightVoteSet_SetRound (world cs) (Votes (RS cs)) (to_int (round + 1)))
        cs) ;;;
    fireRS EventNewRound ;;;
    cs <- get ;;
    match privValidator cs with
    | None => panic nilDeref
    | Some pv =>
        if bytes_Equal
             (val_Address
                (ValidatorSet_GetProposer (world cs) (Validators (RS cs))))
             (PrivValidator_GetAddress (world cs) pv)
           && match blockFromMiner cs with None => true | Some _ => false end
        then
          scheduleTimeout (tp_WaitForMinerBlock (timeoutParams cs)) height round
            RoundStepWaitForMinerBlock
        else enterPropose height round
    end.

(** ** Precommit *)

Definition precommitNil : M unit :=
  signAddVote VoteTypePrecommit [] PartSetHeader_zero ;;; ret tt.

(** [cs.LockedRound = 0; cs.LockedBlock = nil; cs.LockedBlockParts = nil] *)
Definition unlock : M unit := modifyRS (rs_set_Locked 0 None None).

(** The body of [enterPrecommit], up to its deferred function. *)
Definition enterPrecommit_body (height : Z) (round : Z) : M unit :=
  cs <- get ;;
  let w := world cs in
  let '(blockID, ok) :=
    VoteSet_TwoThirdsMajority w
      (HeightVoteSet_Prevotes w (Votes (RS cs)) round) in
  (* If we don't have a polka, we must precommit nil *)
  if negb ok then precommitNil
  else
    (* At this point +2/3 prevoted for a particular block or nil *)
    fireRS EventPolka ;;;
    (* the latest POLRound should be this round *)
    let '(polRound, _) := HeightVoteSet_POLInfo w (Votes (RS cs)) in
    if polRound <? round then panic "This POLRound should be the round"
    else if len0 (bid_Hash blockID) then
      (* +2/3 prevoted nil. Unlock and precommit nil. *)
      match LockedBlock (RS cs) with
      | None => ret tt
      | Some _ => unlock ;;; fireRS EventUnlock
      end ;;;
      precommitNil
    else if Block_HashesTo w (LockedBlock (RS cs)) (bid_Hash blockID) then
      (* already locked on that block: precommit it, update LockedRound *)
      modifyRS (fun rs =>
        rs_set_Locked round (LockedBlock rs) (LockedBlockParts rs) rs) ;;;
      fireRS EventRelock ;;;
      signAddVote VoteTypePrecommit (bid_Hash blockID)
        (bid_PartsHeader blockID) ;;;
      ret tt
    else if Block_HashesTo w (ProposalBlock (RS cs)) (bid_Hash blockID) then
      (* +2/3 prevoted for proposal block: stage and precommit it *)
      match Block_ValidateBasic w (ProposalBlock (RS cs)) with
      | Some _ => panic "enterPrecommit: +2/3 prevoted for an invalid block"
      | None =>
          modifyRS (fun rs =>
            rs_set_Locked round (ProposalBlock rs) (ProposalBlockParts rs) rs) ;;;
          fireRS EventLock ;;;
          signAddVote VoteTypePrecommit (bid_Hash blockID)
            (bid_PartsHeader blockID) ;;;
          ret tt
      end
    else
      (* a polka for a block we don't have: fetch it, unlock, precommit nil *)
      unlock ;;;
      (if negb (PartSet_HasHeader w (ProposalBlockParts (RS cs))
                  (bid_PartsHeader blockID))
       then
         let '(w1, ps) := NewPartSetFromHeader w (bid_PartsHeader blockID) in
         modify (set_world w1) ;;;
         modifyRS (fun rs =>
           rs_set_ProposalBlockParts (Some ps) (rs_set_ProposalBlock None rs))
       else ret tt) ;;;
      fireRS EventUnlock ;;;
      precommitNil.

Definition enterPrecommit (height : Z) (round : Z) : M unit :=
  cs <- get ;;
  if negb (Height (RS cs) =? height) || (round <? Round (RS cs))
     || ((Round (RS cs) =? round) && (RoundStepPrecommit <=? Step (RS cs)))
  then ret tt
  else
    enterPrecommit_body height round ;;;
    (* deferred: done enterPrecommit *)
    updateRoundStep round RoundStepPrecommit ;;;
    newStep.

Definition enterPrecommitWait (height : Z) (round : Z) : M unit :=
  cs <- get ;;
  if negb (Height (RS cs) =? height) || (round <? Round (RS cs))
     || ((Round (RS cs) =? round) && (RoundStepPrecommitWait <=? Step (RS cs)))
  then ret tt
  else if negb (VoteSet_HasTwoThirdsAny (world cs)
                  (HeightVoteSet_Precommits (world cs) (Votes (RS cs)) round))
  then panic "enterPrecommitWait, but Precommits does not have any +2/3 votes"
  else
    scheduleTimeout (tp_Precommit (timeoutParams cs) round) height round
      RoundStepPrecommitWait ;;;
    (* deferred: done enterPrecommitWait *)
    updateRoundStep round RoundStepPrecommitWait ;;;
    newStep.

(** ** Commit *)

(** The loop of [finalizeCommit] that looks for a withdrawal from the
    child chain; it stops at the first one. *)
Fixpoint hasWithdrawFromChildChain (txs : list Tx) : Result bool :=
  match txs with
  | [] => Ok false
  | tx :: rest =>
      if IsPChainContractAddr (Tx_To tx) then
        let data := Tx_Data tx in
        if Z.of_nat (List.length data) <? 4 then Panic sliceBounds
        else
          let '(function, err) := FunctionTypeFromId (firstn 4 data) in
          match err with
          | Some _ => hasWithdrawFromChildChain rest
          | None =>
              if isWithdrawFromChildChain function then Ok true
              else hasWithdrawFromChildChain rest
          end
      else hasWithdrawFromChildChain rest
  end.

Definition finalizeCommit (height : Z) : M unit :=
  cs <- get ;;
  if negb (Height (RS cs) =? height)
     || negb (Step (RS cs) =? RoundStepCommit)
  then ret tt
  else
    let w := world cs in
    let precommits :=
      HeightVoteSet_Precommits w (Votes (RS cs)) (CommitRound (RS cs)) in
    let '(blockID, ok) := VoteSet_TwoThirdsMajority w precommits in
    let block := ProposalBlock (RS cs) in
    let blockParts := ProposalBlockParts (RS cs) in
    if negb ok then
      panic "Cannot finalizeCommit, commit does not have two thirds majority"
    else if negb (PartSet_HasHeader w blockParts (bid_PartsHeader blockID)) then
      panic "Expected ProposalBlockParts header to be commit header"
    else if negb (Block_HashesTo w block (bid_Hash blockID)) then
      panic "Cannot finalizeCommit, ProposalBlock does not hash to commit hash"
    else
      match Block_ValidateBasic w block with
      | Some _ => panic "+2/3 committed an invalid block"
      | None =>
          match block with
          | None => panic nilDeref
          | Some b =>
              if state_Height w <? Block_Height w b then
                let seenCommit := VoteSet_MakeCommit w precommits in
                let w1 := Block_setSeenCommit w b seenCommit in
                (* update 'NeedToSave' field here *)
                w3 <-
                  (if negb (String.eqb (Block_ChainID w1 b) "pchain") then
                     let w2 :=
                       if negb (len0 (Block_EpochBytes w1 b))
                       then Block_setNeedToSave w1 b else w1 in
                     match hasWithdrawFromChildChain
                             (Block_Transactions w2 b) with
                     | Panic msg => panic msg
                     | Ok true => ret (Block_setNeedToBroadcast w2 b)
                     | Ok false => ret w2
                     end
                   else ret w1) ;;
                fire (EventNewBlock b) ;;;
                fire (EventNewBlockHeader (to_int (Block_Height w3 b))) ;;;
                modify (set_world (fst (backend_Commit w3 b)))
              else ret tt
          end
      end.

(** If we have the block and +2/3 commits for it, finalize. *)
Definition tryFinalizeCommit (height : Z) : M unit :=
  cs <- get ;;
  if negb (Height (RS cs) =? height) then panic "tryFinalizeCommit() height"
  else
    let w := world cs in
    let '(blockID, ok) :=
      VoteSet_TwoThirdsMajority w
        (HeightVoteSet_Precommits w (Votes (RS cs)) (CommitRound (RS cs))) in
    if negb ok || len0 (bid_Hash blockID) then ret tt
    else if negb (Block_HashesTo w (ProposalBlock (RS cs)) (bid_Hash blockID))
    then ret tt
    else finalizeCommit height.

(** The body of [enterCommit], up to its deferred function. *)
Definition enterCommit_body (height : Z) (commitRound : Z) : M unit :=
  cs <- get ;;
  let w := world cs in
  let '(blockID, ok) :=
    VoteSet_TwoThirdsMajority w
      (HeightVoteSet_Precommits w (Votes (RS cs)) commitRound) in
  if negb ok then panic "RunActionCommit() expects +2/3 precommits"
  else
    (* Move the Locked* fields over to ProposalBlock if they match the
       commit hash. *)
    (if Block_HashesTo w (LockedBlock (RS cs)) (bid_Hash blockID) then
       modifyRS (fun rs =>
         rs_set_ProposalBlockParts (LockedBlockParts rs)
           (rs_set_ProposalBlock (LockedBlock rs) rs))
     else ret tt) ;;;
    cs <- get ;;
    (* If we don't have the block being committed, set up to get it. *)
    if negb (Block_HashesTo w (ProposalBlock (RS cs)) (bid_Hash blockID)) then
      if negb (PartSet_HasHeader w (ProposalBlockParts (RS cs))
                 (bid_PartsHeader blockID))
      then
        let '(w1, ps) := NewPartSetFromHeader w (bid_PartsHeader blockID) in
        modify (set_world w1) ;;;
        modifyRS (fun rs =>
          rs_set_ProposalBlockParts (Some ps) (rs_set_ProposalBlock None rs))
      else ret tt
    else ret tt.

Definition enterCommit (height : Z) (commitRound : Z) : M unit :=
  cs <- get ;;
  if negb (Height (RS cs) =? height) || (RoundStepCommit <=? Step (RS cs))
  then ret tt
  else
    enterCommit_body height commitRound ;;;
    (* deferred: done enterCommit; cs.Round stays the same, commitRound
       points to the right Precommits set *)
    cs <- get ;;
    updateRoundStep (Round (RS cs)) RoundStepCommit ;;;
    modify (fun cs =>
      set_RS (rs_set_Commit commitRound (time_Now (world cs)) (RS cs)) cs) ;;;
    newStep ;;;
    (* Maybe finalize immediately. *)
    tryFinalizeCommit height.

(** ** Receiving proposals and block parts *)

Definition defaultSetProposal (proposal : Proposal) : M (option Error) :=
  cs <- get ;;
  match Proposal_ (RS cs) with
  | Some _ => ret None                     (* Already have one *)
  | None =>
      (* Does not apply *)
      if negb (prop_Height proposal =? Height (RS cs))
         || negb (prop_Round proposal =? Round (RS cs))
      then ret None
      (* We don't care about the proposal if we're already in
         RoundStepCommit. *)
      else if RoundStepCommit <=? Step (RS cs) then ret None
      (* Verify POLRound, which must be -1 or between 0 and proposal.Round
         exclusive. *)
      else if negb (prop_POLRound proposal =? -1)
              && ((prop_POLRound proposal <? 0)
                  || (prop_Round proposal <=? prop_POLRound proposal))
      then ret (Some ErrInvalidProposalPOLRound)
      (* Verify signature *)
      else if negb (PubKey_VerifyBytes
                      (val_PubKey
                         (ValidatorSet_GetProposer (world cs)
                            (Validators (RS cs))))
                      (SignBytes (state_ChainID (world cs)) proposal)
                      (prop_Signature proposal))
      then ret (Some ErrInvalidProposalSignature)
      else
        let '(w1, ps) :=
          NewPartSetFromHeader (world cs) (prop_BlockPartsHeader proposal) in
        modify (set_world w1) ;;;
        modifyRS (fun rs =>
          rs_set_ProposalBlockParts (Some ps)
            (rs_set_Proposal (Some proposal) rs)) ;;;
        ret None
  end.

Definition addProposalBlockPart (height : Z) (part : Part) (verify : bool)
    : M (bool * option Error) :=
  cs <- get ;;
  (* Blocks might be reused, so round mismatch is OK *)
  if negb (Height (RS cs) =? height) then ret (false, None)
  else
    match ProposalBlockParts (RS cs) with
    | None => ret (false, None)            (* not expecting a block part *)
    | Some ps =>
        let '(w1, added, err) := PartSet_AddPart (world cs) ps part verify in
        modify (set_world w1) ;;;
        match err with
        | Some e => ret (added, Some e)
        | None =>
            if added && PartSet_IsComplete w1 ps then
              (* Added and completed! *)
              let '(w2, block, err) := Block_FromBytes w1 ps in
              modify (set_world w2) ;;;
              modifyRS (rs_set_ProposalBlock block) ;;;
              cs <- get ;;
              (if (Step (RS cs) =? RoundStepPropose) && isProposalComplete cs
               then enterPrevote height (Round (RS cs))
               else if Step (RS cs) =? RoundStepCommit
               then tryFinalizeCommit height
               else ret tt) ;;;
              ret (true, err)
            else ret (added, None)
        end
    end.

(** ** Receiving votes *)

(** The first step of [addVote] on a prevote: unlock if the prevotes of
    the vote's round are a valid POL,
    [lockRound < POLRound <= unlockOrChangeLockRound]. *)
Definition addVote_unlock (vote : Vote) (prevotes : option VoteSet) : M unit :=
  cs <- get ;;
  match LockedBlock (RS cs) with
  | Some _ =>
      if (LockedRound (RS cs) <? to_int (vote_Round vote))
         && (to_int (vote_Round vote) <=? Round (RS cs))
      then
        let '(blockID, ok) := VoteSet_TwoThirdsMajority (world cs) prevotes in
        if ok && negb (Block_HashesTo (world cs) (LockedBlock (RS cs))
                         (bid_Hash blockID))
        then unlock ;;; fireRS EventUnlock
        else ret tt
      else ret tt
  | None => ret tt
  end.

(** [addVote], for a prevote that was added. *)
Definition addVote_prevote (height : Z) (vote : Vote) : M unit :=
  cs <- get ;;
  let vround := to_int (vote_Round vote) in
  let prevotes := HeightVoteSet_Prevotes (world cs) (Votes (RS cs)) vround in
  addVote_unlock vote prevotes ;;;
  cs <- get ;;
  if (Round (RS cs) <=? vround)
     && VoteSet_HasTwoThirdsAny (world cs) prevotes
  then
    (* Round-skip over to PrevoteWait or goto Precommit. *)
    enterNewRound height vround ;;;
    cs <- get ;;
    if VoteSet_HasTwoThirdsMajority (world cs) prevotes
    then enterPrecommit height vround
    else enterPrevote height vround ;;; enterPrevoteWait height vround
  else
    match Proposal_ (RS cs) with
    | Some proposal =>
        if (0 <=? prop_POLRound proposal)
           && (prop_POLRound proposal =? vround)
        then
          (* If the proposal is now complete, enter prevote of cs.Round. *)
          if isProposalComplete cs then enterPrevote height (Round (RS cs))
          else ret tt
        else ret tt
    | None => ret tt
    end.

(** [addVote], for a precommit that was added. *)
Definition addVote_precommit (height : Z) (vote : Vote) : M unit :=
  cs <- get ;;
  let vround := to_int (vote_Round vote) in
  let precommits :=
    HeightVoteSet_Precommits (world cs) (Votes (RS cs)) vround in
  let '(blockID, ok) := VoteSet_TwoThirdsMajority (world cs) precommits in
  if ok then
    if len0 (bid_Hash blockID) then
      enterNewRound height (to_int (to_uint64 (vote_Round vote + 1)))
    else
      enterNewRound height vround ;;;
      enterPrecommit height vround ;;;
      enterCommit height vround ;;;
      cs <- get ;;
      if SkipTimeoutCommit (timeoutParams cs)
         && VoteSet_HasAll (world cs) precommits
      then
        (* if we have all the votes now, go straight to new round
           (skip timeout commit) *)
        enterNewRound (Height (RS cs)) 0
      else ret tt
  else if (Round (RS cs) <=? vround)
          && VoteSet_HasTwoThirdsAny (world cs) precommits
  then
    enterNewRound height vround ;;;
    enterPrecommit height vround ;;;
    enterPrecommitWait height vround
  else ret tt.

Definition addVote (vote : Vote) (peerKey : string) : M (bool * option Error) :=
  cs <- get ;;
  (* A precommit for the previous height, just ignore *)
  if vote_Height vote <? Height (RS cs) then ret (false, None)
  (* A prevote/precommit for this height? *)
  else if vote_Height vote =? Height (RS cs) then
    let height := Height (RS cs) in
    let '(w1, added, err) :=
      HeightVoteSet_AddVote (world cs) (Votes (RS cs)) vote peerKey in
    modify (set_world w1) ;;;
    (if added then
       fire (EventVote vote) ;;;
       match vote_Type vote with
       | VoteTypePrevote => addVote_prevote height vote
       | VoteTypePrecommit => addVote_precommit height vote
       | VoteTypeOther _ => panic "Unexpected vote type"
       end
     else ret tt) ;;;
    (* Either duplicate, or error upon cs.Votes.AddByIndex() *)
    ret (added, err)
  else
    (* Height mismatch, bad peer? *)
    ret (false, Some ErrVoteHeightMismatch).

(** Attempt to add the vote. *)
Definition tryAddVote (vote : Vote) (peerKey : string) : M (option Error) :=
  r <- addVote vote peerKey ;;
  match snd r with
  | Some err =>
      (* If the vote height is off, we'll just ignore it; if it's a
         conflicting sig, pass it on; if it's otherwise invalid, punish
         peer. *)
      if isErrVoteHeightMismatch err then ret (Some err)
      else if isErrVoteConflictingVotes err then ret (Some err)
      else ret (Some ErrAddingVote)
  | None => ret None
  end.

(** ** The receive routine *)

(** State transitions on complete-proposal, 2/3-any, 2/3-one.  The error
    is only logged. *)
Definition handleMsg (mi : msgInfo) : M unit :=
  match mi_Msg mi with
  | ProposalMessage proposal =>
      defaultSetProposal proposal ;;; ret tt
  | BlockPartMessage height round part =>
      addProposalBlockPart height part
        (negb (String.eqb (mi_PeerKey mi) "")) ;;; ret tt
  | VoteMessage vote =>
      tryAddVote vote (mi_PeerKey mi) ;;; ret tt
  | OtherMessage => ret tt
  end.

(** [rs] is the copy of [cs.RoundState] that [receiveRoutine] takes
    before the call. *)
Definition handleTimeout (ti : timeoutInfo) (rs : RoundState) : M unit :=
  (* timeouts must be for current height, round, step *)
  if negb (ti_Height ti =? Height rs) || (ti_Round ti <? Round rs)
     || ((ti_Round ti =? Round rs) && (ti_Step ti <? Step rs))
  then ret tt
  else
    (* the timeout will now cause a state transition *)
    if ti_Step ti =? RoundStepNewHeight then
      enterNewRound (ti_Height ti) 0
    else if ti_Step ti =? RoundStepWaitForMinerBlock then
      fireRS EventTimeoutPropose ;;;
      enterPropose (ti_Height ti) (ti_Round ti)
    else if ti_Step ti =? RoundStepPropose then
      fireRS EventTimeoutPropose ;;;
      enterPrevote (ti_Height ti) (ti_Round ti)
    else if ti_Step ti =? RoundStepPrevoteWait then
      fireRS EventTimeoutWait ;;;
      enterPrecommit (ti_Height ti) (ti_Round ti)
    else if ti_Step ti =? RoundStepPrecommitWait then
      fireRS EventTimeoutWait ;;;
      enterNewRound (ti_Height ti) (to_int (ti_Round ti + 1))
    else panic "Invalid timeout step".

(** What one turn of the [select] in [receiveRoutine] may receive. *)
Inductive Received : Type :=
| FromPeer (mi : msgInfo)
| FromInternal
| Tock (ti : timeoutInfo).

(** One turn of [receiveRoutine]. *)
Definition receive (r : Received) : M unit :=
  match r with
  | FromPeer mi => handleMsg mi
  | FromInternal =>
      cs <- get ;;
      match internalMsgQueue cs with
      | mi :: q => modify (set_internalMsgQueue q) ;;; handleMsg mi
      | [] => ret tt
      end
  | Tock ti => cs <- get ;; handleTimeout ti (RS cs)
  end.

End Model.

Arguments ConsensusState {H}.
Arguments RoundState {H}.
Arguments msgInfo {H}.
Arguments Event {H}.
Arguments ConsensusMessage {H}.
Arguments Received {H}.
Arguments M {H} A.

(** [CompareHRS]: the lexicographic order on (height, round, step). *)
Definition CompareHRS (h1 r1 : Z) (s1 : RoundStepType) (h2 r2 : Z)
    (s2 : RoundStepType) : Z :=
  if h1 <? h2 then -1
  else if h1 >? h2 then 1
  else if r1 <? r2 then -1
  else if r1 >? r2 then 1
  else if s1 <? s2 then -1
  else if s1 >? s2 then 1
  else 0.

(** ** A small instance of the absent packages

    It is used to run the driver on concrete states.  A block is its
    hash, a part set is its header, a validator set is the list of its
    addresses with the proposer first, a private validator is its
    address, and a vote set is the three answers the driver asks for. *)
Module Sim.

Record SimVoteSet : Type := mkSimVoteSet {
  sv_maj23 : option BlockID;
  sv_has23Any : bool;
  sv_hasAll : bool
}.

(** The vote sets of a height: for each round, its prevotes and its
    precommits. *)
Definition SimHeightVoteSet : Type := list (Z * (SimVoteSet * SimVoteSet)).

(** The store only decides how the next vote is received. *)
Record SimWorld : Type := mkSimWorld {
  sw_voteAdded : bool;
  sw_voteErr : option Error
}.

#[local] Instance simTypes : Types := {|
  World := SimWorld;
  TdmBlock := bytes;
  PartSet := PartSetHeader;
  Part := unit;
  ValidatorSet := list bytes;
  HeightVoteSet := SimHeightVoteSet;
  VoteSet := SimVoteSet;
  PrivValidator := bytes;
  PubKey := unit;
  EthBlock := unit;
  Tx := unit;
  TX3ProofData := unit;
  Epoch := unit;
  Commit := unit;
  FunctionType := unit;
  WithdrawArgs := unit
|}.

Definition header_eqb (a b : PartSetHeader) : bool :=
  (psh_Total a =? psh_Total b) && bytes_Equal (psh_Hash a) (psh_Hash b).

Fixpoint lookupRound (hvs : SimHeightVoteSet) (r : Z)
    : option (SimVoteSet * SimVoteSet) :=
  match hvs with
  | [] => None
  | (r', vs) :: rest => if r' =? r then Some vs else lookupRound rest r
  end.

(** The highest round whose prevotes have a +2/3 majority, or -1. *)
Fixpoint polInfo (hvs : SimHeightVoteSet) : Z * BlockID :=
  match hvs with
  | [] => (-1, mkBlockID [] PartSetHeader_zero)
  | (r, (pv, _)) :: rest =>
      let best := polInfo rest in
      match sv_maj23 pv with
      | Some b => if fst best <? r then (r, b) else best
      | None => best
      end
  end.

Definition twoThirdsMajority (vs : option SimVoteSet) : BlockID * bool :=
  match vs with
  | Some v =>
      match sv_maj23 v with
      | Some b => (b, true)
      | None => (mkBlockID [] PartSetHeader_zero, false)
      end
  | None => (mkBlockID [] PartSetHeader_zero, false)
  end.

Fixpoint indexOf (l : list bytes) (a : bytes) (i : Z) : Z :=
  match l with
  | [] => -1
  | x :: rest => if bytes_Equal x a then i else indexOf rest a (i + 1)
  end.

#[local] Instance simExternals : Externals := {|
  time_Now := fun _ => 0;
  Block_Hash := fun _ b => b;
  Block_HashesTo := fun _ ob h =>
    match ob with
    | Some b => negb (len0 h) && bytes_Equal b h
    | None => false
    end;
  Block_ValidateBasic := fun _ _ => None;
  Block_FromBytes := fun w ps => (w, Some (psh_Hash ps), None);
  Block_Height := fun _ _ => 1;
  Block_ChainID := fun _ _ => "pchain"%string;
  Block_EpochBytes := fun _ _ => [];
  Block_Transactions := fun _ _ => [];
  Block_TX3ProofData := fun _ _ => [];
  Block_setSeenCommit := fun w _ _ => w;
  Block_setNeedToSave := fun w _ => w;
  Block_setNeedToBroadcast := fun w _ => w;
  MakeBlock := fun w _ _ _ _ _ => (w, None, None);
  PartSet_Header := fun _ ops =>
    match ops with Some h => h | None => PartSetHeader_zero end;
  PartSet_HasHeader := fun _ ops h =>
    match ops with Some h' => header_eqb h' h | None => false end;
  PartSet_Total := fun _ ops =>
    match ops with Some h => psh_Total h | None => 0 end;
  PartSet_GetPart := fun _ _ _ => tt;
  PartSet_AddPart := fun w _ _ _ => (w, true, None);
  PartSet_IsComplete := fun _ _ => true;
  NewPartSetFromHeader := fun w h => (w, h);
  ValidatorSet_Copy := fun w v => (w, v);
  ValidatorSet_IncrementAccum := fun w _ _ => w;
  ValidatorSet_GetProposer := fun _ v => @mkValidator simTypes (hd [] v) tt;
  ValidatorSet_HasAddress := fun _ v a => existsb (bytes_Equal a) v;
  ValidatorSet_GetByAddress := fun _ v a => indexOf v a 0;
  HeightVoteSet_SetRound := fun w _ _ => w;
  HeightVoteSet_AddVote := fun w _ _ _ => (w, sw_voteAdded w, sw_voteErr w);
  HeightVoteSet_Prevotes := fun _ hvs r => option_map fst (lookupRound hvs r);
  HeightVoteSet_Precommits := fun _ hvs r => option_map snd (lookupRound hvs r);
  HeightVoteSet_POLInfo := fun _ hvs => polInfo hvs;
  VoteSet_TwoThirdsMajority := fun _ vs => twoThirdsMajority vs;
  VoteSet_HasTwoThirdsMajority := fun _ vs => snd (twoThirdsMajority vs);
  VoteSet_HasTwoThirdsAny := fun _ vs =>
    match vs with Some v => sv_has23Any v | None => false end;
  VoteSet_HasAll := fun _ vs =>
    match vs with Some v => sv_hasAll v | None => false end;
  VoteSet_MakeCommit := fun _ _ => tt;
  PrivValidator_GetAddress := fun _ pv => pv;
  PrivValidator_SignVote := fun w pv _ v =>
    (w, mkVote (vote_ValidatorAddress v) (vote_ValidatorIndex v)
          (vote_Height v) (vote_Round v) (vote_Type v) (vote_BlockID v)
          (Some pv), None);
  PrivValidator_SignProposal := fun w pv _ p =>
    (w, mkProposal (prop_Height p) (prop_Round p) (prop_BlockPartsHeader p)
          (prop_POLRound p) (prop_POLBlockID p) (Some pv), None);
  SignBytes := fun _ _ => [];
  PubKey_VerifyBytes := fun _ _ sig =>
    match sig with Some _ => true | None => false end;
  state_ChainID := fun _ => "pchain"%string;
  state_Height := fun _ => 0;
  state_NeedToSave := fun _ => false;
  state_setNeedToSave := fun w _ => w;
  state_NeedToBroadcast := fun _ => false;
  state_setNeedToBroadcast := fun w _ => w;
  state_Epoch_Bytes := fun _ => [];
  state_ValidatorsHash := fun _ => [];
  Epoch_StartBlock := fun _ => 0;
  Epoch_Number := fun _ => 0;
  Epoch_Bytes := fun _ => [];
  Epoch_ShouldProposeNextEpoch := fun _ _ => false;
  Epoch_ProposeNextEpoch_Bytes := fun w _ _ => (w, []);
  Epoch_ValidateNextEpoch := fun _ _ _ _ => None;
  Epoch_FromBytes := fun _ => None;
  Epoch_Number_of := fun _ _ => 0;
  backend_Commit := fun w _ => (w, None);
  ChainReader_CurrentBlockNumber := fun _ => 0;
  ChainReader_CurrentBlockTime := fun _ => 0;
  ChainReader_GetBlockByNumber := fun _ _ => None;
  ChainReader_isChainValidator := fun _ => false;
  ChainValidator_ValidateBlock := fun w _ => (w, None);
  EthBlock_Transactions := fun _ => [];
  Tx_To := fun _ => None;
  Tx_Data := fun _ => [];
  IsPChainContractAddr := fun _ => false;
  FunctionTypeFromId := fun _ => (tt, None);
  isWithdrawFromMainChain := fun _ => false;
  isWithdrawFromChildChain := fun _ => false;
  UnpackWithdrawFromMainChainArgs := fun _ => (tt, None);
  cch_GetTX3ProofData := fun _ _ => None;
  cch_ValidateTX3ProofData := fun _ _ => None;
  cch_ValidateTX4WithInMemTX3ProofData := fun _ _ _ => None;
  saveBlockToMainChain := fun w _ _ => Ok w;
  broadcastTX3ProofDataToMainChain := fun w _ => Ok w
|}.

(** Two blocks and their part-set headers, three validators. *)
Definition blockA : bytes := ["a"%byte].
Definition blockB : bytes := ["b"%byte].
Definition headerA : PartSetHeader := mkPartSetHeader 1 ["a"%byte].
Definition headerB : PartSetHeader := mkPartSetHeader 1 ["b"%byte].
Definition idA : BlockID := mkBlockID blockA headerA.
Definition idB : BlockID := mkBlockID blockB headerB.
Definition idNil : BlockID := mkBlockID [] PartSetHeader_zero.
Definition val1 : bytes := ["1"%byte].
Definition val2 : bytes := ["2"%byte].
Definition val3 : bytes := ["3"%byte].
Definition vals : list bytes := [val1; val2; val3].

Definition noVotes : SimVoteSet := mkSimVoteSet None false false.
Definition polka (b : BlockID) : SimVoteSet := mkSimVoteSet (Some b) true false.
Definition allFor (b : BlockID) : SimVoteSet := mkSimVoteSet (Some b) true true.

Definition params : TimeoutParams :=
  mkTimeoutParams 3000 3000 500 1000 500 1000 500 1000 true.

Definition quiet : SimWorld := mkSimWorld true None.

(** A state of validator [pv] at [(height, round, step)], with the given
    votes, proposal block and lock, and nothing sent out yet. *)
Definition simState (pv : option bytes) (height round : Z)
    (step : RoundStepType) (votes : SimHeightVoteSet)
    (proposal : option Proposal) (pb : option bytes)
    (pbp : option PartSetHeader) (lockedRound : Z) (lb : option bytes)
    (lbp : option PartSetHeader) : ConsensusState :=
  mkConsensusState quiet pv
    (mkRoundState height round step 0 0 vals proposal pb pbp lockedRound lb
       lbp votes 0 None)
    [] [] [] params true [] 0 None.

(** Validator 1 at height 1, round 0, step Prevote; the prevotes of round
    0 are a polka for block A, which is the proposal block; no lock. *)
Definition csPolkaA : ConsensusState :=
  simState (Some val1) 1 0 RoundStepPrevote [(0, (polka idA, noVotes))]
    None (Some blockA) (Some headerA) 0 None None.

(** The same node locked on block A in round 0, now in round 1. *)
Definition csLockedA : ConsensusState :=
  simState (Some val1) 1 1 RoundStepPropose
    [(0, (polka idA, noVotes)); (1, (polka idB, noVotes))]
    None (Some blockB) (Some headerB) 0 (Some blockA) (Some headerA).

(** Height 1, round 2, step Prevote, with +2/3 precommits for block A in
    round 0. *)
Definition csLateCommit : ConsensusState :=
  simState (Some val1) 1 2 RoundStepPrevote [(0, (noVotes, polka idA))]
    None None None 0 None None.

(** Height 1, round 0, step Precommit, locked on block A, with the
    precommits of all validators for block A once the next vote is in;
    [SkipTimeoutCommit] is set. *)
Definition csAllPrecommits : ConsensusState :=
  simState (Some val1) 1 0 RoundStepPrecommit [(0, (polka idA, allFor idA))]
    None (Some blockA) (Some headerA) 0 (Some blockA) (Some headerA).

(** A node that is not a validator, in the state of [csPolkaA]. *)
Definition csObserver : ConsensusState :=
  simState (Some ["9"%byte]) 1 0 RoundStepPrevote [(0, (polka idA, noVotes))]
    None (Some blockA) (Some headerA) 0 None None.

Definition precommitA (height : Z) : Vote :=
  mkVote val2 1 height 0 VoteTypePrecommit idA (Some val2).

Definition prevoteB : Vote :=
  mkVote val2 1 1 1 VoteTypePrevote idB (Some val2).

Definition proposalA : Proposal :=
  mkProposal 1 0 headerA (-1) idNil (Some val1).

(** The same store and blocks, with transactions: every transaction is
    a TX4, a block holds one transaction for each byte of its hash, and
    carries one proof more than it has transactions. *)
Definition simExternalsTx : Externals := {|
  time_Now := fun _ => 0;
  Block_Hash := fun _ b => b;
  Block_HashesTo := fun _ ob h =>
    match ob with
    | Some b => negb (len0 h) && bytes_Equal b h
    | None => false
    end;
  Block_ValidateBasic := fun _ _ => None;
  Block_FromBytes := fun w ps => (w, Some (psh_Hash ps), None);
  Block_Height := fun _ _ => 1;
  Block_ChainID := fun _ _ => "pchain"%string;
  Block_EpochBytes := fun _ _ => [];
  Block_Transactions := fun _ b => map (fun _ => tt) b;
  Block_TX3ProofData := fun _ b => tt :: map (fun _ => tt) b;
  Block_setSeenCommit := fun w _ _ => w;
  Block_setNeedToSave := fun w _ => w;
  Block_setNeedToBroadcast := fun w _ => w;
  MakeBlock := fun w _ _ _ _ _ => (w, None, None);
  PartSet_Header := fun _ ops =>
    match ops with Some h => h | None => PartSetHeader_zero end;
  PartSet_HasHeader := fun _ ops h =>
    match ops with Some h' => header_eqb h' h | None => false end;
  PartSet_Total := fun _ ops =>
    match ops with Some h => psh_Total h | None => 0 end;
  PartSet_GetPart := fun _ _ _ => tt;
  PartSet_AddPart := fun w _ _ _ => (w, true, None);
  PartSet_IsComplete := fun _ _ => true;
  NewPartSetFromHeader := fun w h => (w, h);
  ValidatorSet_Copy := fun w v => (w, v);
  ValidatorSet_IncrementAccum := fun w _ _ => w;
  ValidatorSet_GetProposer := fun _ v => @mkValidator simTypes (hd [] v) tt;
  ValidatorSet_HasAddress := fun _ v a => existsb (bytes_Equal a) v;
  ValidatorSet_GetByAddress := fun _ v a => indexOf v a 0;
  HeightVoteSet_SetRound := fun w _ _ => w;
  HeightVoteSet_AddVote := fun w _ _ _ => (w, sw_voteAdded w, sw_voteErr w);
  HeightVoteSet_Prevotes := fun _ hvs r => option_map fst (lookupRound hvs r);
  HeightVoteSet_Precommits := fun _ hvs r => option_map snd (lookupRound hvs r);
  HeightVoteSet_POLInfo := fun _ hvs => polInfo hvs;
  VoteSet_TwoThirdsMajority := fun _ vs => twoThirdsMajority vs;
  VoteSet_HasTwoThirdsMajority := fun _ vs => snd (twoThirdsMajority vs);
  VoteSet_HasTwoThirdsAny := fun _ vs =>
    match vs with Some v => sv_has23Any v | None => false end;
  VoteSet_HasAll := fun _ vs =>
    match vs with Some v => sv_hasAll v | None => false end;
  VoteSet_MakeCommit := fun _ _ => tt;
  PrivValidator_GetAddress := fun _ pv => pv;
  PrivValidator_SignVote := fun w pv _ v =>
    (w, mkVote (vote_ValidatorAddress v) (vote_ValidatorIndex v)
          (vote_Height v) (vote_Round v) (vote_Type v) (vote_BlockID v)
          (Some pv), None);
  PrivValidator_SignProposal := fun w pv _ p =>
    (w, mkProposal (prop_Height p) (prop_Round p) (prop_BlockPartsHeader p)
          (prop_POLRound p) (prop_POLBlockID p) (Some pv), None);
  SignBytes := fun _ _ => [];
  PubKey_VerifyBytes := fun _ _ sig =>
    match sig with Some _ => true | None => false end;
  state_ChainID := fun _ => "pchain"%string;
  state_Height := fun _ => 0;
  state_NeedToSave := fun _ => false;
  state_setNeedToSave := fun w _ => w;
  state_NeedToBroadcast := fun _ => false;
  state_setNeedToBroadcast := fun w _ => w;
  state_Epoch_Bytes := fun _ => [];
  state_ValidatorsHash := fun _ => [];
  Epoch_StartBlock := fun _ => 0;
  Epoch_Number := fun _ => 0;
  Epoch_Bytes := fun _ => [];
  Epoch_ShouldProposeNextEpoch := fun _ _ => false;
  Epoch_ProposeNextEpoch_Bytes := fun w _ _ => (w, []);
  Epoch_ValidateNextEpoch := fun _ _ _ _ => None;
  Epoch_FromBytes := fun _ => None;
  Epoch_Number_of := fun _ _ => 0;
  backend_Commit := fun w _ => (w, None);
  ChainReader_CurrentBlockNumber := fun _ => 0;
  ChainReader_CurrentBlockTime := fun _ => 0;
  ChainReader_GetBlockByNumber := fun _ _ => None;
  ChainReader_isChainValidator := fun _ => false;
  ChainValidator_ValidateBlock := fun w _ => (w, None);
  EthBlock_Transactions := fun _ => [];
  Tx_To := fun _ => None;
  Tx_Data := fun _ => [x00; x00; x00; x00]%byte;
  IsPChainContractAddr := fun _ => true;
  FunctionTypeFromId := fun _ => (tt, None);
  isWithdrawFromMainChain := fun _ => true;
  isWithdrawFromChildChain := fun _ => false;
  UnpackWithdrawFromMainChainArgs := fun _ => (tt, None);
  cch_GetTX3ProofData := fun _ _ => Some tt;
  cch_ValidateTX3ProofData := fun _ _ => None;
  cch_ValidateTX4WithInMemTX3ProofData := fun _ _ _ => None;
  saveBlockToMainChain := fun w _ _ => Ok w;
  broadcastTX3ProofDataToMainChain := fun w _ => Ok w
|}.

Definition blockAB : bytes := ["a"%byte; "b"%byte].

(** A node with no private validator, at the start of height 1. *)
Definition csNoValidator : ConsensusState :=
  simState None 1 0 RoundStepNewHeight [] None None None 0 None None.

(** The vote sets answer that the next vote was not added. *)
Definition deaf : SimWorld := mkSimWorld false None.

(** Height 1, round 0, step Precommit: locked on block A, with block B
    as the proposal block, and +2/3 precommits for block A. *)
Definition csLockedACommit : ConsensusState :=
  simState (Some val1) 1 0 RoundStepPrecommit [(0, (polka idA, polka idA))]
    None (Some blockB) (Some headerB) 0 (Some blockA) (Some headerA).

(** Height 1, round 0, step Commit, with block A complete and +2/3
    precommits for it. *)
Definition csCommitA : ConsensusState :=
  simState (Some val1) 1 0 RoundStepCommit [(0, (polka idA, polka idA))]
    None (Some blockA) (Some headerA) 0 (Some blockA) (Some headerA).

(** The timeout of the Propose step of round 1. *)
Definition tockPropose : timeoutInfo := mkTimeoutInfo 0 1 1 RoundStepPropose.

(** The state of [csPolkaA], with a block from the miner at hand. *)
Definition csMined : ConsensusState :=
  set_blockFromMiner (Some (tt : EthBlock)) csPolkaA.

(** The precommit of validator 1 for block A in round 0 of height 1, as
    its signer signs it; and its prevote. *)
Definition precommitA1 : Vote :=
  mkVote val1 0 1 0 VoteTypePrecommit idA (Some val1).


End Sim.

(** ** The transitions, by name *)

Inductive Transition : Type :=
| NewRound | Propose | Prevote | PrevoteWait | Precommit | PrecommitWait
| CommitT.

(** The step a transition leads to. *)
Definition targetStep (t : Transition) : RoundStepType :=
  match t with
  | NewRound => RoundStepNewRound
  | Propose => RoundStepPropose
  | Prevote => RoundStepPrevote
  | PrevoteWait => RoundStepPrevoteWait
  | Precommit => RoundStepPrecommit
  | PrecommitWait => RoundStepPrecommitWait
  | CommitT => RoundStepCommit
  end.

Definition enter `{X : Externals} (t : Transition) (height round : Z) : M unit :=
  match t with
  | NewRound => enterNewRound height round
  | Propose => enterPropose height round
  | Prevote => enterPrevote height round
  | PrevoteWait => enterPrevoteWait height round
  | Precommit => enterPrecommit height round
  | PrecommitWait => enterPrecommitWait height round
  | CommitT => enterCommit height round
  end.

(** The round a transition leads to: the round it is called with, but
    [enterCommit] keeps the round of the state, its argument only names
    the precommits to commit. *)
Definition targetRound `{Types} (t : Transition) (round : Z)
    (rs : RoundState) : Z :=
  match t with
  | CommitT => Round rs
  | _ => round
  end.


(** A timeout is stale for a round state. *)
Definition stale `{Types} (ti : timeoutInfo) (rs : RoundState) : Prop :=
  ti_Height ti <> Height rs \/ ti_Round ti < Round rs
  \/ (ti_Round ti = Round rs /\ ti_Step ti < Step rs).

(** The three fields of the lock. *)
Definition lockOf `{Types} (rs : RoundState)
    : Z * option TdmBlock * option PartSet :=
  (LockedRound rs, LockedBlock rs, LockedBlockParts rs).

Definition unlocked `{Types} (rs : RoundState) : Prop :=
  LockedRound rs = 0 /\ LockedBlock rs = None /\ LockedBlockParts rs = None.

(** * The vocabulary of the properties *)

Unset Implicit Arguments.

Section Vocabulary.

Context `{X : Externals}.

Notation "x <- m ;; k" := (bind m (fun x => k))
  (at level 61, m at next level, right associativity).
Notation "m ;;; k" := (bind m (fun _ => k))
  (at level 61, right associativity).

(** A computation follows a relation on states when every run that
    returns relates the state before to the state after. *)
Definition followsAt {A} (R : ConsensusState -> ConsensusState -> Prop)
    (m : M A) (cs : ConsensusState) : Prop :=
  forall a cs', m cs = Ok (a, cs') -> R cs cs'.

(** The round state and the private validator are as before. *)
Definition sameRS (a b : ConsensusState) : Prop :=
  RS b = RS a /\ privValidator b = privValidator a.

(** The proposal is not for the state, or comes too late. *)
Definition proposalIgnored (p : Proposal) (rs : RoundState) : Prop :=
  Proposal_ rs <> None \/ prop_Height p <> Height rs
  \/ prop_Round p <> Round rs \/ RoundStepCommit <= Step rs.

(** [POLRound] is -1 or in [[0, proposal.Round)]. *)
Definition validPOLRound (p : Proposal) : Prop :=
  prop_POLRound p = -1 \/ (0 <= prop_POLRound p < prop_Round p).

(** The signature verifies against the public key of the proposer. *)
Definition proposalSigned (p : Proposal) (cs : ConsensusState) : Prop :=
  PubKey_VerifyBytes
    (val_PubKey (ValidatorSet_GetProposer (world cs) (Validators (RS cs))))
    (SignBytes (state_ChainID (world cs)) p) (prop_Signature p) = true.

(** The state after the proposal is stored: the proposal, and a fresh
    part set for its parts header. *)
Definition proposalStored (p : Proposal) (cs : ConsensusState)
    : ConsensusState :=
  let wps := NewPartSetFromHeader (world cs) (prop_BlockPartsHeader p) in
  set_RS
    (rs_set_ProposalBlockParts (Some (snd wps))
       (rs_set_Proposal (Some p) (RS cs)))
    (set_world (fst wps) cs).

(** Height, round and lock are as before. *)
Definition sameHRL (a b : ConsensusState) : Prop :=
  Height (RS b) = Height (RS a) /\ Round (RS b) = Round (RS a)
  /\ lockOf (RS b) = lockOf (RS a).

(** Inside a transition to round [r], before the lock is touched: the
    round stays at or below [r], height and lock are as before. *)
Definition withinRound (r : Z) (a b : ConsensusState) : Prop :=
  Round (RS a) <= r ->
  Height (RS b) = Height (RS a) /\ lockOf (RS b) = lockOf (RS a)
  /\ Round (RS a) <= Round (RS b) <= r.

(** Between two handlers: the height is the same, the round has not
    gone back, and the lock is as before, or cleared, or was taken in a
    round that is not before the round we started from. *)
Definition advances (a b : ConsensusState) : Prop :=
  Height (RS b) = Height (RS a) /\ Round (RS a) <= Round (RS b)
  /\ (lockOf (RS b) = lockOf (RS a) \/ unlocked (RS b)
      \/ Round (RS a) <= LockedRound (RS b) <= Round (RS b)).

(** Inside [enterPrecommit] for round [r]: height and round are as
    before, and the lock is as before, or cleared, or taken in [r]. *)
Definition lockStep (r : Z) (a b : ConsensusState) : Prop :=
  Height (RS b) = Height (RS a) /\ Round (RS b) = Round (RS a)
  /\ (lockOf (RS b) = lockOf (RS a) \/ unlocked (RS b)
      \/ LockedRound (RS b) = r).

(** What one call of [enterPrecommit] for round [r] does to the lock. *)
Definition lockMove (r : Z) (a b : ConsensusState) : Prop :=
  lockOf (RS b) = lockOf (RS a) \/ unlocked (RS b)
  \/ (LockedRound (RS b) = r /\ Round (RS b) = r).

(** The lock round lies within the rounds entered so far.  It holds
    when a height starts (round 0, lock round 0) and every handler
    keeps it. *)
Definition lockInRound (rs : RoundState) : Prop :=
  0 <= Round rs /\ LockedRound rs <= Round rs.

(** The call passes the guard of [enterPrecommit]. *)
Definition entersPrecommit (height round : Z) (rs : RoundState) : Prop :=
  Height rs = height /\ Round rs <= round
  /\ (Round rs = round -> Step rs < RoundStepPrecommit).

(** The end of [enterPrecommit]: its deferred function. *)
Definition donePrecommit (round : Z) : M unit :=
  updateRoundStep round RoundStepPrecommit ;;; newStep.

(** No polka: precommit nil. *)
Definition precommit_noPolka (round : Z) : M unit :=
  precommitNil ;;; donePrecommit round.

(** Polka for nil, not locked: precommit nil. *)
Definition precommit_polkaNil (round : Z) : M unit :=
  fireRS EventPolka ;;; precommitNil ;;; donePrecommit round.

(** Polka for nil, locked: unlock, fire Unlock, precommit nil. *)
Definition precommit_polkaNil_unlock (round : Z) : M unit :=
  fireRS EventPolka ;;; unlock ;;; fireRS EventUnlock ;;; precommitNil ;;;
  donePrecommit round.

(** Polka for the locked block: move the lock round, fire Relock,
    precommit the block. *)
Definition precommit_relock (round : Z) (blockID : BlockID) : M unit :=
  fireRS EventPolka ;;;
  modifyRS (fun rs =>
    rs_set_Locked round (LockedBlock rs) (LockedBlockParts rs) rs) ;;;
  fireRS EventRelock ;;;
  signAddVote VoteTypePrecommit (bid_Hash blockID) (bid_PartsHeader blockID) ;;;
  donePrecommit round.

(** Polka for the proposal block: lock it, fire Lock, precommit it. *)
Definition precommit_lock (round : Z) (blockID : BlockID) : M unit :=
  fireRS EventPolka ;;;
  modifyRS (fun rs =>
    rs_set_Locked round (ProposalBlock rs) (ProposalBlockParts rs) rs) ;;;
  fireRS EventLock ;;;
  signAddVote VoteTypePrecommit (bid_Hash blockID) (bid_PartsHeader blockID) ;;;
  donePrecommit round.

(** Set up to fetch the block of a polka when the proposal block parts
    have another header. *)
Definition fetchBlock (blockID : BlockID) : M unit :=
  cs <- get ;;
  if negb (PartSet_HasHeader (world cs) (ProposalBlockParts (RS cs))
             (bid_PartsHeader blockID))
  then
    let '(w1, ps) :=
      NewPartSetFromHeader (world cs) (bid_PartsHeader blockID) in
    modify (set_world w1) ;;;
    modifyRS (fun rs =>
      rs_set_ProposalBlockParts (Some ps) (rs_set_ProposalBlock None rs))
  else ret tt.

(** Polka for a block we do not have: unlock, fetch it, fire Unlock,
    precommit nil. *)
Definition precommit_unknown (round : Z) (blockID : BlockID) : M unit :=
  fireRS EventPolka ;;; unlock ;;; fetchBlock blockID ;;;
  fireRS EventUnlock ;;; precommitNil ;;; donePrecommit round.

(** The lock is as before. *)
Definition keepsLock (a b : ConsensusState) : Prop :=
  lockOf (RS b) = lockOf (RS a).

(** The prevotes are a proof-of-lock that unlocks: the node is locked,
    in a round before that of the vote, which is not after the round of
    the state, and the prevotes have a +2/3 majority for something that
    is not the locked block. *)
Definition unlocksOnPOL (vote : Vote) (prevotes : option VoteSet)
    (cs : ConsensusState) : Prop :=
  LockedBlock (RS cs) <> None
  /\ LockedRound (RS cs) < to_int (vote_Round vote) <= Round (RS cs)
  /\ snd (VoteSet_TwoThirdsMajority (world cs) prevotes) = true
  /\ Block_HashesTo (world cs) (LockedBlock (RS cs))
       (bid_Hash (fst (VoteSet_TwoThirdsMajority (world cs) prevotes)))
     = false.






(** The node has no private validator, or its address is not in the
    validator set of the state. *)
Definition outsideValidatorSet (cs : ConsensusState) : Prop :=
  match privValidator cs with
  | None => True
  | Some pv =>
      ValidatorSet_HasAddress (world cs) (Validators (RS cs))
        (PrivValidator_GetAddress (world cs) pv) = false
  end.

(** The same, whatever the store holds. *)
Definition neverInValidatorSet (cs : ConsensusState) : Prop :=
  match privValidator cs with
  | None => True
  | Some pv =>
      forall w,
        ValidatorSet_HasAddress w (Validators (RS cs))
          (PrivValidator_GetAddress w pv) = false
  end.

(** The internal messages sent out so far. *)
Definition sentOut (cs : ConsensusState) : list msgInfo * list msgInfo :=
  (internalMsgQueue cs, spawnedSends cs).

(** Private validator and validator set are as before, and a node that
    is never in the validator set has sent nothing. *)
Definition quietly (a b : ConsensusState) : Prop :=
  privValidator b = privValidator a
  /\ Validators (RS b) = Validators (RS a)
  /\ (neverInValidatorSet a -> sentOut b = sentOut a).

(** ** Casting a vote *)

(** The vote of type [t] for [blockID] that the node makes in state
    [cs], the store being [w]: its own address and index, the height and
    the round of the state, no signature yet. *)
Definition ballot (w : World) (cs : ConsensusState) (pv : PrivValidator)
    (t : VoteType) (blockID : BlockID) : Vote :=
  mkVote (PrivValidator_GetAddress w pv)
    (to_uint64
       (ValidatorSet_GetByAddress w (Validators (RS cs))
          (PrivValidator_GetAddress w pv)))
    (to_uint64 (Height (RS cs))) (to_uint64 (Round (RS cs))) t blockID None.

(** The node is a validator of the set of the state, and its signer
    signs the vote of type [t] for [blockID]: [signed] is the vote as
    signed. *)
Definition signs (w : World) (cs : ConsensusState) (t : VoteType)
    (blockID : BlockID) (signed : Vote) : Prop :=
  exists pv w',
    privValidator cs = Some pv
    /\ ValidatorSet_HasAddress w (Validators (RS cs))
         (PrivValidator_GetAddress w pv) = true
    /\ PrivValidator_SignVote w pv (state_ChainID w)
         (ballot w cs pv t blockID)
       = (w', signed, None).

(** From [a] to [b] exactly one internal message went out, [mi]: at the
    end of the queue when it had room, by a goroutine otherwise. *)
Definition sent (mi : msgInfo) (a b : ConsensusState) : Prop :=
  internalMsgQueue b
  = (if Z.of_nat (List.length (internalMsgQueue a)) <? msgQueueSize
     then internalMsgQueue a ++ [mi] else internalMsgQueue a)
  /\ spawnedSends b
     = (if Z.of_nat (List.length (internalMsgQueue a)) <? msgQueueSize
        then spawnedSends a else spawnedSends a ++ [mi]).

(** The event of a new step (height of [cs], [round], [step]), fired
    when there is an event switch. *)
Definition stepEvents (cs : ConsensusState) (round : Z) (step : RoundStepType)
    : list Event :=
  if evsw cs
  then [EventNewRoundStep
          (mkEventDataRoundState (Height (RS cs)) round
             (RoundStepType_String step))]
  else [].

(** [enterPrecommit] casts the precommit for [blockID]: when the node
    is a validator and its signer signs, with the store [w] at hand,
    the call returns, exactly one message went out, the signed precommit
    for [blockID] with an empty peer key, the events fired are [evs]
    and then the new step, and the state is in [round] at step
    Precommit. *)
Definition castsPrecommit (height round : Z) (cs : ConsensusState)
    (w : World) (blockID : BlockID) (evs : list Event) : Prop :=
  forall signed,
    signs w cs VoteTypePrecommit blockID signed ->
    exists cs',
      enterPrecommit height round cs = Ok (tt, cs')
      /\ sent (mkMsgInfo (VoteMessage signed) "") cs cs'
      /\ fired cs'
         = fired cs ++ evs ++ stepEvents cs round RoundStepPrecommit
      /\ Round (RS cs') = round /\ Step (RS cs') = RoundStepPrecommit.


(** The vote for nil. *)
Definition nilID : BlockID := mkBlockID [] PartSetHeader_zero.

(** The store when [enterPrecommit] has set up to fetch the block of a
    polka. *)
Definition fetchWorld (cs : ConsensusState) (blockID : BlockID) : World :=
  if PartSet_HasHeader (world cs) (ProposalBlockParts (RS cs))
       (bid_PartsHeader blockID)
  then world cs
  else fst (NewPartSetFromHeader (world cs) (bid_PartsHeader blockID)).

(** ** More vocabulary: how the state moves *)

(** Height, round and step are as before. *)
Definition sameHRS (a b : ConsensusState) : Prop :=
  Height (RS b) = Height (RS a) /\ Round (RS b) = Round (RS a)
  /\ Step (RS b) = Step (RS a).

(** The height is the same and (round, step) has not gone back. *)
Definition forward (a b : ConsensusState) : Prop :=
  Height (RS b) = Height (RS a)
  /\ (Round (RS a) < Round (RS b)
      \/ (Round (RS a) = Round (RS b) /\ Step (RS a) <= Step (RS b))).

(** The guards of the transitions, when they let the call through. *)
Definition passesGuard (t : Transition) (height round : Z) (rs : RoundState)
    : Prop :=
  Height rs = height
  /\ match t with
     | NewRound =>
         Round rs < round
         \/ (Round rs = round /\ Step rs = RoundStepNewHeight)
     | CommitT => Step rs < RoundStepCommit
     | _ =>
         Round rs < round \/ (Round rs = round /\ Step rs < targetStep t)
     end.

(** From round [r] on and up to step [hi]: if the state is in round
    [r] at a step not after [hi], it stays in round [r], its step does
    not go back and does not pass [hi]. *)
Definition upTo (r : Z) (hi : RoundStepType) (a b : ConsensusState) : Prop :=
  Round (RS a) = r -> Step (RS a) <= hi ->
  Round (RS b) = r /\ Step (RS a) <= Step (RS b) <= hi.

(** An update of the round state that assigns none of the fields
    [Height], [StartTime], [Votes] and [LastCommit]. *)
Definition fixes (f : RoundState -> RoundState) : Prop :=
  forall rs,
    Height (f rs) = Height rs /\ StartTime (f rs) = StartTime rs
    /\ Votes (f rs) = Votes rs /\ LastCommit (f rs) = LastCommit rs.

(** The fields that no handler assigns: [privValidator],
    [timeoutParams] and [evsw], and in the round state [Height],
    [StartTime], [Votes] and [LastCommit].  For [privValidator], [Votes]
    and [LastCommit] this is about the pointer held in the field: what
    it points to lives in the store, and does change ([Votes.AddVote],
    [Votes.SetRound], the signer). *)
Definition untouched (a b : ConsensusState) : Prop :=
  privValidator b = privValidator a /\ timeoutParams b = timeoutParams a
  /\ evsw b = evsw a /\ Height (RS b) = Height (RS a)
  /\ StartTime (RS b) = StartTime (RS a) /\ Votes (RS b) = Votes (RS a)
  /\ LastCommit (RS b) = LastCommit (RS a).

(** The internal queue stays within its capacity, and the sends handed
    to goroutines are only added to. *)
Definition queueKept (a b : ConsensusState) : Prop :=
  (Z.of_nat (List.length (internalMsgQueue a)) <= msgQueueSize ->
   Z.of_nat (List.length (internalMsgQueue b)) <= msgQueueSize)
  /\ (exists l, spawnedSends b = spawnedSends a ++ l).

(** A TX4: a transaction to the chain contract whose data names the
    withdrawal from the main chain. *)
Definition isTX4 (tx : Tx) : bool :=
  IsPChainContractAddr (Tx_To tx)
  && (4 <=? Z.of_nat (List.length (Tx_Data tx)))
  && match FunctionTypeFromId (firstn 4 (Tx_Data tx)) with
     | (function, None) => isWithdrawFromMainChain function
     | (_, Some _) => false
     end.

(** The proof data validates, by itself and against the transaction. *)
Definition proofChecks (w : World) (p : Tx * TX3ProofData) : Prop :=
  cch_ValidateTX3ProofData w (snd p) = None
  /\ cch_ValidateTX4WithInMemTX3ProofData w (fst p) (snd p) = None.

(** The proposal, its block and its parts are as before. *)
Definition keepsProposal (a b : ConsensusState) : Prop :=
  Proposal_ (RS b) = Proposal_ (RS a)
  /\ ProposalBlock (RS b) = ProposalBlock (RS a)
  /\ ProposalBlockParts (RS b) = ProposalBlockParts (RS a).

(** The timeout parameters and the round are such that no timeout of
    the round overflows: bases and deltas are not negative, and the
    largest of the three timeouts fits [int64] nanoseconds. *)
Definition timeoutsFit (tp : TimeoutParams) (round : Z) : Prop :=
  0 <= round
  /\ 0 <= Propose0 tp /\ 0 <= ProposeDelta tp
  /\ 0 <= Prevote0 tp /\ 0 <= PrevoteDelta tp
  /\ 0 <= Precommit0 tp /\ 0 <= PrecommitDelta tp
  /\ (Propose0 tp + ProposeDelta tp * round) * Millisecond < 2 ^ 63
  /\ (Prevote0 tp + PrevoteDelta tp * round) * Millisecond < 2 ^ 63
  /\ (Precommit0 tp + PrecommitDelta tp * round) * Millisecond < 2 ^ 63.

(** How many internal messages were sent out so far, on the queue or by
    a goroutine. *)
Definition sentCount (cs : ConsensusState) : nat :=
  List.length (internalMsgQueue cs ++ spawnedSends cs).

(** One turn of the loop of [defaultDecideProposal] that sends the
    parts: what was done so far, then the send of part [i]. *)
Definition sendPart (blockParts : option PartSet) (m : M unit) (i : nat)
    : M unit :=
  m ;;;
  cs <- get ;;
  let part := PartSet_GetPart (world cs) blockParts (Z.of_nat i) in
  sendInternalMessage
    (mkMsgInfo (BlockPartMessage (Height (RS cs)) (Round (RS cs)) part) "").

(** The room left on the internal queue. *)
Definition room (cs : ConsensusState) : nat :=
  Z.to_nat (msgQueueSize - Z.of_nat (List.length (internalMsgQueue cs))).

(** The message for part [i] of the part set, at the height and in the
    round of [cs], the store being [w]. *)
Definition partMessage (w : World) (cs : ConsensusState)
    (blockParts : option PartSet) (i : nat) : msgInfo :=
  mkMsgInfo
    (BlockPartMessage (Height (RS cs)) (Round (RS cs))
       (PartSet_GetPart w blockParts (Z.of_nat i))) "".

(** From [a] to [b] exactly the messages [msgs] went out, in this
    order: on the queue as long as it had room, by goroutines after
    that. *)
Definition sentAll (msgs : list msgInfo) (a b : ConsensusState) : Prop :=
  internalMsgQueue b = internalMsgQueue a ++ firstn (room a) msgs
  /\ spawnedSends b = spawnedSends a ++ skipn (room a) msgs.

End Vocabulary.

(** * Properties *)

Section Properties.

Context `{X : Externals}.

Notation "x <- m ;; k" := (bind m (fun x => k))
  (at level 61, m at next level, right associativity).
Notation "m ;;; k" := (bind m (fun _ => k))
  (at level 61, right associativity).

(** ** The monad *)

Lemma bind_Ok {A B} (m : M A) (k : A -> M B) cs b cs2 :
  bind m k cs = Ok (b, cs2) ->
  exists a cs1, m cs = Ok (a, cs1) /\ k a cs1 = Ok (b, cs2).
Proof.
  unfold bind. destruct (m cs) as [[a cs1]|msg]; intros E.
  - exists a, cs1. split; [reflexivity | exact E].
  - discriminate.
Qed.

Lemma bind_run {A B} (m : M A) (k : A -> M B) cs a cs1 :
  m cs = Ok (a, cs1) -> bind m k cs = k a cs1.
Proof. unfold bind. intros ->. reflexivity. Qed.

Lemma followsAt_ret {A} R `{!Reflexive R} (a : A) cs : followsAt R (ret a) cs.
Proof. intros x cs' E. inversion E; subst. reflexivity. Qed.

Lemma followsAt_panic {A} R msg cs : followsAt R (panic msg : M A) cs.
Proof. intros x cs' E. discriminate. Qed.

Lemma followsAt_modify R f cs : R cs (f cs) -> followsAt R (modify f) cs.
Proof. intros Hf x cs' E. inversion E; subst. exact Hf. Qed.

Lemma followsAt_get {A} R (k : ConsensusState -> M A) cs :
  followsAt R (k cs) cs -> followsAt R (bind get k) cs.
Proof. intros Hk x cs' E. exact (Hk x cs' E). Qed.

Lemma followsAt_bind {A B} R `{!Transitive R} (m : M A) (k : A -> M B) cs :
  followsAt R m cs ->
  (forall a cs1, m cs = Ok (a, cs1) -> followsAt R (k a) cs1) ->
  followsAt R (bind m k) cs.
Proof.
  intros Hm Hk b cs2 E. apply bind_Ok in E. destruct E as (a & cs1 & E1 & E2).
  transitivity cs1; [exact (Hm a cs1 E1) | exact (Hk a cs1 E1 b cs2 E2)].
Qed.

Lemma followsAt_use {A} R (m : M A) cs a cs' :
  followsAt R m cs -> m cs = Ok (a, cs') -> R cs cs'.
Proof. intros Hm E. exact (Hm a cs' E). Qed.

Lemma followsAt_weaken {A} (R R' : ConsensusState -> ConsensusState -> Prop)
    (m : M A) cs :
  (forall a b, R a b -> R' a b) -> followsAt R m cs -> followsAt R' m cs.
Proof. intros Sub Hm a cs' E. apply Sub. exact (Hm a cs' E). Qed.

#[local] Instance sameRS_refl : Reflexive sameRS.
Proof. intros a. split; reflexivity. Qed.

#[local] Instance sameRS_trans : Transitive sameRS.
Proof. intros a b c [E1 E2] [E3 E4]. split; congruence. Qed.

(** ** Comparisons *)

Ltac zgoal :=
  repeat match goal with
  | |- context [?a =? ?b] => destruct (Z.eqb_spec a b)
  | |- context [?a <? ?b] => destruct (Z.ltb_spec a b)
  | |- context [?a <=? ?b] => destruct (Z.leb_spec a b)
  | |- context [?a >? ?b] => rewrite (Z.gtb_ltb a b)
  end.

Ltac zbool :=
  repeat match goal with
  | |- context [?a =? ?b] => destruct (Z.eqb_spec a b)
  | |- context [?a <? ?b] => destruct (Z.ltb_spec a b)
  | |- context [?a <=? ?b] => destruct (Z.leb_spec a b)
  | |- context [?a >? ?b] => rewrite (Z.gtb_ltb a b)
  | H : context [?a =? ?b] |- _ => destruct (Z.eqb_spec a b)
  | H : context [?a <? ?b] |- _ => destruct (Z.ltb_spec a b)
  | H : context [?a <=? ?b] |- _ => destruct (Z.leb_spec a b)
  | H : context [?a >? ?b] |- _ => rewrite (Z.gtb_ltb a b) in H
  end.



(** ** The guard of the transitions *)


(** ** Timeouts *)

(** C8.  A timeout for another height, for an earlier round, or for the
    round of the state and an earlier step, is dropped: [handleTimeout]
    returns and the consensus state is as it was.  So a timeout that
    changes anything is one for the height of the state whose (round,
    step) is not behind that of the state. *)
Theorem handleTimeout_ignores_stale :
  forall (ti : timeoutInfo) (cs : ConsensusState),
    (stale ti (RS cs) -> handleTimeout ti (RS cs) cs = Ok (tt, cs))
    /\ (handleTimeout ti (RS cs) cs <> Ok (tt, cs) ->
        ti_Height ti = Height (RS cs)
        /\ (Round (RS cs) < ti_Round ti
            \/ (ti_Round ti = Round (RS cs)
                /\ Step (RS cs) <= ti_Step ti))).
Proof.
  intros ti cs.
  assert (S : stale ti (RS cs) -> handleTimeout ti (RS cs) cs = Ok (tt, cs)).
  { unfold stale, handleTimeout. intros St.
    assert (G : (negb (ti_Height ti =? Height (RS cs))
                 || (ti_Round ti <? Round (RS cs))
                 || ((ti_Round ti =? Round (RS cs))
                     && (ti_Step ti <? Step (RS cs))))%bool = true).
    { zbool; simpl; try reflexivity; lia. }
    rewrite G. reflexivity. }
  split; [exact S|].
  intros Hne.
  destruct (Z.eq_dec (ti_Height ti) (Height (RS cs))) as [Eh|Nh].
  2:{ exfalso. apply Hne, S. left. exact Nh. }
  split; [exact Eh|].
  destruct (Z_lt_ge_dec (ti_Round ti) (Round (RS cs))) as [Lt|Ge].
  { exfalso. apply Hne, S. right. left. exact Lt. }
  destruct (Z.eq_dec (ti_Round ti) (Round (RS cs))) as [Er|Nr].
  2:{ left. lia. }
  right. split; [exact Er|].
  destruct (Z_lt_ge_dec (ti_Step ti) (Step (RS cs))) as [Ls|Gs].
  { exfalso. apply Hne, S. right. right. split; assumption. }
  lia.
Qed.

(** ** Receiving a proposal *)

(** C6.  [defaultSetProposal] ignores a proposal when one is already
    set, when its (height, round) is not that of the state, or when the
    step is Commit or later: no error, nothing stored.  Otherwise the
    error is [ErrInvalidProposalPOLRound] exactly when the POL round is
    neither -1 nor in [[0, round)]; otherwise it is
    [ErrInvalidProposalSignature] exactly when the signature does not
    verify against the proposer; otherwise the proposal is stored and
    the proposal block parts start from its parts header: afterwards
    the proposal of the round state is this proposal and its proposal
    block parts are the fresh part set for the parts header of the
    proposal, while the proposal block, (height, round, step) and the
    lock are as they were, and nothing is sent or fired.  Nothing is
    stored when an error is returned. *)
Theorem defaultSetProposal_outcomes :
  forall (p : Proposal) (cs : ConsensusState),
    (proposalIgnored p (RS cs) -> defaultSetProposal p cs = Ok (None, cs))
    /\ (~ proposalIgnored p (RS cs) ->
        (~ validPOLRound p ->
         defaultSetProposal p cs = Ok (Some ErrInvalidProposalPOLRound, cs))
        /\ (validPOLRound p ->
            (~ proposalSigned p cs ->
             defaultSetProposal p cs
             = Ok (Some ErrInvalidProposalSignature, cs))
            /\ (proposalSigned p cs ->
                defaultSetProposal p cs = Ok (None, proposalStored p cs)
                /\ exists cs',
                     defaultSetProposal p cs = Ok (None, cs')
                     /\ Proposal_ (RS cs') = Some p
                     /\ ProposalBlockParts (RS cs')
                        = Some (snd (NewPartSetFromHeader (world cs)
                                       (prop_BlockPartsHeader p)))
                     /\ world cs'
                        = fst (NewPartSetFromHeader (world cs)
                                 (prop_BlockPartsHeader p))
                     /\ ProposalBlock (RS cs') = ProposalBlock (RS cs)
                     /\ Height (RS cs') = Height (RS cs)
                     /\ Round (RS cs') = Round (RS cs)
                     /\ Step (RS cs') = Step (RS cs)
                     /\ lockOf (RS cs') = lockOf (RS cs)
                     /\ sentOut cs' = sentOut cs
                     /\ fired cs' = fired cs))).
Proof.
  intros p cs.
  unfold proposalIgnored, validPOLRound, proposalSigned, proposalStored,
    defaultSetProposal, bind, get, RoundStepCommit.
  cbv beta iota.
  destruct (Proposal_ (RS cs)) as [q|] eqn:EP.
  { split; [reflexivity|]. intros N. exfalso. apply N. left. discriminate. }
  split.
  - intros [C|[C|[C|C]]]; [congruence | | |]; zgoal; simpl;
      try reflexivity; try lia.
  - intros NI.
    assert (G1 : (negb (prop_Height p =? Height (RS cs))
                  || negb (prop_Round p =? Round (RS cs)))%bool = false).
    { zgoal; simpl; try reflexivity; exfalso; apply NI; tauto. }
    assert (G2 : (9 <=? Step (RS cs)) = false).
    { zgoal; try reflexivity; exfalso; apply NI; tauto. }
    rewrite G1, G2.
    split.
    + intros NV.
      assert (G3 : (negb (prop_POLRound p =? -1)
                    && ((prop_POLRound p <? 0)
                        || (prop_Round p <=? prop_POLRound p)))%bool = true).
      { zgoal; simpl; try reflexivity; exfalso; apply NV; lia. }
      rewrite G3. reflexivity.
    + intros V.
      assert (G3 : (negb (prop_POLRound p =? -1)
                    && ((prop_POLRound p <? 0)
                        || (prop_Round p <=? prop_POLRound p)))%bool = false).
      { zgoal; simpl; try reflexivity; lia. }
      rewrite G3.
      destruct (PubKey_VerifyBytes _ _ _) eqn:EV; simpl.
      * split; [intros N; exfalso; apply N; reflexivity|]. intros _.
        destruct (NewPartSetFromHeader _ _) as [w1 ps].
        split; [reflexivity|]. eexists. split; [reflexivity|].
        repeat split.
      * split; [reflexivity|]. intros C; discriminate.
Qed.

(** ** What leaves the round state alone *)

Ltac fstep :=
  match goal with
  | |- followsAt _ (bind get _) _ => apply followsAt_get
  | |- followsAt _ (bind _ _) _ =>
      apply followsAt_bind; [typeclasses eauto | | intros ? ? ?]
  | |- followsAt _ (ret _) _ => apply followsAt_ret; typeclasses eauto
  | |- followsAt _ (panic _) _ => apply followsAt_panic
  | |- followsAt _ (modify _) _ => apply followsAt_modify
  | |- followsAt _ (if ?b then _ else _) _ => destruct b eqn:?
  | |- followsAt _ (match ?x with _ => _ end) _ => destruct x eqn:?
  end.

Ltac fsteps := repeat fstep.

Lemma fire_sameRS e cs : followsAt sameRS (fire e) cs.
Proof. unfold fire. fsteps. split; reflexivity. Qed.

Lemma fireRS_sameRS ev cs : followsAt sameRS (fireRS ev) cs.
Proof. unfold fireRS. fsteps. apply fire_sameRS. Qed.

Lemma scheduleTimeout_sameRS d h r st cs :
  followsAt sameRS (scheduleTimeout d h r st) cs.
Proof. unfold scheduleTimeout. fsteps. split; reflexivity. Qed.

Lemma sendInternalMessage_sameRS mi cs :
  followsAt sameRS (sendInternalMessage mi) cs.
Proof.
  unfold sendInternalMessage. fsteps.
  destruct (_ <? _); split; reflexivity.
Qed.

Lemma newStep_sameRS cs : followsAt sameRS newStep cs.
Proof.
  unfold newStep. fsteps; try (split; reflexivity). apply fire_sameRS.
Qed.

Lemma set_world_sameRS w cs : sameRS cs (set_world w cs).
Proof. split; reflexivity. Qed.

Lemma signVote_sameRS t h hd cs : followsAt sameRS (signVote t h hd) cs.
Proof. unfold signVote. fsteps. apply set_world_sameRS. Qed.

Lemma signAddVote_sameRS t h hd cs : followsAt sameRS (signAddVote t h hd) cs.
Proof.
  unfold signAddVote. fsteps.
  - apply signVote_sameRS.
  - apply sendInternalMessage_sameRS.
Qed.

Lemma prevoteNil_sameRS cs : followsAt sameRS prevoteNil cs.
Proof. unfold prevoteNil. fsteps. apply signAddVote_sameRS. Qed.

Lemma precommitNil_sameRS cs : followsAt sameRS precommitNil cs.
Proof. unfold precommitNil. fsteps. apply signAddVote_sameRS. Qed.

Lemma doPrevote_epoch_sameRS pb cs : followsAt sameRS (doPrevote_epoch pb) cs.
Proof.
  unfold doPrevote_epoch. fsteps;
    first [apply prevoteNil_sameRS | apply signAddVote_sameRS].
Qed.

Lemma defaultDoPrevote_sameRS h r cs :
  followsAt sameRS (defaultDoPrevote h r) cs.
Proof.
  unfold defaultDoPrevote. fsteps;
    first [ apply prevoteNil_sameRS | apply signAddVote_sameRS
          | apply doPrevote_epoch_sameRS | apply set_world_sameRS ].
Qed.

Lemma createProposalBlock_sameRS cs : followsAt sameRS createProposalBlock cs.
Proof.
  unfold createProposalBlock. fsteps; try apply set_world_sameRS;
    split; reflexivity.
Qed.

Lemma sendParts_sameRS (f : nat -> M unit) :
  (forall i cs, followsAt sameRS (f i) cs) ->
  forall l (m : M unit), (forall cs, followsAt sameRS m cs) ->
  forall cs,
    followsAt sameRS (fold_left (fun m i => m ;;; f i) l m) cs.
Proof.
  intros Hf l. induction l as [|i l IH]; intros m Hm cs; simpl.
  - apply Hm.
  - apply IH. intros cs0. fsteps; [apply Hm | apply Hf].
Qed.

Lemma defaultDecideProposal_sameRS h r cs :
  followsAt sameRS (defaultDecideProposal h r) cs.
Proof.
  unfold defaultDecideProposal. fsteps;
    try apply createProposalBlock_sameRS; try apply set_world_sameRS;
    try apply sendInternalMessage_sameRS.
  apply (sendParts_sameRS
           (fun i => cs <- get ;;
              sendInternalMessage
                (mkMsgInfo
                   (BlockPartMessage (Height (RS cs)) (Round (RS cs))
                      (PartSet_GetPart (world cs) (snd a) (Z.of_nat i))) ""))).
  - intros i c. fsteps. apply sendInternalMessage_sameRS.
  - intros c. fsteps.
Qed.

Lemma enterPropose_body_sameRS h r cs :
  followsAt sameRS (enterPropose_body h r) cs.
Proof.
  unfold enterPropose_body. fsteps;
    try apply set_world_sameRS; try apply scheduleTimeout_sameRS;
    try apply defaultDecideProposal_sameRS.
Qed.

(** ** How a handler may move the round and the lock *)

Lemma lockOf_eq (a b : RoundState) :
  lockOf b = lockOf a ->
  LockedRound b = LockedRound a /\ LockedBlock b = LockedBlock a
  /\ LockedBlockParts b = LockedBlockParts a.
Proof. unfold lockOf. intros E. inversion E. auto. Qed.

#[local] Instance sameHRL_refl : Reflexive sameHRL.
Proof. intros a. repeat split. Qed.

#[local] Instance sameHRL_trans : Transitive sameHRL.
Proof. intros a b c (E1 & E2 & E3) (E4 & E5 & E6). repeat split; congruence. Qed.

#[local] Instance withinRound_refl r : Reflexive (withinRound r).
Proof. intros a L. repeat split; lia. Qed.

#[local] Instance withinRound_trans r : Transitive (withinRound r).
Proof.
  intros a b c Hab Hbc L. destruct (Hab L) as (E1 & E2 & E3).
  destruct Hbc as (E4 & E5 & E6); [lia|]. repeat split; try congruence; lia.
Qed.

#[local] Instance advances_refl : Reflexive advances.
Proof. intros a. split; [reflexivity|]. split; [lia|]. left. reflexivity. Qed.

#[local] Instance advances_trans : Transitive advances.
Proof.
  intros a b c (E1 & E2 & E3) (E4 & E5 & E6).
  split; [congruence|]. split; [lia|].
  destruct E6 as [E6|[E6|E6]].
  - destruct E3 as [E3|[E3|E3]].
    + left. congruence.
    + right. left. apply lockOf_eq in E6. destruct E6 as (L1 & L2 & L3).
      destruct E3 as (U1 & U2 & U3). repeat split; congruence.
    + right. right. apply lockOf_eq in E6. destruct E6 as (L1 & _). lia.
  - right. left. exact E6.
  - right. right. lia.
Qed.

Lemma sameRS_sameHRL a b : sameRS a b -> sameHRL a b.
Proof. intros [E _]. unfold sameHRL. rewrite E. repeat split. Qed.

Lemma sameHRL_withinRound r a b : sameHRL a b -> withinRound r a b.
Proof. intros (E1 & E2 & E3) L. repeat split; try assumption; lia. Qed.

Lemma sameHRL_advances a b : sameHRL a b -> advances a b.
Proof.
  intros (E1 & E2 & E3). split; [assumption|]. split; [lia|]. left. assumption.
Qed.

Lemma withinRound_advances r a b :
  Round (RS a) <= r -> withinRound r a b -> advances a b.
Proof.
  intros L W. destruct (W L) as (E1 & E2 & E3).
  split; [assumption|]. split; [lia|]. left. assumption.
Qed.

Lemma followsAt_from {A} (R R' : ConsensusState -> ConsensusState -> Prop)
    (m : M A) cs :
  (forall b, R cs b -> R' cs b) -> followsAt R m cs -> followsAt R' m cs.
Proof. intros Sub Hm a cs' E. apply Sub. exact (Hm a cs' E). Qed.

Lemma bind_get {A} (k : ConsensusState -> M A) cs : bind get k cs = k cs cs.
Proof. reflexivity. Qed.

(** A leaf that leaves the round state alone, under a weaker relation. *)
Ltac leafRS :=
  first
    [ apply fire_sameRS | apply fireRS_sameRS | apply scheduleTimeout_sameRS
    | apply sendInternalMessage_sameRS | apply newStep_sameRS
    | apply signAddVote_sameRS | apply prevoteNil_sameRS
    | apply precommitNil_sameRS | apply defaultDoPrevote_sameRS
    | apply defaultDecideProposal_sameRS | apply enterPropose_body_sameRS
    | apply set_world_sameRS ].

Lemma sameRS_withinRound r a b : sameRS a b -> withinRound r a b.
Proof. intros E. apply sameHRL_withinRound, sameRS_sameHRL, E. Qed.

Lemma sameRS_advances a b : sameRS a b -> advances a b.
Proof. intros E. apply sameHRL_advances, sameRS_sameHRL, E. Qed.

Ltac leafW :=
  first
    [ eapply followsAt_weaken;
      [intros ? ?; apply sameRS_withinRound | leafRS]
    | apply sameRS_withinRound; apply set_world_sameRS ].

Ltac leafA :=
  first
    [ eapply followsAt_weaken; [intros ? ?; apply sameRS_advances | leafRS]
    | apply sameRS_advances; apply set_world_sameRS ].

Lemma updateRoundStep_withinRound r st cs :
  followsAt (withinRound r) (updateRoundStep r st) cs.
Proof.
  unfold updateRoundStep, modifyRS. apply followsAt_modify.
  intros L. simpl. repeat split; lia.
Qed.

(** The guard of a round-indexed transition, when it lets the call
    through. *)
Lemma guard_passed height round step rs :
  (negb (Height rs =? height) || (round <? Round rs)
   || ((Round rs =? round) && (step <=? Step rs)))%bool = false ->
  Height rs = height /\ Round rs <= round
  /\ (Round rs = round -> Step rs < step).
Proof. intros G. zbool; simpl in G; try discriminate; repeat split; lia. Qed.

Lemma enterPrevote_advances h r cs : followsAt advances (enterPrevote h r) cs.
Proof.
  unfold enterPrevote. apply followsAt_get.
  destruct (_ || _)%bool eqn:G; [fstep|].
  apply guard_passed in G. destruct G as (_ & L & _).
  apply followsAt_from with (R := withinRound r).
  { intros b. apply withinRound_advances, L. }
  fsteps; first [ leafW
                | apply updateRoundStep_withinRound ].
Qed.

Lemma enterPrevoteWait_advances h r cs :
  followsAt advances (enterPrevoteWait h r) cs.
Proof.
  unfold enterPrevoteWait. apply followsAt_get.
  destruct (_ || _)%bool eqn:G; [fstep|].
  apply guard_passed in G. destruct G as (_ & L & _).
  apply followsAt_from with (R := withinRound r).
  { intros b. apply withinRound_advances, L. }
  fsteps; first [ leafW
                | apply updateRoundStep_withinRound ].
Qed.

Lemma enterPrecommitWait_advances h r cs :
  followsAt advances (enterPrecommitWait h r) cs.
Proof.
  unfold enterPrecommitWait. apply followsAt_get.
  destruct (_ || _)%bool eqn:G; [fstep|].
  apply guard_passed in G. destruct G as (_ & L & _).
  apply followsAt_from with (R := withinRound r).
  { intros b. apply withinRound_advances, L. }
  fsteps; first [ leafW
                | apply updateRoundStep_withinRound ].
Qed.

Ltac binv E :=
  let a := fresh "a" in
  let c := fresh "c" in
  let E1 := fresh "E" in
  apply bind_Ok in E; destruct E as (a & c & E1 & E).

Lemma updateRoundStep_advances r st cs :
  Round (RS cs) <= r -> followsAt advances (updateRoundStep r st) cs.
Proof.
  intros L. apply followsAt_from with (R := withinRound r).
  { intros b. apply withinRound_advances, L. }
  apply updateRoundStep_withinRound.
Qed.

Lemma enterPropose_advances h r cs : followsAt advances (enterPropose h r) cs.
Proof.
  unfold enterPropose. apply followsAt_get.
  destruct (_ || _)%bool eqn:G; [fstep|].
  apply guard_passed in G. destruct G as (_ & L & _).
  intros x cs' E. binv E. binv E.
  pose proof (followsAt_use _ _ _ _ _ (enterPropose_body_sameRS h r cs) E0) as S0.
  assert (L1 : Round (RS c) <= r) by (destruct S0 as [-> _]; exact L).
  pose proof (followsAt_use _ _ _ _ _
                (updateRoundStep_advances r RoundStepPropose c L1) E1) as S1.
  transitivity c; [apply sameRS_advances, S0|].
  transitivity c0; [exact S1|].
  revert x cs' E. change (followsAt advances
    (newStep ;;; cs <- get ;;
       if isProposalComplete cs then enterPrevote h (Round (RS cs)) else ret tt) c0).
  fsteps; first [leafA | apply enterPrevote_advances].
Qed.

Lemma guard_passed_NewRound height round rs :
  (negb (Height rs =? height) || (round <? Round rs)
   || ((Round rs =? round) && negb (Step rs =? RoundStepNewHeight)))%bool
  = false ->
  Height rs = height /\ Round rs <= round.
Proof. intros G. zbool; simpl in G; try discriminate; split; lia. Qed.

(** A write to the round state that keeps height, round and lock. *)
Ltac leafM :=
  unfold modifyRS; apply followsAt_modify;
  first [ apply sameHRL_advances | idtac ]; repeat split; reflexivity.

Lemma enterNewRound_advances h r cs : followsAt advances (enterNewRound h r) cs.
Proof.
  unfold enterNewRound. apply followsAt_get.
  destruct (_ || _)%bool eqn:G; [fstep|].
  apply guard_passed_NewRound in G. destruct G as (_ & L).
  intros x cs' E. binv E. binv E.
  assert (S0 : sameRS cs c).
  { revert E0. apply followsAt_use. fsteps. apply set_world_sameRS. }
  assert (L1 : Round (RS c) <= r) by (destruct S0 as [-> _]; exact L).
  pose proof (followsAt_use _ _ _ _ _
                (updateRoundStep_advances r RoundStepNewRound c L1) E1) as S1.
  transitivity c; [apply sameRS_advances, S0|].
  transitivity c0; [exact S1|].
  revert E. apply followsAt_use.
  fsteps; first [leafA | leafM | apply enterPropose_advances].
Qed.

#[local] Instance lockStep_refl r : Reflexive (lockStep r).
Proof. intros a. repeat split. left. reflexivity. Qed.

#[local] Instance lockStep_trans r : Transitive (lockStep r).
Proof.
  intros a b c (E1 & E2 & E3) (E4 & E5 & E6).
  split; [congruence|]. split; [congruence|].
  destruct E6 as [E6|[E6|E6]]; [|right; left; exact E6|right; right; exact E6].
  destruct E3 as [E3|[E3|E3]].
  - left. congruence.
  - right. left. apply lockOf_eq in E6. destruct E6 as (L1 & L2 & L3).
    destruct E3 as (U1 & U2 & U3). repeat split; congruence.
  - right. right. apply lockOf_eq in E6. destruct E6 as (L1 & _). congruence.
Qed.

Lemma sameHRL_lockStep r a b : sameHRL a b -> lockStep r a b.
Proof. intros (E1 & E2 & E3). repeat split; try assumption. left. exact E3. Qed.

Lemma sameRS_lockStep r a b : sameRS a b -> lockStep r a b.
Proof. intros E. apply sameHRL_lockStep, sameRS_sameHRL, E. Qed.

Ltac leafL :=
  first
    [ eapply followsAt_weaken; [intros ? ?; apply sameRS_lockStep | leafRS]
    | apply sameRS_lockStep; apply set_world_sameRS ].

Lemma unlock_lockStep r cs : followsAt (lockStep r) unlock cs.
Proof.
  unfold unlock, modifyRS. apply followsAt_modify.
  repeat split. right. left. repeat split.
Qed.

Lemma enterPrecommit_body_lockStep h r cs :
  followsAt (lockStep r) (enterPrecommit_body h r) cs.
Proof.
  unfold enterPrecommit_body.
  fsteps;
    first
      [ leafL
      | apply unlock_lockStep
      | unfold modifyRS; apply followsAt_modify; repeat split;
        first [ right; right; reflexivity | left; reflexivity ] ].
Qed.

Lemma enterPrecommit_moves h r cs x cs' :
  enterPrecommit h r cs = Ok (x, cs') ->
  advances cs cs' /\ lockMove r cs cs'.
Proof.
  unfold enterPrecommit. rewrite bind_get.
  destruct (_ || _)%bool eqn:G.
  { intros E. inversion E; subst. split; [reflexivity|]. left. reflexivity. }
  apply guard_passed in G. destruct G as (_ & L & _).
  intros E. binv E. binv E.
  pose proof (followsAt_use _ _ _ _ _ (enterPrecommit_body_lockStep h r cs) E0)
    as (B1 & B2 & B3).
  pose proof (followsAt_use _ _ _ _ _ (newStep_sameRS c0) E) as [N _].
  inversion E1; subst.
  unfold advances, lockMove, unlocked, lockOf in *. rewrite N. simpl.
  split; [split; [exact B1|split; [exact L|]]|].
  - destruct B3 as [B3|[B3|B3]]; [left; exact B3|right; left; exact B3|].
    right. right. lia.
  - destruct B3 as [B3|[B3|B3]]; [left; exact B3|right; left; exact B3|].
    right. right. split; [exact B3|reflexivity].
Qed.

Lemma enterPrecommit_advances h r cs :
  followsAt advances (enterPrecommit h r) cs.
Proof. intros x cs' E. apply (enterPrecommit_moves h r cs x cs' E). Qed.

Lemma finalizeCommit_sameRS h cs : followsAt sameRS (finalizeCommit h) cs.
Proof.
  unfold finalizeCommit.
  fsteps; first [apply fire_sameRS | apply set_world_sameRS].
Qed.

Lemma tryFinalizeCommit_sameRS h cs : followsAt sameRS (tryFinalizeCommit h) cs.
Proof. unfold tryFinalizeCommit. fsteps. apply finalizeCommit_sameRS. Qed.

Ltac leafH :=
  first
    [ eapply followsAt_weaken;
      [ intros ? ?; apply sameRS_sameHRL
      | first [leafRS | apply tryFinalizeCommit_sameRS] ]
    | apply sameRS_sameHRL; apply set_world_sameRS
    | unfold updateRoundStep, modifyRS; apply followsAt_modify;
      repeat split; reflexivity
    | repeat split; reflexivity ].

Lemma enterCommit_sameHRL h r cs : followsAt sameHRL (enterCommit h r) cs.
Proof.
  unfold enterCommit, enterCommit_body. fsteps; leafH.
Qed.

Lemma defaultSetProposal_sameHRL p cs :
  followsAt sameHRL (defaultSetProposal p) cs.
Proof. unfold defaultSetProposal. fsteps; leafH. Qed.

(** What the unlock on a proof-of-lock does: height and round are as
    before, and the lock is as before or cleared. *)
Lemma addVote_unlock_moves vote prevotes cs x cs' :
  addVote_unlock vote prevotes cs = Ok (x, cs') ->
  Height (RS cs') = Height (RS cs) /\ Round (RS cs') = Round (RS cs)
  /\ (lockOf (RS cs') = lockOf (RS cs) \/ unlocked (RS cs')).
Proof.
  unfold addVote_unlock. rewrite bind_get.
  destruct (LockedBlock (RS cs)) as [lb|].
  2:{ intros E. inversion E; subst. repeat split. left. reflexivity. }
  destruct (_ && _)%bool.
  2:{ intros E. inversion E; subst. repeat split. left. reflexivity. }
  destruct (VoteSet_TwoThirdsMajority _ _) as [blockID ok].
  destruct (_ && _)%bool.
  2:{ intros E. inversion E; subst. repeat split. left. reflexivity. }
  intros E. inversion E; subst. simpl. repeat split. right. repeat split.
Qed.

Lemma addVote_unlock_advances vote prevotes cs :
  followsAt advances (addVote_unlock vote prevotes) cs.
Proof.
  intros x cs' E. apply addVote_unlock_moves in E.
  destruct E as (E1 & E2 & E3). split; [exact E1|]. split; [lia|].
  destruct E3 as [E3|E3]; [left|right; left]; exact E3.
Qed.

Ltac leafAdv :=
  first
    [ leafA | leafM
    | apply enterNewRound_advances | apply enterPropose_advances
    | apply enterPrevote_advances | apply enterPrevoteWait_advances
    | apply enterPrecommit_advances | apply enterPrecommitWait_advances
    | apply addVote_unlock_advances
    | eapply followsAt_weaken;
      [ intros ? ?; apply sameHRL_advances
      | first [apply enterCommit_sameHRL | apply defaultSetProposal_sameHRL] ]
    | eapply followsAt_weaken;
      [ intros ? ?; apply sameRS_advances | apply tryFinalizeCommit_sameRS ]
    | apply sameRS_advances; split; reflexivity ].

Lemma addProposalBlockPart_advances h part verify cs :
  followsAt advances (addProposalBlockPart h part verify) cs.
Proof. unfold addProposalBlockPart. fsteps; leafAdv. Qed.

Lemma addVote_prevote_advances h vote cs :
  followsAt advances (addVote_prevote h vote) cs.
Proof. unfold addVote_prevote. fsteps; leafAdv. Qed.

Lemma addVote_precommit_advances h vote cs :
  followsAt advances (addVote_precommit h vote) cs.
Proof. unfold addVote_precommit. fsteps; leafAdv. Qed.

Lemma addVote_advances vote peerKey cs :
  followsAt advances (addVote vote peerKey) cs.
Proof.
  unfold addVote. fsteps;
    first [ leafAdv | apply addVote_prevote_advances
          | apply addVote_precommit_advances ].
Qed.

Lemma tryAddVote_advances vote peerKey cs :
  followsAt advances (tryAddVote vote peerKey) cs.
Proof. unfold tryAddVote. fsteps. apply addVote_advances. Qed.

Lemma handleMsg_advances mi cs : followsAt advances (handleMsg mi) cs.
Proof.
  unfold handleMsg. fsteps;
    first [ leafAdv | apply addProposalBlockPart_advances
          | apply tryAddVote_advances ].
Qed.

Lemma handleTimeout_advances ti rs cs :
  followsAt advances (handleTimeout ti rs) cs.
Proof. unfold handleTimeout. fsteps; leafAdv. Qed.

Lemma receive_advances rcv cs : followsAt advances (receive rcv) cs.
Proof.
  unfold receive. destruct rcv; fsteps;
    first [ leafAdv | apply handleMsg_advances | apply handleTimeout_advances ].
Qed.

(** ** The lock *)

(** C4.  In a state whose lock round lies within the rounds entered so
    far: a call of [enterPrecommit] for round [r] leaves the lock as it
    was, or clears it together with the locked block and parts, or
    raises the lock round to [r], which is then the round of the state;
    the unlock on a proof-of-lock in [addVote] leaves the lock as it was
    or clears all three fields; and over any turn of the receive
    routine the height is the same, the lock round still lies within
    the rounds entered, and the lock round has not decreased unless the
    lock was cleared. *)
Theorem locked_round_only_cleared_or_raised :
  forall cs : ConsensusState,
    lockInRound (RS cs) ->
    (forall h r x cs',
        enterPrecommit h r cs = Ok (x, cs') ->
        lockOf (RS cs') = lockOf (RS cs) \/ unlocked (RS cs')
        \/ (LockedRound (RS cs') = r /\ Round (RS cs') = r
            /\ LockedRound (RS cs) <= r))
    /\ (forall vote prevotes x cs',
          addVote_unlock vote prevotes cs = Ok (x, cs') ->
          lockOf (RS cs') = lockOf (RS cs) \/ unlocked (RS cs'))
    /\ (forall rcv x cs',
          receive rcv cs = Ok (x, cs') ->
          Height (RS cs') = Height (RS cs)
          /\ lockInRound (RS cs')
          /\ (unlocked (RS cs')
              \/ LockedRound (RS cs) <= LockedRound (RS cs'))).
Proof.
  intros cs [R0 LR]. split; [|split].
  - intros h r x cs' E. apply enterPrecommit_moves in E.
    destruct E as ((_ & A2 & _) & [M|[M|[M1 M2]]]).
    + left. exact M.
    + right. left. exact M.
    + right. right. repeat split; try assumption. lia.
  - intros vote prevotes x cs' E. apply addVote_unlock_moves in E.
    destruct E as (_ & _ & E). exact E.
  - intros rcv x cs' E. apply receive_advances in E.
    destruct E as (A1 & A2 & A3). split; [exact A1|].
    unfold lockInRound, unlocked in *.
    destruct A3 as [A3|[A3|A3]].
    + apply lockOf_eq in A3. destruct A3 as (L1 & _). rewrite L1.
      split; [split; lia|]. right. lia.
    + destruct A3 as (U1 & U2 & U3). rewrite U1.
      split; [split; lia|]. left. repeat split; assumption.
    + split; [split; lia|]. right. lia.
Qed.

(** ** Precommit: the courses of action *)

Lemma entersPrecommit_guard height round rs :
  entersPrecommit height round rs ->
  (negb (Height rs =? height) || (round <? Round rs)
   || ((Round rs =? round) && (RoundStepPrecommit <=? Step rs)))%bool = false.
Proof.
  intros (E1 & E2 & E3). zgoal; simpl; try reflexivity; lia.
Qed.

Lemma bind_assoc {A B C} (m : M A) (f : A -> M B) (g : B -> M C) cs :
  bind (bind m f) g cs = bind m (fun a => bind (f a) g) cs.
Proof. unfold bind. destruct (m cs) as [[a c]|]; reflexivity. Qed.

Lemma bind_ext {A B} (m : M A) (f g : A -> M B) cs :
  (forall a c, f a c = g a c) -> bind m f cs = bind m g cs.
Proof. intros E. unfold bind. destruct (m cs) as [[a c]|]; [apply E|reflexivity]. Qed.

(** The vote and what follows it, with the [ret tt] of the code
    dropped. *)
Lemma signAddVote_then {A} t hash header (k : M A) cs :
  bind (signAddVote t hash header ;;; ret tt) (fun _ => k) cs
  = bind (signAddVote t hash header) (fun _ => k) cs.
Proof. rewrite bind_assoc. apply bind_ext. reflexivity. Qed.

Lemma enterPrecommit_noPolka h r cs blockID :
  entersPrecommit h r (RS cs) ->
  VoteSet_TwoThirdsMajority (world cs)
    (HeightVoteSet_Prevotes (world cs) (Votes (RS cs)) r) = (blockID, false) ->
  enterPrecommit h r cs = precommit_noPolka r cs.
Proof.
  intros G Maj. unfold enterPrecommit. rewrite bind_get.
  rewrite (entersPrecommit_guard _ _ _ G).
  unfold enterPrecommit_body. rewrite bind_assoc, bind_get, Maj. reflexivity.
Qed.

Ltac run :=
  cbv beta iota zeta delta
    [bind get ret modify panic fireRS fire unlock modifyRS precommitNil
     prevoteNil donePrecommit updateRoundStep fetchBlock enterPrecommit_body
     precommit_noPolka precommit_polkaNil precommit_polkaNil_unlock
     precommit_relock precommit_lock precommit_unknown].

Ltac sameVote :=
  try reflexivity; simpl;
  match goal with
  | |- context [signAddVote ?t ?h ?hd ?c] =>
      destruct (signAddVote t h hd c) as [[? ?]|]; reflexivity
  end.

Lemma enterPrecommit_polka_start h r cs blockID polRound polID :
  entersPrecommit h r (RS cs) ->
  VoteSet_TwoThirdsMajority (world cs)
    (HeightVoteSet_Prevotes (world cs) (Votes (RS cs)) r) = (blockID, true) ->
  HeightVoteSet_POLInfo (world cs) (Votes (RS cs)) = (polRound, polID) ->
  r <= polRound ->
  (negb (Height (RS cs) =? h) || (r <? Round (RS cs))
   || ((Round (RS cs) =? r) && (RoundStepPrecommit <=? Step (RS cs))))%bool
  = false
  /\ (polRound <? r) = false.
Proof.
  intros G _ _ Le. split; [apply entersPrecommit_guard, G|].
  destruct (Z.ltb_spec polRound r); [lia|reflexivity].
Qed.

Ltac polka G Maj Pol Le :=
  let S1 := fresh in
  let S2 := fresh in
  destruct (enterPrecommit_polka_start _ _ _ _ _ _ G Maj Pol Le) as [S1 S2];
  unfold enterPrecommit; rewrite bind_get, S1; run; rewrite Maj; run;
  rewrite Pol, S2.

Lemma enterPrecommit_polkaNil_unlock h r cs blockID polRound polID lb :
  entersPrecommit h r (RS cs) ->
  VoteSet_TwoThirdsMajority (world cs)
    (HeightVoteSet_Prevotes (world cs) (Votes (RS cs)) r) = (blockID, true) ->
  HeightVoteSet_POLInfo (world cs) (Votes (RS cs)) = (polRound, polID) ->
  r <= polRound ->
  bid_Hash blockID = [] ->
  LockedBlock (RS cs) = Some lb ->
  enterPrecommit h r cs = precommit_polkaNil_unlock r cs.
Proof.
  intros G Maj Pol Le Nil Lk. polka G Maj Pol Le.
  rewrite Nil, Lk. simpl. sameVote.
Qed.

Lemma enterPrecommit_polkaNil h r cs blockID polRound polID :
  entersPrecommit h r (RS cs) ->
  VoteSet_TwoThirdsMajority (world cs)
    (HeightVoteSet_Prevotes (world cs) (Votes (RS cs)) r) = (blockID, true) ->
  HeightVoteSet_POLInfo (world cs) (Votes (RS cs)) = (polRound, polID) ->
  r <= polRound ->
  bid_Hash blockID = [] ->
  LockedBlock (RS cs) = None ->
  enterPrecommit h r cs = precommit_polkaNil r cs.
Proof.
  intros G Maj Pol Le Nil Lk. polka G Maj Pol Le.
  rewrite Nil, Lk. simpl. sameVote.
Qed.

Lemma enterPrecommit_relock h r cs blockID polRound polID :
  entersPrecommit h r (RS cs) ->
  VoteSet_TwoThirdsMajority (world cs)
    (HeightVoteSet_Prevotes (world cs) (Votes (RS cs)) r) = (blockID, true) ->
  HeightVoteSet_POLInfo (world cs) (Votes (RS cs)) = (polRound, polID) ->
  r <= polRound ->
  bid_Hash blockID <> [] ->
  Block_HashesTo (world cs) (LockedBlock (RS cs)) (bid_Hash blockID) = true ->
  enterPrecommit h r cs = precommit_relock r blockID cs.
Proof.
  intros G Maj Pol Le NNil Hl. polka G Maj Pol Le.
  destruct (bid_Hash blockID) as [|b0 bs] eqn:Eh; [congruence|].
  simpl. rewrite Hl. sameVote.
Qed.

Lemma enterPrecommit_lock h r cs blockID polRound polID :
  entersPrecommit h r (RS cs) ->
  VoteSet_TwoThirdsMajority (world cs)
    (HeightVoteSet_Prevotes (world cs) (Votes (RS cs)) r) = (blockID, true) ->
  HeightVoteSet_POLInfo (world cs) (Votes (RS cs)) = (polRound, polID) ->
  r <= polRound ->
  bid_Hash blockID <> [] ->
  Block_HashesTo (world cs) (LockedBlock (RS cs)) (bid_Hash blockID) = false ->
  Block_HashesTo (world cs) (ProposalBlock (RS cs)) (bid_Hash blockID) = true ->
  Block_ValidateBasic (world cs) (ProposalBlock (RS cs)) = None ->
  enterPrecommit h r cs = precommit_lock r blockID cs.
Proof.
  intros G Maj Pol Le NNil Hl Hp Vb. polka G Maj Pol Le.
  destruct (bid_Hash blockID) as [|b0 bs] eqn:Eh; [congruence|].
  simpl. rewrite Hl, Hp, Vb. sameVote.
Qed.

Lemma enterPrecommit_unknown h r cs blockID polRound polID :
  entersPrecommit h r (RS cs) ->
  VoteSet_TwoThirdsMajority (world cs)
    (HeightVoteSet_Prevotes (world cs) (Votes (RS cs)) r) = (blockID, true) ->
  HeightVoteSet_POLInfo (world cs) (Votes (RS cs)) = (polRound, polID) ->
  r <= polRound ->
  bid_Hash blockID <> [] ->
  Block_HashesTo (world cs) (LockedBlock (RS cs)) (bid_Hash blockID) = false ->
  Block_HashesTo (world cs) (ProposalBlock (RS cs)) (bid_Hash blockID) = false ->
  enterPrecommit h r cs = precommit_unknown r blockID cs.
Proof.
  intros G Maj Pol Le NNil Hl Hp. polka G Maj Pol Le.
  destruct (bid_Hash blockID) as [|b0 bs] eqn:Eh; [congruence|].
  simpl. rewrite Hl, Hp.
  destruct (negb (PartSet_HasHeader _ _ _)).
  - destruct (NewPartSetFromHeader _ _) as [w1 ps]. simpl. sameVote.
  - simpl. sameVote.
Qed.

#[local] Instance keepsLock_refl : Reflexive keepsLock.
Proof. intros a. reflexivity. Qed.

#[local] Instance keepsLock_trans : Transitive keepsLock.
Proof. intros a b c E1 E2. unfold keepsLock in *. congruence. Qed.

Lemma sameRS_keepsLock a b : sameRS a b -> keepsLock a b.
Proof. intros [E _]. unfold keepsLock. rewrite E. reflexivity. Qed.

Ltac leafK :=
  first
    [ eapply followsAt_weaken; [intros ? ?; apply sameRS_keepsLock | leafRS]
    | apply sameRS_keepsLock; apply set_world_sameRS
    | reflexivity ].

(** Whatever is voted, voting and finishing the transition keep the
    lock. *)
Lemma vote_done_keepsLock t hash header r cs :
  followsAt keepsLock
    (signAddVote t hash header ;;; donePrecommit r) cs.
Proof.
  unfold donePrecommit, updateRoundStep, modifyRS. fsteps; leafK.
Qed.

Lemma nil_done_keepsLock r cs :
  followsAt keepsLock (precommitNil ;;; donePrecommit r) cs.
Proof.
  unfold precommitNil, donePrecommit, updateRoundStep, modifyRS.
  fsteps; leafK.
Qed.

Lemma fetchBlock_keepsLock blockID cs :
  followsAt keepsLock (fetchBlock blockID) cs.
Proof. unfold fetchBlock, modifyRS. fsteps; leafK. Qed.

Lemma precommit_noPolka_lock r cs x cs' :
  precommit_noPolka r cs = Ok (x, cs') -> lockOf (RS cs') = lockOf (RS cs).
Proof. apply (followsAt_use keepsLock). apply nil_done_keepsLock. Qed.

Lemma precommit_polkaNil_lock r cs x cs' :
  precommit_polkaNil r cs = Ok (x, cs') -> lockOf (RS cs') = lockOf (RS cs).
Proof.
  apply (followsAt_use keepsLock). unfold precommit_polkaNil.
  fstep; [leafK|]. apply nil_done_keepsLock.
Qed.

Lemma precommit_polkaNil_unlock_lock r cs x cs' :
  precommit_polkaNil_unlock r cs = Ok (x, cs') -> unlocked (RS cs').
Proof.
  unfold precommit_polkaNil_unlock. intros E. binv E. binv E. binv E.
  inversion E0; inversion E1; inversion E2; subst.
  apply (followsAt_use keepsLock _ _ _ _ (nil_done_keepsLock r _)) in E.
  unfold keepsLock, lockOf in E. simpl in E. inversion E.
  repeat split; assumption.
Qed.

Lemma precommit_relock_lock r blockID cs x cs' :
  precommit_relock r blockID cs = Ok (x, cs') ->
  lockOf (RS cs') = (r, LockedBlock (RS cs), LockedBlockParts (RS cs)).
Proof.
  unfold precommit_relock. intros E. binv E. binv E. binv E.
  inversion E0; inversion E1; inversion E2; subst.
  apply (followsAt_use keepsLock _ _ _ _ (vote_done_keepsLock _ _ _ r _)) in E.
  exact E.
Qed.

Lemma precommit_lock_lock r blockID cs x cs' :
  precommit_lock r blockID cs = Ok (x, cs') ->
  lockOf (RS cs') = (r, ProposalBlock (RS cs), ProposalBlockParts (RS cs)).
Proof.
  unfold precommit_lock. intros E. binv E. binv E. binv E.
  inversion E0; inversion E1; inversion E2; subst.
  apply (followsAt_use keepsLock _ _ _ _ (vote_done_keepsLock _ _ _ r _)) in E.
  exact E.
Qed.

Lemma precommit_unknown_lock r blockID cs x cs' :
  precommit_unknown r blockID cs = Ok (x, cs') -> unlocked (RS cs').
Proof.
  unfold precommit_unknown. intros E. binv E. binv E. binv E. binv E.
  inversion E0; inversion E1; inversion E3; subst.
  apply (followsAt_use keepsLock _ _ _ _ (fetchBlock_keepsLock _ _)) in E2.
  apply (followsAt_use keepsLock _ _ _ _ (nil_done_keepsLock r _)) in E.
  unfold keepsLock, lockOf in *. simpl in *. rewrite E2 in E. inversion E.
  repeat split; assumption.
Qed.


(** ** The vote that is cast *)

Lemma signAddVote_signs t hash header cs signed :
  signs (world cs) cs t (mkBlockID hash header) signed ->
  exists cs1,
    signAddVote t hash header cs = Ok (Some signed, cs1)
    /\ sent (mkMsgInfo (VoteMessage signed) "") cs cs1
    /\ RS cs1 = RS cs /\ fired cs1 = fired cs /\ evsw cs1 = evsw cs.
Proof.
  intros (pv & w' & Pv & Has & Sg). unfold ballot in Sg.
  unfold signAddVote, signVote, bind, get. rewrite Pv, Has.
  cbv beta iota zeta delta [negb]. rewrite Pv, Sg.
  unfold modify, ret, sendInternalMessage, modify. simpl.
  eexists. split; [reflexivity|]. unfold sent. simpl.
  destruct (_ <? _); repeat split.
Qed.

Lemma donePrecommit_runs round cs :
  exists cs',
    donePrecommit round cs = Ok (tt, cs')
    /\ internalMsgQueue cs' = internalMsgQueue cs
    /\ spawnedSends cs' = spawnedSends cs
    /\ fired cs' = fired cs ++ stepEvents cs round RoundStepPrecommit
    /\ Round (RS cs') = round /\ Step (RS cs') = RoundStepPrecommit.
Proof.
  unfold donePrecommit, updateRoundStep, modifyRS, newStep, stepEvents,
    bind, get, modify, fire, modify, ret. simpl.
  destruct (evsw cs); eexists; (split; [reflexivity|]); simpl;
    rewrite ?app_nil_r; repeat split.
Qed.

Lemma vote_then_done r blockID c0 signed :
  signs (world c0) c0 VoteTypePrecommit blockID signed ->
  exists cs',
    (signAddVote VoteTypePrecommit (bid_Hash blockID)
       (bid_PartsHeader blockID) ;;; donePrecommit r) c0 = Ok (tt, cs')
    /\ sent (mkMsgInfo (VoteMessage signed) "") c0 cs'
    /\ fired cs' = fired c0 ++ stepEvents c0 r RoundStepPrecommit
    /\ Round (RS cs') = r /\ Step (RS cs') = RoundStepPrecommit.
Proof.
  intros Sg. destruct blockID as [hash header]. simpl.
  destruct (signAddVote_signs _ _ _ _ _ Sg) as (c1 & E1 & S1 & R1 & F1 & V1).
  destruct (donePrecommit_runs r c1) as (cs' & E & Q & Sp & F & Rd & St).
  exists cs'. rewrite (bind_run _ _ _ _ _ E1).
  split; [exact E|]. split.
  { destruct S1 as [S1 S2]. split; congruence. }
  split; [|split; assumption].
  rewrite F, F1. unfold stepEvents. rewrite V1, R1. reflexivity.
Qed.

Lemma nil_then_done r c0 signed :
  signs (world c0) c0 VoteTypePrecommit nilID signed ->
  exists cs',
    (precommitNil ;;; donePrecommit r) c0 = Ok (tt, cs')
    /\ sent (mkMsgInfo (VoteMessage signed) "") c0 cs'
    /\ fired cs' = fired c0 ++ stepEvents c0 r RoundStepPrecommit
    /\ Round (RS cs') = r /\ Step (RS cs') = RoundStepPrecommit.
Proof.
  intros Sg. destruct (vote_then_done r nilID c0 signed Sg)
    as (cs' & E & Rest).
  exists cs'. split; [|exact Rest].
  rewrite <- E. unfold precommitNil. rewrite bind_assoc. reflexivity.
Qed.

(** Run the steps before the vote, then cast it. *)
Ltac castWith L Sg :=
  repeat (erewrite bind_run by reflexivity);
  match goal with
  | |- context [bind _ _ ?c] =>
      let cs' := fresh "cs'" in
      let E := fresh "E" in
      let S := fresh "S" in
      let F := fresh "F" in
      let Rd := fresh "Rd" in
      let St := fresh "St" in
      destruct (L c _ Sg) as (cs' & E & S & F & Rd & St);
      exists cs'; split; [exact E|]; split; [exact S|];
      split; [|split; assumption];
      rewrite F; simpl; rewrite <- ?app_assoc; reflexivity
  end.

Lemma precommit_noPolka_casts r cs signed :
  signs (world cs) cs VoteTypePrecommit nilID signed ->
  exists cs',
    precommit_noPolka r cs = Ok (tt, cs')
    /\ sent (mkMsgInfo (VoteMessage signed) "") cs cs'
    /\ fired cs' = fired cs ++ [] ++ stepEvents cs r RoundStepPrecommit
    /\ Round (RS cs') = r /\ Step (RS cs') = RoundStepPrecommit.
Proof. intros Sg. exact (nil_then_done r cs signed Sg). Qed.

Lemma precommit_polkaNil_casts r cs signed :
  signs (world cs) cs VoteTypePrecommit nilID signed ->
  exists cs',
    precommit_polkaNil r cs = Ok (tt, cs')
    /\ sent (mkMsgInfo (VoteMessage signed) "") cs cs'
    /\ fired cs'
       = fired cs ++ [EventPolka (RoundStateEvent (RS cs))]
         ++ stepEvents cs r RoundStepPrecommit
    /\ Round (RS cs') = r /\ Step (RS cs') = RoundStepPrecommit.
Proof.
  intros Sg. unfold precommit_polkaNil. castWith (nil_then_done r) Sg.
Qed.

Lemma precommit_polkaNil_unlock_casts r cs signed :
  signs (world cs) cs VoteTypePrecommit nilID signed ->
  exists cs',
    precommit_polkaNil_unlock r cs = Ok (tt, cs')
    /\ sent (mkMsgInfo (VoteMessage signed) "") cs cs'
    /\ fired cs'
       = fired cs
         ++ [EventPolka (RoundStateEvent (RS cs));
             EventUnlock (RoundStateEvent (RS cs))]
         ++ stepEvents cs r RoundStepPrecommit
    /\ Round (RS cs') = r /\ Step (RS cs') = RoundStepPrecommit.
Proof.
  intros Sg. unfold precommit_polkaNil_unlock.
  castWith (nil_then_done r) Sg.
Qed.

Lemma precommit_relock_casts r blockID cs signed :
  signs (world cs) cs VoteTypePrecommit blockID signed ->
  exists cs',
    precommit_relock r blockID cs = Ok (tt, cs')
    /\ sent (mkMsgInfo (VoteMessage signed) "") cs cs'
    /\ fired cs'
       = fired cs
         ++ [EventPolka (RoundStateEvent (RS cs));
             EventRelock (RoundStateEvent (RS cs))]
         ++ stepEvents cs r RoundStepPrecommit
    /\ Round (RS cs') = r /\ Step (RS cs') = RoundStepPrecommit.
Proof.
  intros Sg. unfold precommit_relock.
  castWith (vote_then_done r blockID) Sg.
Qed.

Lemma precommit_lock_casts r blockID cs signed :
  signs (world cs) cs VoteTypePrecommit blockID signed ->
  exists cs',
    precommit_lock r blockID cs = Ok (tt, cs')
    /\ sent (mkMsgInfo (VoteMessage signed) "") cs cs'
    /\ fired cs'
       = fired cs
         ++ [EventPolka (RoundStateEvent (RS cs));
             EventLock (RoundStateEvent (RS cs))]
         ++ stepEvents cs r RoundStepPrecommit
    /\ Round (RS cs') = r /\ Step (RS cs') = RoundStepPrecommit.
Proof.
  intros Sg. unfold precommit_lock.
  castWith (vote_then_done r blockID) Sg.
Qed.

Lemma precommit_unknown_casts r blockID cs signed :
  signs (fetchWorld cs blockID) cs VoteTypePrecommit nilID signed ->
  exists cs',
    precommit_unknown r blockID cs = Ok (tt, cs')
    /\ sent (mkMsgInfo (VoteMessage signed) "") cs cs'
    /\ fired cs'
       = fired cs
         ++ [EventPolka (RoundStateEvent (RS cs));
             EventUnlock (RoundStateEvent (RS cs))]
         ++ stepEvents cs r RoundStepPrecommit
    /\ Round (RS cs') = r /\ Step (RS cs') = RoundStepPrecommit.
Proof.
  intros Sg. unfold precommit_unknown, fetchBlock. unfold fetchWorld in Sg.
  erewrite bind_run by reflexivity. erewrite bind_run by reflexivity.
  rewrite bind_assoc, bind_get. simpl PartSet_HasHeader.
  destruct (PartSet_HasHeader _ _ _).
  - simpl negb. cbv iota. castWith (nil_then_done r) Sg.
  - simpl negb. cbv iota.
    destruct (NewPartSetFromHeader _ _) as [w1 ps]. simpl in Sg.
    castWith (nil_then_done r) Sg.
Qed.

(** C1.  A call of [enterPrecommit] for (height, round) that passes the
    guard acts on the +2/3 majority of the prevotes of the round, and
    on nothing else.  Without a majority it precommits nil and the lock
    is as it was.  With a majority, the proof-of-lock round being the
    round as the sanity check demands: for nil while locked, it clears
    the lock (round, block and parts), fires Unlock and precommits nil;
    for nil while not locked, it precommits nil and the lock is as it
    was; for the locked block, it sets the lock round to the round,
    fires Relock and precommits that block; for the proposal block, if
    it passes basic validation, it locks it with its parts in the
    round, fires Lock and precommits it; for a block it does not have,
    it clears the lock, fires Unlock and precommits nil.  To precommit
    is to call [signAddVote] for a precommit, and the vote is cast:
    when the node is a validator whose signer signs, the call returns,
    the one message that went out is the signed precommit for nil or
    for the block, and the events fired are Polka (with a majority),
    then the event named, then the new step; each course ends in the
    round with the step set to Precommit. *)
Theorem enterPrecommit_follows_the_polka :
  forall (cs : ConsensusState) (height round : Z) (blockID : BlockID)
         (ok : bool) (polRound : Z) (polID : BlockID),
    entersPrecommit height round (RS cs) ->
    VoteSet_TwoThirdsMajority (world cs)
      (HeightVoteSet_Prevotes (world cs) (Votes (RS cs)) round)
    = (blockID, ok) ->
    HeightVoteSet_POLInfo (world cs) (Votes (RS cs)) = (polRound, polID) ->
    let done x cs' := enterPrecommit height round cs = Ok (x, cs') in
    let ev := RoundStateEvent (RS cs) in
    (ok = false ->
     enterPrecommit height round cs = precommit_noPolka round cs
     /\ (forall x cs', done x cs' -> lockOf (RS cs') = lockOf (RS cs))
     /\ castsPrecommit height round cs (world cs) nilID [])
    /\ (ok = true -> round <= polRound ->
        (bid_Hash blockID = [] -> LockedBlock (RS cs) <> None ->
         enterPrecommit height round cs = precommit_polkaNil_unlock round cs
         /\ (forall x cs', done x cs' -> unlocked (RS cs'))
         /\ castsPrecommit height round cs (world cs) nilID
              [EventPolka ev; EventUnlock ev])
        /\ (bid_Hash blockID = [] -> LockedBlock (RS cs) = None ->
            enterPrecommit height round cs = precommit_polkaNil round cs
            /\ (forall x cs', done x cs' ->
                  lockOf (RS cs') = lockOf (RS cs))
            /\ castsPrecommit height round cs (world cs) nilID
                 [EventPolka ev])
        /\ (bid_Hash blockID <> [] ->
            Block_HashesTo (world cs) (LockedBlock (RS cs)) (bid_Hash blockID)
            = true ->
            enterPrecommit height round cs = precommit_relock round blockID cs
            /\ (forall x cs', done x cs' ->
                  lockOf (RS cs')
                  = (round, LockedBlock (RS cs), LockedBlockParts (RS cs)))
            /\ castsPrecommit height round cs (world cs) blockID
                 [EventPolka ev; EventRelock ev])
        /\ (bid_Hash blockID <> [] ->
            Block_HashesTo (world cs) (LockedBlock (RS cs)) (bid_Hash blockID)
            = false ->
            Block_HashesTo (world cs) (ProposalBlock (RS cs))
              (bid_Hash blockID) = true ->
            Block_ValidateBasic (world cs) (ProposalBlock (RS cs)) = None ->
            enterPrecommit height round cs = precommit_lock round blockID cs
            /\ (forall x cs', done x cs' ->
                  lockOf (RS cs')
                  = (round, ProposalBlock (RS cs),
                     ProposalBlockParts (RS cs)))
            /\ castsPrecommit height round cs (world cs) blockID
                 [EventPolka ev; EventLock ev])
        /\ (bid_Hash blockID <> [] ->
            Block_HashesTo (world cs) (LockedBlock (RS cs)) (bid_Hash blockID)
            = false ->
            Block_HashesTo (world cs) (ProposalBlock (RS cs))
              (bid_Hash blockID) = false ->
            enterPrecommit height round cs = precommit_unknown round blockID cs
            /\ (forall x cs', done x cs' -> unlocked (RS cs'))
            /\ castsPrecommit height round cs (fetchWorld cs blockID) nilID
                 [EventPolka ev; EventUnlock ev])).
Proof.
  intros cs h r blockID ok polRound polID G Maj Pol done ev.
  unfold done, ev, castsPrecommit.
  split.
  - intros ->. pose proof (enterPrecommit_noPolka h r cs blockID G Maj) as E.
    split; [exact E|]. rewrite E. split.
    + intros x cs'. apply precommit_noPolka_lock.
    + intros signed Sg. apply precommit_noPolka_casts, Sg.
  - intros -> Le. split; [|split; [|split; [|split]]].
    + intros Nil Lk.
      destruct (LockedBlock (RS cs)) as [lb|] eqn:Lk'; [|congruence].
      pose proof (enterPrecommit_polkaNil_unlock h r cs blockID polRound
                    polID lb G Maj Pol Le Nil Lk') as E.
      split; [exact E|]. rewrite E. split.
      * intros x cs'. apply precommit_polkaNil_unlock_lock.
      * intros signed Sg. apply precommit_polkaNil_unlock_casts, Sg.
    + intros Nil Lk.
      pose proof (enterPrecommit_polkaNil h r cs blockID polRound polID
                    G Maj Pol Le Nil Lk) as E.
      split; [exact E|]. rewrite E. split.
      * intros x cs'. apply precommit_polkaNil_lock.
      * intros signed Sg. apply precommit_polkaNil_casts, Sg.
    + intros NNil Hl.
      pose proof (enterPrecommit_relock h r cs blockID polRound polID
                    G Maj Pol Le NNil Hl) as E.
      split; [exact E|]. rewrite E. split.
      * intros x cs'. apply precommit_relock_lock.
      * intros signed Sg. apply precommit_relock_casts, Sg.
    + intros NNil Hl Hp Vb.
      pose proof (enterPrecommit_lock h r cs blockID polRound polID
                    G Maj Pol Le NNil Hl Hp Vb) as E.
      split; [exact E|]. rewrite E. split.
      * intros x cs'. apply precommit_lock_lock.
      * intros signed Sg. apply precommit_lock_casts, Sg.
    + intros NNil Hl Hp.
      pose proof (enterPrecommit_unknown h r cs blockID polRound polID
                    G Maj Pol Le NNil Hl Hp) as E.
      split; [exact E|]. rewrite E. split.
      * intros x cs'. apply precommit_unknown_lock.
      * intros signed Sg. apply precommit_unknown_casts, Sg.
Qed.

(** ** Unlocking *)

(** C9.  Every path that unlocks leaves the lock round at 0 and the
    locked block and parts nil: [enterPrecommit] on a polka for nil
    while locked, [enterPrecommit] on a polka for a block that is
    neither the locked nor the proposal block, and the unlock of
    [addVote] when the prevotes of the vote's round are a proof-of-lock
    for another block, which does run to its end and fires Unlock. *)
Theorem unlock_clears_the_lock :
  forall (cs : ConsensusState),
    (forall height round blockID polRound polID x cs',
        entersPrecommit height round (RS cs) ->
        VoteSet_TwoThirdsMajority (world cs)
          (HeightVoteSet_Prevotes (world cs) (Votes (RS cs)) round)
        = (blockID, true) ->
        HeightVoteSet_POLInfo (world cs) (Votes (RS cs)) = (polRound, polID) ->
        round <= polRound ->
        (bid_Hash blockID = [] /\ LockedBlock (RS cs) <> None)
        \/ (bid_Hash blockID <> []
            /\ Block_HashesTo (world cs) (LockedBlock (RS cs))
                 (bid_Hash blockID) = false
            /\ Block_HashesTo (world cs) (ProposalBlock (RS cs))
                 (bid_Hash blockID) = false) ->
        enterPrecommit height round cs = Ok (x, cs') ->
        unlocked (RS cs'))
    /\ (forall vote prevotes,
          unlocksOnPOL vote prevotes cs ->
          exists cs',
            addVote_unlock vote prevotes cs = Ok (tt, cs')
            /\ unlocked (RS cs')
            /\ fired cs'
               = fired cs
                 ++ [EventUnlock
                       (RoundStateEvent (rs_set_Locked 0 None None (RS cs)))]).
Proof.
  intros cs. split.
  - intros h r blockID polRound polID x cs' G Maj Pol Le
      [[Nil Lk]|(NNil & Hl & Hp)] E.
    + destruct (LockedBlock (RS cs)) as [lb|] eqn:Lk'; [|congruence].
      rewrite (enterPrecommit_polkaNil_unlock h r cs blockID polRound polID lb)
        in E by assumption.
      exact (precommit_polkaNil_unlock_lock r cs x cs' E).
    + rewrite (enterPrecommit_unknown h r cs blockID polRound polID)
        in E by assumption.
      exact (precommit_unknown_lock r blockID cs x cs' E).
  - intros vote prevotes (Lk & [L1 L2] & Ok23 & Hl).
    unfold addVote_unlock. rewrite bind_get.
    destruct (LockedBlock (RS cs)) as [lb|] eqn:Lk'; [|congruence].
    assert (C : ((LockedRound (RS cs) <? to_int (vote_Round vote))
                 && (to_int (vote_Round vote) <=? Round (RS cs)))%bool = true).
    { zgoal; simpl; try reflexivity; lia. }
    rewrite C.
    destruct (VoteSet_TwoThirdsMajority (world cs) prevotes) as [blockID ok].
    simpl in Ok23, Hl. subst ok. rewrite Hl. simpl.
    eexists. split; [reflexivity|]. simpl. repeat split.
Qed.


(** ** Prevote: the default rule *)









(** ** A node outside the validator set *)

Lemma signAddVote_outside t hash header cs :
  outsideValidatorSet cs -> signAddVote t hash header cs = Ok (None, cs).
Proof.
  unfold outsideValidatorSet, signAddVote. rewrite bind_get.
  destruct (privValidator cs) as [pv|]; [|reflexivity].
  intros ->. reflexivity.
Qed.

#[local] Instance quietly_refl : Reflexive quietly.
Proof. intros a. repeat split. Qed.

#[local] Instance quietly_trans : Transitive quietly.
Proof.
  intros a b c (P1 & V1 & Q1) (P2 & V2 & Q2).
  split; [congruence|]. split; [congruence|].
  intros N. rewrite Q2, Q1; [reflexivity|exact N|].
  unfold neverInValidatorSet in *. rewrite P1, V1. exact N.
Qed.

Lemma signAddVote_quietly t hash header cs :
  followsAt quietly (signAddVote t hash header) cs.
Proof.
  intros x cs' E.
  destruct (followsAt_use _ _ _ _ _ (signAddVote_sameRS t hash header cs) E)
    as [R P].
  split; [exact P|]. split; [rewrite R; reflexivity|].
  intros N. rewrite signAddVote_outside in E.
  - inversion E; subst. reflexivity.
  - unfold neverInValidatorSet, outsideValidatorSet in *.
    destruct (privValidator cs); [apply N|exact I].
Qed.

Ltac leafQ :=
  first
    [ apply signAddVote_quietly
    | split; [reflexivity|split; [reflexivity|intros _; reflexivity]] ].

Lemma defaultDoPrevote_quietly h r cs :
  followsAt quietly (defaultDoPrevote h r) cs.
Proof.
  unfold defaultDoPrevote, doPrevote_epoch, prevoteNil. fsteps; leafQ.
Qed.

Lemma enterPrecommit_quietly h r cs :
  followsAt quietly (enterPrecommit h r) cs.
Proof.
  unfold enterPrecommit, enterPrecommit_body, precommitNil, unlock, newStep,
    fireRS, fire, updateRoundStep, modifyRS.
  fsteps; leafQ.
Qed.

(** C10.  When the node has no private validator, or its address is not
    in the validator set, [signAddVote] returns nil for every vote
    type, hash and parts header, and the consensus state is as it was:
    nothing is put on the internal message queue.  So a node that is
    not in the validator set sends no message from the default prevote
    rule nor from [enterPrecommit]. *)
Theorem signAddVote_outside_validator_set :
  forall (cs : ConsensusState),
    (outsideValidatorSet cs ->
     forall t hash header, signAddVote t hash header cs = Ok (None, cs))
    /\ (neverInValidatorSet cs ->
        forall height round x cs',
          defaultDoPrevote height round cs = Ok (x, cs')
          \/ enterPrecommit height round cs = Ok (x, cs') ->
          sentOut cs' = sentOut cs).
Proof.
  intros cs. split.
  - intros O t hash header. apply signAddVote_outside, O.
  - intros N h r x cs' [E|E].
    + apply (followsAt_use _ _ _ _ _ (defaultDoPrevote_quietly h r cs)) in E.
      destruct E as (_ & _ & Q). exact (Q N).
    + apply (followsAt_use _ _ _ _ _ (enterPrecommit_quietly h r cs)) in E.
      destruct E as (_ & _ & Q). exact (Q N).
Qed.

(** ** Votes for another height, and the errors of [tryAddVote] *)

(** C7, as the code has it.  A vote for a height below that of the
    state is ignored: not added, no error, the state as it was.  A vote
    for a height above it is not added and the error is
    [ErrVoteHeightMismatch].  [tryAddVote] returns the error of
    [addVote] as it is when it is the conflicting-votes error, and also
    when it is [ErrVoteHeightMismatch]; any other error becomes
    [ErrAddingVote]; no error stays no error. *)
Theorem votes_of_other_heights_and_errors :
  forall (cs : ConsensusState) (vote : Vote) (peerKey : string),
    (vote_Height vote < Height (RS cs) ->
     addVote vote peerKey cs = Ok ((false, None), cs))
    /\ (Height (RS cs) < vote_Height vote ->
        addVote vote peerKey cs = Ok ((false, Some ErrVoteHeightMismatch), cs))
    /\ (forall added cs',
          addVote vote peerKey cs = Ok ((added, None), cs') ->
          tryAddVote vote peerKey cs = Ok (None, cs'))
    /\ (forall added err cs',
          addVote vote peerKey cs = Ok ((added, Some err), cs') ->
          (isErrVoteConflictingVotes err = true ->
           tryAddVote vote peerKey cs = Ok (Some err, cs'))
          /\ (isErrVoteHeightMismatch err = true ->
              tryAddVote vote peerKey cs = Ok (Some err, cs'))
          /\ (isErrVoteConflictingVotes err = false ->
              isErrVoteHeightMismatch err = false ->
              tryAddVote vote peerKey cs = Ok (Some ErrAddingVote, cs'))).
Proof.
  intros cs vote peerKey. split; [|split; [|split]].
  - intros L. unfold addVote. rewrite bind_get.
    destruct (Z.ltb_spec (vote_Height vote) (Height (RS cs))); [reflexivity|lia].
  - intros L. unfold addVote. rewrite bind_get.
    destruct (Z.ltb_spec (vote_Height vote) (Height (RS cs))); [lia|].
    destruct (Z.eqb_spec (vote_Height vote) (Height (RS cs))); [lia|].
    reflexivity.
  - intros added cs' E. unfold tryAddVote.
    rewrite (bind_run _ _ _ _ _ E). reflexivity.
  - intros added err cs' E. unfold tryAddVote.
    rewrite (bind_run _ _ _ _ _ E). simpl. split; [|split].
    + intros C. destruct err; try discriminate. reflexivity.
    + intros C. rewrite C. reflexivity.
    + intros C1 C2. rewrite C1, C2. reflexivity.
Qed.

(** ** After the commit *)

(** Once the step is Commit, [enterNewRound] for round 0 of the height
    of the state does nothing. *)
Lemma enterNewRound_in_commit_is_noop (cs : ConsensusState) :
  Step (RS cs) = RoundStepCommit ->
  0 <= Round (RS cs) ->
  enterNewRound (Height (RS cs)) 0 cs = Ok (tt, cs).
Proof.
  intros S R0. unfold enterNewRound. rewrite bind_get, S.
  rewrite Z.eqb_refl. simpl.
  destruct (Z.ltb_spec 0 (Round (RS cs))); [reflexivity|].
  assert (E : Round (RS cs) = 0) by lia. rewrite E. reflexivity.
Qed.

(** No handler of a vote changes the height. *)
Lemma addVote_keeps_height vote peerKey cs x cs' :
  addVote vote peerKey cs = Ok (x, cs') -> Height (RS cs') = Height (RS cs).
Proof.
  intros E. apply addVote_advances in E. destruct E as (E & _). exact E.
Qed.

(** ** The order of (height, round, step) *)

(** X1.  [CompareHRS] is the comparison of a total order on the triples
    (height, round, step): its value is -1, 0 or 1; it is 0 exactly on
    equal triples; swapping the two triples negates it; and "less" is
    transitive. *)
Theorem CompareHRS_total_order :
  forall h1 r1 s1 h2 r2 s2 h3 r3 s3 : Z,
    (CompareHRS h1 r1 s1 h2 r2 s2 = -1
     \/ CompareHRS h1 r1 s1 h2 r2 s2 = 0
     \/ CompareHRS h1 r1 s1 h2 r2 s2 = 1)
    /\ (CompareHRS h1 r1 s1 h2 r2 s2 = 0 <-> h1 = h2 /\ r1 = r2 /\ s1 = s2)
    /\ CompareHRS h2 r2 s2 h1 r1 s1 = - CompareHRS h1 r1 s1 h2 r2 s2
    /\ (CompareHRS h1 r1 s1 h2 r2 s2 = -1 ->
        CompareHRS h2 r2 s2 h3 r3 s3 = -1 ->
        CompareHRS h1 r1 s1 h3 r3 s3 = -1).
Proof.
  intros. unfold CompareHRS. rewrite !Z.gtb_ltb.
  repeat split; zbool; try lia; try tauto; intros; try lia; try discriminate.
Qed.

(** ** The state never goes back *)

#[local] Instance sameHRS_refl : Reflexive sameHRS.
Proof. intros a. repeat split. Qed.

#[local] Instance sameHRS_trans : Transitive sameHRS.
Proof. intros a b c (E1 & E2 & E3) (E4 & E5 & E6). repeat split; congruence. Qed.

#[local] Instance forward_refl : Reflexive forward.
Proof. intros a. split; [reflexivity|]. right. split; [reflexivity|lia]. Qed.

#[local] Instance forward_trans : Transitive forward.
Proof. intros a b c (E1 & E2) (E3 & E4). split; [congruence|]. lia. Qed.

Lemma sameRS_sameHRS a b : sameRS a b -> sameHRS a b.
Proof. intros [E _]. unfold sameHRS. rewrite E. repeat split. Qed.

Lemma sameHRS_forward a b : sameHRS a b -> forward a b.
Proof. intros (E1 & E2 & E3). split; [exact E1|]. right. lia. Qed.

Lemma sameRS_forward a b : sameRS a b -> forward a b.
Proof. intros E. apply sameHRS_forward, sameRS_sameHRS, E. Qed.

Ltac leafS :=
  first
    [ eapply followsAt_weaken;
      [ intros ? ?; apply sameRS_sameHRS
      | first [leafRS | apply tryFinalizeCommit_sameRS] ]
    | apply sameRS_sameHRS; apply set_world_sameRS
    | unfold unlock, modifyRS; apply followsAt_modify;
      repeat split; reflexivity
    | repeat split; reflexivity ].

Lemma enterPrecommit_body_sameHRS h r cs :
  followsAt sameHRS (enterPrecommit_body h r) cs.
Proof. unfold enterPrecommit_body. fsteps; leafS. Qed.

Lemma enterCommit_body_sameHRS h r cs :
  followsAt sameHRS (enterCommit_body h r) cs.
Proof. unfold enterCommit_body. fsteps; leafS. Qed.

Lemma updateRoundStep_forward r st cs :
  Round (RS cs) < r \/ (Round (RS cs) = r /\ Step (RS cs) <= st) ->
  followsAt forward (updateRoundStep r st) cs.
Proof.
  intros G. unfold updateRoundStep, modifyRS. apply followsAt_modify.
  split; [reflexivity|]. simpl. lia.
Qed.

(** A part that keeps (height, round, step), then the rest. *)
Lemma forward_after {A B} (body : M A) (k : A -> M B) cs :
  followsAt sameHRS body cs ->
  (forall a c, sameHRS cs c -> followsAt forward (k a) c) ->
  followsAt forward (bind body k) cs.
Proof.
  intros Hb Hk x cs' E. binv E.
  pose proof (followsAt_use _ _ _ _ _ Hb E0) as S.
  transitivity c; [apply sameHRS_forward, S|].
  exact (Hk a c S x cs' E).
Qed.

Ltac leafF :=
  first
    [ eapply followsAt_weaken; [intros ? ?; apply sameRS_forward | leafRS]
    | eapply followsAt_weaken;
      [intros ? ?; apply sameRS_forward | apply tryFinalizeCommit_sameRS]
    | apply sameRS_forward; apply set_world_sameRS
    | unfold modifyRS; apply followsAt_modify; apply sameHRS_forward;
      repeat split; reflexivity
    | apply sameHRS_forward; repeat split; reflexivity ].

Lemma guard_step height round step rs :
  (negb (Height rs =? height) || (round <? Round rs)
   || ((Round rs =? round) && (step <=? Step rs)))%bool = false ->
  Round rs < round \/ (Round rs = round /\ Step rs <= step).
Proof. intros G. zbool; simpl in G; try discriminate; lia. Qed.

Ltac hrs :=
  repeat match goal with
  | S : sameHRS _ _ |- _ => destruct S as (? & ? & ?)
  end;
  simpl in *; lia.

(** Peel a part that keeps (height, round, step) off the front. *)
Ltac peel :=
  apply forward_after; [solve [fsteps; leafS] | intros ? ? ?].

Ltac stepF :=
  first
    [ apply updateRoundStep_forward; hrs
    | leafF ].

Lemma enterPrevote_forward h r cs : followsAt forward (enterPrevote h r) cs.
Proof.
  unfold enterPrevote. apply followsAt_get.
  destruct (_ || _)%bool eqn:G; [fstep|]. apply guard_step in G.
  peel. apply forward_after; [leafS|intros ? ? ?].
  fsteps; stepF.
Qed.

Lemma enterPrevoteWait_forward h r cs :
  followsAt forward (enterPrevoteWait h r) cs.
Proof.
  unfold enterPrevoteWait. apply followsAt_get.
  destruct (_ || _)%bool eqn:G; [fstep|]. apply guard_step in G.
  fstep; [fstep|]. peel. fsteps; stepF.
Qed.

Lemma enterPrecommitWait_forward h r cs :
  followsAt forward (enterPrecommitWait h r) cs.
Proof.
  unfold enterPrecommitWait. apply followsAt_get.
  destruct (_ || _)%bool eqn:G; [fstep|]. apply guard_step in G.
  fstep; [fstep|]. peel. fsteps; stepF.
Qed.

Lemma enterPrecommit_forward h r cs :
  followsAt forward (enterPrecommit h r) cs.
Proof.
  unfold enterPrecommit. apply followsAt_get.
  destruct (_ || _)%bool eqn:G; [fstep|]. apply guard_step in G.
  apply forward_after; [apply enterPrecommit_body_sameHRS|intros ? ? ?].
  fsteps; stepF.
Qed.

Lemma enterPropose_forward h r cs : followsAt forward (enterPropose h r) cs.
Proof.
  unfold enterPropose. apply followsAt_get.
  destruct (_ || _)%bool eqn:G; [fstep|]. apply guard_step in G.
  apply forward_after; [leafS|intros ? ? ?].
  fsteps; first [stepF | apply enterPrevote_forward].
Qed.

Lemma enterNewRound_forward h r cs : followsAt forward (enterNewRound h r) cs.
Proof.
  unfold enterNewRound. apply followsAt_get.
  destruct (_ || _)%bool eqn:G; [fstep|].
  assert (G' : Round (RS cs) < r
               \/ (Round (RS cs) = r /\ Step (RS cs) <= RoundStepNewRound)).
  { unfold RoundStepNewRound, RoundStepNewHeight in *.
    zbool; simpl in G; try discriminate; lia. }
  clear G. peel.
  fsteps; first [stepF | apply enterPropose_forward].
Qed.

Lemma enterCommit_forward h r cs : followsAt forward (enterCommit h r) cs.
Proof.
  unfold enterCommit. apply followsAt_get.
  destruct (_ || _)%bool eqn:G; [fstep|].
  assert (G' : Step (RS cs) <= RoundStepCommit).
  { zbool; simpl in G; try discriminate; lia. }
  clear G.
  apply forward_after; [apply enterCommit_body_sameHRS|intros ? ? ?].
  apply followsAt_get. fsteps; stepF.
Qed.

Ltac leafFwd :=
  first
    [ leafF
    | apply enterNewRound_forward | apply enterPropose_forward
    | apply enterPrevote_forward | apply enterPrevoteWait_forward
    | apply enterPrecommit_forward | apply enterPrecommitWait_forward
    | apply enterCommit_forward
    | unfold unlock, modifyRS; apply followsAt_modify; apply sameHRS_forward;
      repeat split; reflexivity ].

Lemma defaultSetProposal_forward p cs :
  followsAt forward (defaultSetProposal p) cs.
Proof. unfold defaultSetProposal. fsteps; leafFwd. Qed.

Lemma addProposalBlockPart_forward h part verify cs :
  followsAt forward (addProposalBlockPart h part verify) cs.
Proof. unfold addProposalBlockPart. fsteps; leafFwd. Qed.

Lemma addVote_unlock_forward vote prevotes cs :
  followsAt forward (addVote_unlock vote prevotes) cs.
Proof. unfold addVote_unlock. fsteps; leafFwd. Qed.

Lemma addVote_prevote_forward h vote cs :
  followsAt forward (addVote_prevote h vote) cs.
Proof.
  unfold addVote_prevote. fsteps;
    first [leafFwd | apply addVote_unlock_forward].
Qed.

Lemma addVote_precommit_forward h vote cs :
  followsAt forward (addVote_precommit h vote) cs.
Proof. unfold addVote_precommit. fsteps; leafFwd. Qed.

Lemma addVote_forward vote peerKey cs :
  followsAt forward (addVote vote peerKey) cs.
Proof.
  unfold addVote. fsteps;
    first [ leafFwd | apply addVote_prevote_forward
          | apply addVote_precommit_forward ].
Qed.

Lemma handleMsg_forward mi cs : followsAt forward (handleMsg mi) cs.
Proof.
  unfold handleMsg, tryAddVote. fsteps;
    first [ leafFwd | apply defaultSetProposal_forward
          | apply addProposalBlockPart_forward | apply addVote_forward ].
Qed.

Lemma handleTimeout_forward ti rs cs :
  followsAt forward (handleTimeout ti rs) cs.
Proof. unfold handleTimeout. fsteps; leafFwd. Qed.

Lemma receive_forward rcv cs : followsAt forward (receive rcv) cs.
Proof.
  unfold receive. destruct rcv; fsteps;
    first [ leafFwd | apply handleMsg_forward | apply handleTimeout_forward
          | apply sameRS_forward; split; reflexivity ].
Qed.

(** X2.  No turn of the receive routine takes the state back: after a
    message or a timeout is handled the height is the same, and the
    (height, round, step) of the state compares equal to or after the
    one before, in the order of [CompareHRS]. *)
Theorem receive_never_goes_back :
  forall (rcv : Received) (cs : ConsensusState) x cs',
    receive rcv cs = Ok (x, cs') ->
    Height (RS cs') = Height (RS cs)
    /\ CompareHRS (Height (RS cs')) (Round (RS cs')) (Step (RS cs'))
         (Height (RS cs)) (Round (RS cs)) (Step (RS cs)) <> -1.
Proof.
  intros rcv cs x cs' E. apply receive_forward in E.
  destruct E as (E1 & E2). split; [exact E1|].
  unfold CompareHRS. rewrite !Z.gtb_ltb. zgoal; try discriminate; lia.
Qed.

(** ** Where a transition lands *)

#[local] Instance upTo_refl r hi : Reflexive (upTo r hi).
Proof. intros a Hr Hs. split; [exact Hr|lia]. Qed.

#[local] Instance upTo_trans r hi : Transitive (upTo r hi).
Proof.
  intros a b c Hab Hbc Hr Hs. destruct (Hab Hr Hs) as (E1 & E2).
  destruct (Hbc E1 ltac:(lia)) as (E3 & E4). split; [exact E3|lia].
Qed.

Lemma sameHRS_upTo r hi a b : sameHRS a b -> upTo r hi a b.
Proof. intros (E1 & E2 & E3) Hr Hs. rewrite E2, E3. split; [exact Hr|lia]. Qed.

Lemma sameRS_upTo r hi a b : sameRS a b -> upTo r hi a b.
Proof. intros E. apply sameHRS_upTo, sameRS_sameHRS, E. Qed.

Ltac leafU :=
  first
    [ eapply followsAt_weaken; [intros ? ?; apply sameRS_upTo | leafRS]
    | apply sameRS_upTo; apply set_world_sameRS
    | unfold modifyRS; apply followsAt_modify; apply sameHRS_upTo;
      repeat split; reflexivity
    | apply sameHRS_upTo; repeat split; reflexivity ].

Lemma passesGuard_bool height round step rs :
  Height rs = height ->
  Round rs < round \/ (Round rs = round /\ Step rs < step) ->
  (negb (Height rs =? height) || (round <? Round rs)
   || ((Round rs =? round) && (step <=? Step rs)))%bool = false.
Proof. intros E G. zgoal; simpl; try reflexivity; lia. Qed.

(** Whatever comes first, the deferred function of a transition sets the
    round and the step. *)
Lemma done_lands {A} (body : M A) r st cs x cs' :
  bind body (fun _ => updateRoundStep r st ;;; newStep) cs = Ok (x, cs') ->
  Round (RS cs') = r /\ Step (RS cs') = st.
Proof.
  intros E. binv E. binv E. inversion E1; subst.
  apply (followsAt_use _ _ _ _ _ (newStep_sameRS _)) in E.
  destruct E as [-> _]. split; reflexivity.
Qed.

Lemma enterPrevote_lands h r cs x cs' :
  passesGuard Prevote h r (RS cs) ->
  enterPrevote h r cs = Ok (x, cs') ->
  Round (RS cs') = r /\ Step (RS cs') = RoundStepPrevote.
Proof.
  intros [Eh G]. simpl in G. unfold enterPrevote. rewrite bind_get.
  rewrite (passesGuard_bool _ _ _ _ Eh G). intros E. binv E.
  exact (done_lands _ _ _ _ _ _ E).
Qed.

Lemma enterPrevoteWait_lands h r cs x cs' :
  passesGuard PrevoteWait h r (RS cs) ->
  enterPrevoteWait h r cs = Ok (x, cs') ->
  Round (RS cs') = r /\ Step (RS cs') = RoundStepPrevoteWait.
Proof.
  intros [Eh G]. simpl in G. unfold enterPrevoteWait. rewrite bind_get.
  rewrite (passesGuard_bool _ _ _ _ Eh G).
  destruct (negb _); [discriminate|]. apply done_lands.
Qed.

Lemma enterPrecommit_lands h r cs x cs' :
  passesGuard Precommit h r (RS cs) ->
  enterPrecommit h r cs = Ok (x, cs') ->
  Round (RS cs') = r /\ Step (RS cs') = RoundStepPrecommit.
Proof.
  intros [Eh G]. simpl in G. unfold enterPrecommit. rewrite bind_get.
  rewrite (passesGuard_bool _ _ _ _ Eh G). apply done_lands.
Qed.

Lemma enterPrecommitWait_lands h r cs x cs' :
  passesGuard PrecommitWait h r (RS cs) ->
  enterPrecommitWait h r cs = Ok (x, cs') ->
  Round (RS cs') = r /\ Step (RS cs') = RoundStepPrecommitWait.
Proof.
  intros [Eh G]. simpl in G. unfold enterPrecommitWait. rewrite bind_get.
  rewrite (passesGuard_bool _ _ _ _ Eh G).
  destruct (negb _); [discriminate|]. apply done_lands.
Qed.

Lemma enterPrevote_upTo h cs :
  followsAt (upTo (Round (RS cs)) RoundStepPrevote)
    (enterPrevote h (Round (RS cs))) cs.
Proof.
  intros x cs' E _ Hs. revert E. unfold enterPrevote at 1. rewrite bind_get.
  destruct (_ || _)%bool eqn:G.
  { intros E. inversion E; subst. split; [reflexivity|lia]. }
  intros E. binv E. apply done_lands in E. destruct E as [E1 E2].
  rewrite E1, E2. split; [reflexivity|lia].
Qed.

Lemma enterPropose_after h r cs x cs' :
  passesGuard Propose h r (RS cs) ->
  enterPropose h r cs = Ok (x, cs') ->
  Round (RS cs') = r
  /\ RoundStepPropose <= Step (RS cs') <= RoundStepPrevote.
Proof.
  intros [Eh G]. simpl in G. unfold enterPropose. rewrite bind_get.
  rewrite (passesGuard_bool _ _ _ _ Eh G). intros E. binv E. binv E.
  assert (Ec : c0 = set_RS (rs_set_RoundStep r RoundStepPropose (RS c)) c)
    by (inversion E1; reflexivity).
  subst c0. clear E1.
  assert (F : followsAt (upTo r RoundStepPrevote)
                (newStep ;;;
                 cs <- get ;;
                 if isProposalComplete cs
                 then enterPrevote h (Round (RS cs)) else ret tt)
                (set_RS (rs_set_RoundStep r RoundStepPropose (RS c)) c)).
  { fsteps; try leafU.
    intros y c' E' Hr Hs. rewrite <- Hr.
    apply (enterPrevote_upTo _ _ _ _ E'); [reflexivity|exact Hs]. }
  destruct (F _ _ E) as [F1 F2];
    [reflexivity|simpl; unfold RoundStepPropose, RoundStepPrevote; lia|].
  simpl in F2. split; [exact F1|exact F2].
Qed.

Lemma enterPropose_upTo h r cs :
  followsAt (upTo r RoundStepPrevote) (enterPropose h r) cs.
Proof.
  intros x cs' E Hr Hs.
  destruct (negb (Height (RS cs) =? h) || (r <? Round (RS cs))
            || ((Round (RS cs) =? r)
                && (RoundStepPropose <=? Step (RS cs))))%bool eqn:G.
  - unfold enterPropose in E. rewrite bind_get, G in E.
    inversion E; subst. split; [reflexivity|lia].
  - apply guard_passed in G. destruct G as (Eh & _ & L).
    assert (P : passesGuard Propose h r (RS cs)).
    { split; [exact Eh|]. right. split; [exact Hr|exact (L Hr)]. }
    destruct (enterPropose_after h r cs x cs' P E) as [E1 E2].
    specialize (L Hr). split; [exact E1|lia].
Qed.

Lemma enterNewRound_after h r cs x cs' :
  passesGuard NewRound h r (RS cs) ->
  enterNewRound h r cs = Ok (x, cs') ->
  Round (RS cs') = r
  /\ RoundStepNewRound <= Step (RS cs') <= RoundStepPrevote.
Proof.
  intros [Eh G]. unfold enterNewRound. rewrite bind_get.
  assert (B : (negb (Height (RS cs) =? h) || (r <? Round (RS cs))
               || ((Round (RS cs) =? r)
                   && negb (Step (RS cs) =? RoundStepNewHeight)))%bool
              = false).
  { zgoal; simpl; try reflexivity; lia. }
  rewrite B. intros E. binv E. binv E.
  assert (Ec : c0 = set_RS (rs_set_RoundStep r RoundStepNewRound (RS c)) c)
    by (inversion E1; reflexivity).
  subst c0. clear E1. revert E.
  match goal with
  | |- ?m ?c = _ -> _ =>
      assert (F : followsAt (upTo r RoundStepPrevote) m c)
  end.
  { fsteps; first [leafU | apply enterPropose_upTo]. }
  intros E.
  destruct (F _ _ E) as [F1 F2];
    [reflexivity|simpl; unfold RoundStepNewRound, RoundStepPrevote; lia|].
  simpl in F2. split; [exact F1|exact F2].
Qed.

Lemma enterCommit_after h r cs x cs' :
  passesGuard CommitT h r (RS cs) ->
  enterCommit h r cs = Ok (x, cs') ->
  Round (RS cs') = Round (RS cs) /\ Step (RS cs') = RoundStepCommit
  /\ CommitRound (RS cs') = r.
Proof.
  intros [Eh G]. unfold enterCommit. rewrite bind_get.
  assert (B : (negb (Height (RS cs) =? h)
               || (RoundStepCommit <=? Step (RS cs)))%bool = false).
  { zgoal; simpl; try reflexivity; lia. }
  rewrite B. intros E. binv E.
  pose proof (followsAt_use _ _ _ _ _ (enterCommit_body_sameHRS h r cs) E0)
    as (_ & S2 & _).
  rewrite bind_get in E. binv E. binv E. binv E.
  inversion E1; inversion E2; subst.
  apply (followsAt_use _ _ _ _ _ (newStep_sameRS _)) in E3.
  apply (followsAt_use _ _ _ _ _ (tryFinalizeCommit_sameRS _ _)) in E.
  destruct E3 as [N _]. destruct E as [T _]. rewrite T, N. simpl.
  repeat split. exact S2.
Qed.

(** X3.  A transition that passes its guard and returns lands on its
    target: the state is in the target round (for [enterCommit], the
    round it was in, with the commit round recorded), at the target
    step; only [enterNewRound] and [enterPropose] may run on, and not
    past the Prevote step. *)
Theorem transition_lands_on_target :
  forall (t : Transition) (height round : Z) (cs : ConsensusState) x cs',
    passesGuard t height round (RS cs) ->
    enter t height round cs = Ok (x, cs') ->
    Round (RS cs') = targetRound t round (RS cs)
    /\ targetStep t <= Step (RS cs')
       <= Z.max (targetStep t) RoundStepPrevote
    /\ (t = CommitT -> CommitRound (RS cs') = round).
Proof.
  intros t h r cs x cs' P E. destruct t; simpl in E |- *.
  - destruct (enterNewRound_after h r cs x cs' P E) as [E1 E2].
    split; [exact E1|]. split; [|discriminate].
    unfold RoundStepNewRound, RoundStepPrevote in *. lia.
  - destruct (enterPropose_after h r cs x cs' P E) as [E1 E2].
    split; [exact E1|]. split; [|discriminate].
    unfold RoundStepPropose, RoundStepPrevote in *. lia.
  - destruct (enterPrevote_lands h r cs x cs' P E) as [E1 E2].
    split; [exact E1|]. split; [|discriminate]. rewrite E2.
    unfold RoundStepPrevote. lia.
  - destruct (enterPrevoteWait_lands h r cs x cs' P E) as [E1 E2].
    split; [exact E1|]. split; [|discriminate]. rewrite E2.
    unfold RoundStepPrevoteWait, RoundStepPrevote. lia.
  - destruct (enterPrecommit_lands h r cs x cs' P E) as [E1 E2].
    split; [exact E1|]. split; [|discriminate]. rewrite E2.
    unfold RoundStepPrecommit, RoundStepPrevote. lia.
  - destruct (enterPrecommitWait_lands h r cs x cs' P E) as [E1 E2].
    split; [exact E1|]. split; [|discriminate]. rewrite E2.
    unfold RoundStepPrecommitWait, RoundStepPrevote. lia.
  - destruct (enterCommit_after h r cs x cs' P E) as (E1 & E2 & E3).
    split; [exact E1|]. split; [|intros _; exact E3]. rewrite E2.
    unfold RoundStepCommit, RoundStepPrevote. lia.
Qed.

(** ** A frame rule for the whole driver

    Every handler is built from a few writes: to the store of the
    absent packages, to the events fired, to the timeouts scheduled, to
    the internal queue (a send, or the receive at its head), to the step
    counter, to the miner's block (cleared), and to the round state,
    where height, start time, vote sets and last commit are never
    written.  A reflexive and transitive relation that holds across
    each of these writes holds across every turn of the receive
    routine. *)
Section Frame.

Variable R : ConsensusState -> ConsensusState -> Prop.
Context {R_refl : Reflexive R} {R_trans : Transitive R}.

Hypothesis R_world : forall w cs, R cs (set_world w cs).
Hypothesis R_fired : forall e cs, R cs (set_fired (fired cs ++ [e]) cs).
Hypothesis R_scheduled :
  forall ti cs, R cs (set_scheduled (scheduled cs ++ [ti]) cs).
Hypothesis R_send : forall mi cs, followsAt R (sendInternalMessage mi) cs.
Hypothesis R_pop :
  forall cs mi q,
    internalMsgQueue cs = mi :: q -> R cs (set_internalMsgQueue q cs).
Hypothesis R_nSteps : forall n cs, R cs (set_nSteps n cs).
Hypothesis R_miner : forall cs, R cs (set_blockFromMiner None cs).
Hypothesis R_RS :
  forall f cs, fixes f -> R cs (set_RS (f (RS cs)) cs).

Create HintDb frame discriminated.

Lemma modifyRS_frame f cs : fixes f -> followsAt R (modifyRS f) cs.
Proof. intros F. unfold modifyRS. apply followsAt_modify. apply R_RS, F. Qed.

Ltac fixesTac := intros ?; repeat split; reflexivity.

Ltac leafG :=
  first
    [ apply R_world | apply R_fired | apply R_scheduled | apply R_send
    | apply R_nSteps
    | apply modifyRS_frame; fixesTac
    | solve [auto 2 with frame nocore] ].

Ltac frame := fsteps; leafG.

Lemma fire_frame e cs : followsAt R (fire e) cs.
Proof. unfold fire. frame. Qed.
#[local] Hint Resolve fire_frame : frame.

Lemma fireRS_frame ev cs : followsAt R (fireRS ev) cs.
Proof. unfold fireRS. frame. Qed.
#[local] Hint Resolve fireRS_frame : frame.

Lemma scheduleTimeout_frame d h r st cs :
  followsAt R (scheduleTimeout d h r st) cs.
Proof. unfold scheduleTimeout. frame. Qed.
#[local] Hint Resolve scheduleTimeout_frame : frame.

Lemma newStep_frame cs : followsAt R newStep cs.
Proof. unfold newStep. frame. Qed.
#[local] Hint Resolve newStep_frame : frame.

Lemma updateRoundStep_frame r st cs : followsAt R (updateRoundStep r st) cs.
Proof. unfold updateRoundStep. apply modifyRS_frame. fixesTac. Qed.
#[local] Hint Resolve updateRoundStep_frame : frame.

Lemma unlock_frame cs : followsAt R unlock cs.
Proof. unfold unlock. apply modifyRS_frame. fixesTac. Qed.
#[local] Hint Resolve unlock_frame : frame.

Lemma signVote_frame t h hd cs : followsAt R (signVote t h hd) cs.
Proof. unfold signVote. frame. Qed.
#[local] Hint Resolve signVote_frame : frame.

Lemma signAddVote_frame t h hd cs : followsAt R (signAddVote t h hd) cs.
Proof. unfold signAddVote. frame. Qed.
#[local] Hint Resolve signAddVote_frame : frame.

Lemma defaultDoPrevote_frame h r cs : followsAt R (defaultDoPrevote h r) cs.
Proof. unfold defaultDoPrevote, doPrevote_epoch, prevoteNil. frame. Qed.
#[local] Hint Resolve defaultDoPrevote_frame : frame.

Lemma createProposalBlock_frame cs : followsAt R createProposalBlock cs.
Proof.
  unfold createProposalBlock. fsteps; try leafG.
  transitivity (set_world w cs); [apply R_world|].
  apply (R_miner (set_world w cs)).
Qed.
#[local] Hint Resolve createProposalBlock_frame : frame.

Lemma sendParts_frame (f : nat -> M unit) :
  (forall i cs, followsAt R (f i) cs) ->
  forall l (m : M unit), (forall cs, followsAt R m cs) ->
  forall cs, followsAt R (fold_left (fun m i => m ;;; f i) l m) cs.
Proof.
  intros Hf l. induction l as [|i l IH]; intros m Hm cs; simpl.
  - apply Hm.
  - apply IH. intros c. fsteps; [apply Hm | apply Hf].
Qed.

Lemma defaultDecideProposal_frame h r cs :
  followsAt R (defaultDecideProposal h r) cs.
Proof.
  unfold defaultDecideProposal. fsteps; try leafG.
  apply (sendParts_frame
           (fun i => cs <- get ;;
              sendInternalMessage
                (mkMsgInfo
                   (BlockPartMessage (Height (RS cs)) (Round (RS cs))
                      (PartSet_GetPart (world cs) (snd a) (Z.of_nat i))) ""))).
  - intros i c. frame.
  - intros c. frame.
Qed.
#[local] Hint Resolve defaultDecideProposal_frame : frame.

Lemma enterPrevote_frame h r cs : followsAt R (enterPrevote h r) cs.
Proof. unfold enterPrevote. frame. Qed.
#[local] Hint Resolve enterPrevote_frame : frame.

Lemma enterPrevoteWait_frame h r cs : followsAt R (enterPrevoteWait h r) cs.
Proof. unfold enterPrevoteWait. frame. Qed.
#[local] Hint Resolve enterPrevoteWait_frame : frame.

Lemma enterPropose_frame h r cs : followsAt R (enterPropose h r) cs.
Proof. unfold enterPropose, enterPropose_body. frame. Qed.
#[local] Hint Resolve enterPropose_frame : frame.

Lemma enterNewRound_frame h r cs : followsAt R (enterNewRound h r) cs.
Proof. unfold enterNewRound. frame. Qed.
#[local] Hint Resolve enterNewRound_frame : frame.

Lemma enterPrecommit_frame h r cs : followsAt R (enterPrecommit h r) cs.
Proof. unfold enterPrecommit, enterPrecommit_body, precommitNil. frame. Qed.
#[local] Hint Resolve enterPrecommit_frame : frame.

Lemma enterPrecommitWait_frame h r cs :
  followsAt R (enterPrecommitWait h r) cs.
Proof. unfold enterPrecommitWait. frame. Qed.
#[local] Hint Resolve enterPrecommitWait_frame : frame.

Lemma tryFinalizeCommit_frame h cs : followsAt R (tryFinalizeCommit h) cs.
Proof. unfold tryFinalizeCommit, finalizeCommit. frame. Qed.
#[local] Hint Resolve tryFinalizeCommit_frame : frame.

Lemma enterCommit_frame h r cs : followsAt R (enterCommit h r) cs.
Proof.
  unfold enterCommit, enterCommit_body. fsteps; try leafG.
  apply (R_RS (rs_set_Commit r (time_Now (world cs0)))). fixesTac.
Qed.
#[local] Hint Resolve enterCommit_frame : frame.

Lemma defaultSetProposal_frame p cs : followsAt R (defaultSetProposal p) cs.
Proof. unfold defaultSetProposal. frame. Qed.
#[local] Hint Resolve defaultSetProposal_frame : frame.

Lemma addProposalBlockPart_frame h part verify cs :
  followsAt R (addProposalBlockPart h part verify) cs.
Proof. unfold addProposalBlockPart. frame. Qed.
#[local] Hint Resolve addProposalBlockPart_frame : frame.

Lemma addVote_frame vote peerKey cs : followsAt R (addVote vote peerKey) cs.
Proof.
  unfold addVote, addVote_prevote, addVote_precommit, addVote_unlock. frame.
Qed.
#[local] Hint Resolve addVote_frame : frame.

Lemma handleMsg_frame mi cs : followsAt R (handleMsg mi) cs.
Proof. unfold handleMsg, tryAddVote. frame. Qed.
#[local] Hint Resolve handleMsg_frame : frame.

Lemma handleTimeout_frame ti rs cs : followsAt R (handleTimeout ti rs) cs.
Proof. unfold handleTimeout. frame. Qed.
#[local] Hint Resolve handleTimeout_frame : frame.

Lemma receive_frame rcv cs : followsAt R (receive rcv) cs.
Proof.
  unfold receive. destruct rcv; fsteps; try leafG.
  apply (R_pop cs m l). assumption.
Qed.

End Frame.

(** ** The fields the driver never assigns *)

#[local] Instance untouched_refl : Reflexive untouched.
Proof. intros a. repeat split. Qed.

#[local] Instance untouched_trans : Transitive untouched.
Proof.
  intros a b c (A1 & A2 & A3 & A4 & A5 & A6 & A7)
    (B1 & B2 & B3 & B4 & B5 & B6 & B7).
  repeat split; congruence.
Qed.

(** X4.  No turn of the receive routine assigns the fields
    [privValidator], [timeoutParams] and [evsw] of the consensus state,
    nor the fields [Height], [StartTime], [Votes] and [LastCommit] of
    its round state: whatever is received, the node stays at its height
    with the same start time, and keeps the vote-set object, the last
    commit and the signer it had.  (The contents of the vote sets and of
    the signer are in the store, and are written: this is about the
    fields.) *)
Theorem receive_leaves_untouched :
  forall (rcv : Received) (cs : ConsensusState) x cs',
    receive rcv cs = Ok (x, cs') -> untouched cs cs'.
Proof.
  intros rcv cs x cs'. apply (followsAt_use untouched).
  apply (receive_frame untouched); try (intros; repeat split; fail).
  - intros mi c y c' E. unfold sendInternalMessage in E.
    inversion E; subst. destruct (_ <? _); repeat split.
  - intros f c F. destruct (F (RS c)) as (F1 & F2 & F3 & F4).
    repeat split; assumption.
Qed.

(** ** The internal queue *)

#[local] Instance queueKept_refl : Reflexive queueKept.
Proof. intros a. split; [tauto|]. exists []. rewrite app_nil_r. reflexivity. Qed.

#[local] Instance queueKept_trans : Transitive queueKept.
Proof.
  intros a b c [A1 [l1 A2]] [B1 [l2 B2]]. split; [tauto|].
  exists (l1 ++ l2). rewrite app_assoc. congruence.
Qed.

(** X6.  A send on the internal queue never blocks and never drops the
    message: it joins the queue when the queue holds fewer than
    [msgQueueSize] messages, and is handed to a goroutine otherwise.  So
    over a turn of the receive routine the queue stays within its
    capacity, and the sends handed to goroutines are only added to. *)
Theorem internal_queue_kept :
  forall (cs : ConsensusState),
    (forall mi,
        sendInternalMessage mi cs
        = Ok (tt,
              if Z.of_nat (List.length (internalMsgQueue cs)) <? msgQueueSize
              then set_internalMsgQueue (internalMsgQueue cs ++ [mi]) cs
              else set_spawnedSends (spawnedSends cs ++ [mi]) cs)
        /\ forall x cs',
             sendInternalMessage mi cs = Ok (x, cs') ->
             List.length (internalMsgQueue cs' ++ spawnedSends cs')
             = S (List.length (internalMsgQueue cs ++ spawnedSends cs)))
    /\ (forall rcv x cs', receive rcv cs = Ok (x, cs') -> queueKept cs cs').
Proof.
  intros cs. split.
  - intros mi. split; [reflexivity|]. intros x cs' E.
    unfold sendInternalMessage in E. inversion E; subst.
    destruct (_ <? _); simpl; rewrite !length_app; simpl; lia.
  - intros rcv x cs'. apply (followsAt_use queueKept).
    apply (receive_frame queueKept);
      try (intros; split; [tauto|exists []; rewrite app_nil_r; reflexivity]).
    + intros mi c y c' E. unfold sendInternalMessage in E.
      inversion E; subst.
      destruct (Z.ltb_spec (Z.of_nat (List.length (internalMsgQueue c)))
                  msgQueueSize); simpl.
      * split; [|exists []; rewrite app_nil_r; reflexivity].
        intros _. simpl. rewrite length_app. simpl.
        unfold msgQueueSize in *. lia.
      * split; [tauto|]. exists [mi]. reflexivity.
    + intros c mi q Eq. split; [|exists []; rewrite app_nil_r; reflexivity].
      simpl. rewrite Eq. simpl. unfold msgQueueSize. lia.
Qed.

(** ** Panics *)

(** X7.  [enterNewRound] compares the address of the proposer with that
    of the private validator without checking that there is one: on a
    node with no private validator, every call that passes the guard
    panics on the nil interface. *)
Theorem enterNewRound_needs_private_validator :
  forall (height round : Z) (cs : ConsensusState),
    passesGuard NewRound height round (RS cs) ->
    privValidator cs = None ->
    enterNewRound height round cs = Panic nilDeref.
Proof.
  intros h r cs [Eh G] Pv. unfold enterNewRound. rewrite bind_get.
  assert (B : (negb (Height (RS cs) =? h) || (r <? Round (RS cs))
               || ((Round (RS cs) =? r)
                   && negb (Step (RS cs) =? RoundStepNewHeight)))%bool
              = false).
  { zgoal; simpl; try reflexivity; lia. }
  rewrite B.
  destruct (Round (RS cs) <? r).
  - destruct (ValidatorSet_Copy _ _) as [w1 v] eqn:Ec.
    unfold bind, get, modify, ret, updateRoundStep, modifyRS, fireRS, fire.
    simpl. destruct (r =? 0); simpl; rewrite Pv; reflexivity.
  - unfold bind, get, modify, ret, updateRoundStep, modifyRS, fireRS, fire.
    simpl. destruct (r =? 0); simpl; rewrite Pv; reflexivity.
Qed.

(** X8.  A timeout that is not stale must be for one of the five steps
    the driver schedules timeouts for (NewHeight, WaitForMinerBlock,
    Propose, PrevoteWait, PrecommitWait); for any other step
    [handleTimeout] panics. *)
Theorem handleTimeout_panics_on_other_steps :
  forall (ti : timeoutInfo) (cs : ConsensusState),
    ~ stale ti (RS cs) ->
    ti_Step ti <> RoundStepNewHeight ->
    ti_Step ti <> RoundStepWaitForMinerBlock ->
    ti_Step ti <> RoundStepPropose ->
    ti_Step ti <> RoundStepPrevoteWait ->
    ti_Step ti <> RoundStepPrecommitWait ->
    handleTimeout ti (RS cs) cs = Panic "Invalid timeout step".
Proof.
  intros ti cs NS N1 N2 N3 N4 N5. unfold handleTimeout.
  assert (G : (negb (ti_Height ti =? Height (RS cs))
               || (ti_Round ti <? Round (RS cs))
               || ((ti_Round ti =? Round (RS cs))
                   && (ti_Step ti <? Step (RS cs))))%bool = false).
  { unfold stale in NS. zgoal; simpl; try reflexivity; exfalso; apply NS; lia. }
  rewrite G.
  destruct (Z.eqb_spec (ti_Step ti) RoundStepNewHeight); [contradiction|].
  destruct (Z.eqb_spec (ti_Step ti) RoundStepWaitForMinerBlock);
    [contradiction|].
  destruct (Z.eqb_spec (ti_Step ti) RoundStepPropose); [contradiction|].
  destruct (Z.eqb_spec (ti_Step ti) RoundStepPrevoteWait); [contradiction|].
  destruct (Z.eqb_spec (ti_Step ti) RoundStepPrecommitWait); [contradiction|].
  reflexivity.
Qed.

(** ** Guards, once more *)

Lemma passesGuard_or_not t h r rs :
  passesGuard t h r rs \/ ~ passesGuard t h r rs.
Proof.
  unfold passesGuard. destruct t; simpl;
    unfold RoundStepNewHeight, RoundStepPropose, RoundStepPrevote,
      RoundStepPrevoteWait, RoundStepPrecommit, RoundStepPrecommitWait,
      RoundStepCommit; lia.
Qed.

Lemma blocked_bool height round step rs :
  ~ (Height rs = height
     /\ (Round rs < round \/ (Round rs = round /\ Step rs < step))) ->
  (negb (Height rs =? height) || (round <? Round rs)
   || ((Round rs =? round) && (step <=? Step rs)))%bool = true.
Proof. intros N. zgoal; simpl; try reflexivity; exfalso; apply N; lia. Qed.

Lemma blocked_is_noop t h r cs :
  ~ passesGuard t h r (RS cs) -> enter t h r cs = Ok (tt, cs).
Proof.
  intros N. unfold passesGuard in N.
  destruct t; simpl in N |- *;
    [ unfold enterNewRound | unfold enterPropose | unfold enterPrevote
    | unfold enterPrevoteWait | unfold enterPrecommit
    | unfold enterPrecommitWait | unfold enterCommit ];
    rewrite bind_get.
  2-6: rewrite (blocked_bool _ _ _ _ N); reflexivity.
  - assert (B : (negb (Height (RS cs) =? h) || (r <? Round (RS cs))
                 || ((Round (RS cs) =? r)
                     && negb (Step (RS cs) =? RoundStepNewHeight)))%bool
                = true).
    { zgoal; simpl; try reflexivity; exfalso; apply N; lia. }
    rewrite B. reflexivity.
  - assert (B : (negb (Height (RS cs) =? h)
                 || (RoundStepCommit <=? Step (RS cs)))%bool = true).
    { zgoal; simpl; try reflexivity; exfalso; apply N; lia. }
    rewrite B. reflexivity.
Qed.

Lemma passed_lands t h r cs x cs' :
  passesGuard t h r (RS cs) ->
  enter t h r cs = Ok (x, cs') ->
  Round (RS cs') = targetRound t r (RS cs)
  /\ targetStep t <= Step (RS cs').
Proof.
  intros P E.
  destruct t; simpl in E |- *;
    [ destruct (enterNewRound_after h r cs x cs' P E) as [E1 E2]
    | destruct (enterPropose_after h r cs x cs' P E) as [E1 E2]
    | destruct (enterPrevote_lands h r cs x cs' P E) as [E1 E2]
    | destruct (enterPrevoteWait_lands h r cs x cs' P E) as [E1 E2]
    | destruct (enterPrecommit_lands h r cs x cs' P E) as [E1 E2]
    | destruct (enterPrecommitWait_lands h r cs x cs' P E) as [E1 E2]
    | destruct (enterCommit_after h r cs x cs' P E) as (E1 & E2 & E3) ];
    split; try exact E1; lia.
Qed.

(** X9.  A transition does nothing exactly when its guard does not
    pass: then the call returns and the consensus state is as it was,
    also when the target is ahead of the state but at another height;
    and a call that passes the guard never leaves the state as it
    was. *)
Theorem transition_is_noop_iff_blocked :
  forall (t : Transition) (height round : Z) (cs : ConsensusState),
    enter t height round cs = Ok (tt, cs)
    <-> ~ passesGuard t height round (RS cs).
Proof.
  intros t h r cs. split.
  - intros E P. destruct (passed_lands t h r cs tt cs P E) as [E1 E2].
    destruct P as [_ P].
    destruct t; simpl in *;
      unfold RoundStepNewHeight, RoundStepNewRound, RoundStepPropose,
        RoundStepPrevote, RoundStepPrevoteWait, RoundStepPrecommit,
        RoundStepPrecommitWait, RoundStepCommit in *;
      lia.
  - apply blocked_is_noop.
Qed.

Lemma enter_keeps_height t h r cs x cs' :
  enter t h r cs = Ok (x, cs') -> Height (RS cs') = Height (RS cs).
Proof.
  intros E.
  assert (F : forward cs cs').
  { revert E. apply followsAt_use. destruct t; simpl;
      [ apply enterNewRound_forward | apply enterPropose_forward
      | apply enterPrevote_forward | apply enterPrevoteWait_forward
      | apply enterPrecommit_forward | apply enterPrecommitWait_forward
      | apply enterCommit_forward ]. }
  destruct F as [F _]. exact F.
Qed.

(** X10.  The transitions are safe against duplicate signals: when a
    call of a transition has returned, the same call made again in the
    state it left does nothing. *)
Theorem transition_twice_is_once :
  forall (t : Transition) (height round : Z) (cs : ConsensusState) x cs',
    enter t height round cs = Ok (x, cs') ->
    enter t height round cs' = Ok (tt, cs').
Proof.
  intros t h r cs x cs' E.
  destruct (passesGuard_or_not t h r (RS cs)) as [P|N].
  - pose proof (enter_keeps_height t h r cs x cs' E) as Eh.
    apply blocked_is_noop.
    pose proof P as [Ph _].
    destruct t; simpl in E;
      [ destruct (enterNewRound_after h r cs x cs' P E) as [E1 E2]
      | destruct (enterPropose_after h r cs x cs' P E) as [E1 E2]
      | destruct (enterPrevote_lands h r cs x cs' P E) as [E1 E2]
      | destruct (enterPrevoteWait_lands h r cs x cs' P E) as [E1 E2]
      | destruct (enterPrecommit_lands h r cs x cs' P E) as [E1 E2]
      | destruct (enterPrecommitWait_lands h r cs x cs' P E) as [E1 E2]
      | destruct (enterCommit_after h r cs x cs' P E) as (E1 & E2 & E3) ];
      unfold passesGuard; simpl;
      unfold RoundStepNewHeight, RoundStepNewRound, RoundStepPropose,
        RoundStepPrevote, RoundStepPrevoteWait, RoundStepPrecommit,
        RoundStepPrecommitWait, RoundStepCommit in *;
      lia.
  - rewrite (blocked_is_noop t h r cs N) in E.
    inversion E; subst. apply blocked_is_noop, N.
Qed.

(** ** The timeouts of the two wait steps *)

(** X11.  [enterPrevoteWait], when it passes the guard and returns, has
    scheduled exactly one timeout, for (height, round, PrevoteWait)
    and the duration of the prevote timeout of the round; in the state
    it leaves, that timeout is not stale, and handling it fires
    TimeoutWait and runs [enterPrecommit] for the round.  Likewise
    [enterPrecommitWait] schedules one timeout for (height, round,
    PrecommitWait), and handling it runs [enterNewRound] for the next
    round. *)
Theorem wait_timeouts_lead_on :
  forall (height round : Z) (cs : ConsensusState) x cs',
    (passesGuard PrevoteWait height round (RS cs) ->
     enterPrevoteWait height round cs = Ok (x, cs') ->
     let ti := mkTimeoutInfo (tp_Prevote (timeoutParams cs) round) height
                 round RoundStepPrevoteWait in
     scheduled cs' = scheduled cs ++ [ti]
     /\ ~ stale ti (RS cs')
     /\ handleTimeout ti (RS cs') cs'
        = (fireRS EventTimeoutWait ;;; enterPrecommit height round) cs')
    /\ (passesGuard PrecommitWait height round (RS cs) ->
        enterPrecommitWait height round cs = Ok (x, cs') ->
        let ti := mkTimeoutInfo (tp_Precommit (timeoutParams cs) round) height
                    round RoundStepPrecommitWait in
        scheduled cs' = scheduled cs ++ [ti]
        /\ ~ stale ti (RS cs')
        /\ handleTimeout ti (RS cs') cs'
           = (fireRS EventTimeoutWait ;;;
              enterNewRound height (to_int (round + 1))) cs').
Proof.
  intros h r cs x cs'. split.
  - intros [Eh G] E. simpl in G. unfold enterPrevoteWait in E.
    rewrite bind_get, (passesGuard_bool _ _ _ _ Eh G) in E.
    destruct (negb _); [discriminate|].
    cbv beta iota zeta delta
      [bind scheduleTimeout updateRoundStep modifyRS modify newStep get fire
       ret] in E.
    simpl in E.
    assert (Es : scheduled cs'
                 = scheduled cs
                   ++ [mkTimeoutInfo (tp_Prevote (timeoutParams cs) r) h r
                         RoundStepPrevoteWait]
                 /\ Height (RS cs') = h /\ Round (RS cs') = r
                 /\ Step (RS cs') = RoundStepPrevoteWait).
    { revert E. destruct (evsw cs); intros E; inversion E; subst;
        repeat split. }
    destruct Es as (S1 & S2 & S3 & S4). cbv zeta.
    split; [exact S1|]. split.
    + unfold stale. simpl. rewrite S2, S3, S4. lia.
    + unfold handleTimeout. simpl. rewrite S2, S3, S4.
      rewrite !Z.eqb_refl, !Z.ltb_irrefl. reflexivity.
  - intros [Eh G] E. simpl in G. unfold enterPrecommitWait in E.
    rewrite bind_get, (passesGuard_bool _ _ _ _ Eh G) in E.
    destruct (negb _); [discriminate|].
    cbv beta iota zeta delta
      [bind scheduleTimeout updateRoundStep modifyRS modify newStep get fire
       ret] in E.
    simpl in E.
    assert (Es : scheduled cs'
                 = scheduled cs
                   ++ [mkTimeoutInfo (tp_Precommit (timeoutParams cs) r) h r
                         RoundStepPrecommitWait]
                 /\ Height (RS cs') = h /\ Round (RS cs') = r
                 /\ Step (RS cs') = RoundStepPrecommitWait).
    { revert E. destruct (evsw cs); intros E; inversion E; subst;
        repeat split. }
    destruct Es as (S1 & S2 & S3 & S4). cbv zeta.
    split; [exact S1|]. split.
    + unfold stale. simpl. rewrite S2, S3, S4. lia.
    + unfold handleTimeout. simpl. rewrite S2, S3, S4.
      rewrite !Z.eqb_refl, !Z.ltb_irrefl. reflexivity.
Qed.

(** ** Signing and sending a vote *)

(** X12.  [signAddVote] sends what it returns.  When it returns a vote,
    exactly one message went out, the vote message for that vote with an
    empty peer key, at the end of the internal queue, or to a goroutine
    if the queue was full.  When it returns nil (no private validator,
    not in the validator set, or the signer refused), nothing went out.
    In both cases the round state is as before. *)
Theorem signAddVote_sends_what_it_returns :
  forall t hash header (cs : ConsensusState) r cs',
    signAddVote t hash header cs = Ok (r, cs') ->
    RS cs' = RS cs
    /\ match r with
       | None => sentOut cs' = sentOut cs
       | Some vote =>
           let mi := mkMsgInfo (VoteMessage vote) "" in
           sentOut cs'
           = if Z.of_nat (List.length (internalMsgQueue cs)) <? msgQueueSize
             then (internalMsgQueue cs ++ [mi], spawnedSends cs)
             else (internalMsgQueue cs, spawnedSends cs ++ [mi])
       end.
Proof.
  intros t hash header cs r cs' E.
  split.
  { exact (proj1 (followsAt_use _ _ _ _ _
                    (signAddVote_sameRS t hash header cs) E)). }
  revert E. unfold signAddVote. rewrite bind_get.
  destruct (privValidator cs) as [pv|] eqn:Pv.
  2:{ intros E. inversion E; subst. reflexivity. }
  destruct (negb _).
  { intros E. inversion E; subst. reflexivity. }
  unfold signVote. rewrite bind_assoc, bind_get, Pv.
  destruct (PrivValidator_SignVote _ _ _ _) as [[w vote'] err].
  cbv beta iota zeta delta [bind modify ret sendInternalMessage]. simpl.
  destruct err as [e|]; intros E; inversion E; subst; simpl.
  - reflexivity.
  - unfold sentOut. destruct (_ <? _); reflexivity.
Qed.

(** ** Votes and block parts that change nothing *)

(** X13.  A vote for the height of the state that the vote sets do not
    add (a duplicate, or one they reject) causes no transition: the
    result is what the vote sets answered, and only the store of the
    vote sets may have changed; no event is fired. *)
Theorem addVote_not_added_changes_nothing :
  forall (vote : Vote) (peerKey : string) (cs : ConsensusState) w1 err,
    vote_Height vote = Height (RS cs) ->
    HeightVoteSet_AddVote (world cs) (Votes (RS cs)) vote peerKey
    = (w1, false, err) ->
    addVote vote peerKey cs = Ok ((false, err), set_world w1 cs).
Proof.
  intros vote peerKey cs w1 err Eh Ea. unfold addVote. rewrite bind_get.
  rewrite Eh, Z.ltb_irrefl, Z.eqb_refl, Ea. reflexivity.
Qed.

(** X14.  A block part is ignored, with no error and the state as it
    was, when it is for another height or when no part set is awaited.
    When the part set rejects the part, the error is returned, the
    proposal block is as it was, and no transition is made. *)
Theorem addProposalBlockPart_ignored_or_rejected :
  forall (height : Z) (part : Part) (verify : bool) (cs : ConsensusState),
    (Height (RS cs) <> height \/ ProposalBlockParts (RS cs) = None ->
     addProposalBlockPart height part verify cs = Ok ((false, None), cs))
    /\ (forall ps w1 added e,
          Height (RS cs) = height ->
          ProposalBlockParts (RS cs) = Some ps ->
          PartSet_AddPart (world cs) ps part verify = (w1, added, Some e) ->
          addProposalBlockPart height part verify cs
          = Ok ((added, Some e), set_world w1 cs)).
Proof.
  intros h part verify cs. split.
  - intros [N|N]; unfold addProposalBlockPart; rewrite bind_get.
    + destruct (Z.eqb_spec (Height (RS cs)) h); [contradiction|reflexivity].
    + destruct (negb _); [reflexivity|]. rewrite N. reflexivity.
  - intros ps w1 added e Eh Ep Ea. unfold addProposalBlockPart.
    rewrite bind_get, Eh, Z.eqb_refl, Ep, Ea. reflexivity.
Qed.

(** ** The miner's block *)

(** X15.  [createProposalBlock] uses the miner's block at most once:
    when it returns, the block from the miner is gone.  With no block
    from the miner it returns no block and no parts, and the state is as
    it was. *)
Theorem createProposalBlock_consumes_miner_block :
  forall (cs : ConsensusState),
    (forall r cs',
        createProposalBlock cs = Ok (r, cs') -> blockFromMiner cs' = None)
    /\ (blockFromMiner cs = None ->
        createProposalBlock cs = Ok ((None, None), cs)).
Proof.
  intros cs. split.
  - intros r cs'. unfold createProposalBlock. rewrite bind_get.
    destruct (blockFromMiner cs) as [eb|] eqn:Em.
    2:{ intros E. inversion E; subst. exact Em. }
    cbv zeta.
    destruct (if Height (RS cs) =? Epoch_StartBlock (world cs)
              then _ else _) as [w1 epochBytes].
    cbv beta iota zeta delta [bind modify ret panic].
    destruct (collectTX3ProofData _ _ _) as [l|msg]; [|discriminate].
    destruct (MakeBlock _ _ _ _ _ _) as [[w2 block] parts].
    intros E. inversion E; subst. reflexivity.
  - intros Em. unfold createProposalBlock. rewrite bind_get, Em. reflexivity.
Qed.

(** ** Finalizing the commit *)

(** X16.  Finalizing a commit does not move the driver: when
    [tryFinalizeCommit] (and so [finalizeCommit]) returns, the round
    state is as it was, height, round and step included, and nothing
    was sent or scheduled; it panics when called for another height. *)
Theorem tryFinalizeCommit_does_not_move :
  forall (height : Z) (cs : ConsensusState),
    (Height (RS cs) <> height ->
     tryFinalizeCommit height cs = Panic "tryFinalizeCommit() height")
    /\ (forall x cs',
          tryFinalizeCommit height cs = Ok (x, cs') ->
          RS cs' = RS cs /\ sentOut cs' = sentOut cs
          /\ scheduled cs' = scheduled cs)
    /\ (forall x cs',
          finalizeCommit height cs = Ok (x, cs') ->
          RS cs' = RS cs /\ sentOut cs' = sentOut cs
          /\ scheduled cs' = scheduled cs).
Proof.
  intros h cs.
  assert (F : forall c,
             followsAt (fun a b => RS b = RS a /\ sentOut b = sentOut a
                                   /\ scheduled b = scheduled a)
               (finalizeCommit h) c).
  { intros c x c'. unfold finalizeCommit. rewrite bind_get.
    destruct (_ || _)%bool.
    { intros E. inversion E; subst. repeat split. }
    cbv zeta.
    destruct (VoteSet_TwoThirdsMajority _ _) as [blockID ok].
    destruct (negb ok); [discriminate|].
    destruct (negb _); [discriminate|].
    destruct (negb _); [discriminate|].
    destruct (Block_ValidateBasic _ _); [discriminate|].
    destruct (ProposalBlock (RS c)) as [b|]; [|discriminate].
    destruct (_ <? _).
    2:{ intros E. inversion E; subst. repeat split. }
    cbv beta iota zeta delta [bind modify ret panic fire].
    destruct (negb (String.eqb _ _)).
    - destruct (hasWithdrawFromChildChain _) as [[|]|msg];
        intros E; inversion E; subst; repeat split.
    - intros E. inversion E; subst. repeat split. }
  split; [|split].
  - intros N. unfold tryFinalizeCommit. rewrite bind_get.
    destruct (Z.eqb_spec (Height (RS cs)) h); [contradiction|reflexivity].
  - intros x cs'. unfold tryFinalizeCommit. rewrite bind_get.
    destruct (negb _); [discriminate|]. cbv zeta.
    destruct (VoteSet_TwoThirdsMajority _ _) as [blockID ok].
    destruct (_ || _)%bool.
    { intros E. inversion E; subst. repeat split. }
    destruct (negb _).
    { intros E. inversion E; subst. repeat split. }
    apply F.
  - intros x cs'. apply F.
Qed.

(** ** TX4 and their proof data *)

Lemma skipn_nth_error {A} (l : list A) i x :
  nth_error l i = Some x -> skipn i l = x :: skipn (S i) l.
Proof.
  revert l. induction i as [|i IH]; intros [|y l] E; simpl in *;
    try discriminate.
  - inversion E; subst. reflexivity.
  - apply IH, E.
Qed.

Lemma ValidateTX4_loop_accepts (w : World) (proofs : list TX3ProofData) :
  forall (txs : list Tx) (i : nat),
    ValidateTX4_loop w proofs txs i = Ok None ->
    (List.length (filter isTX4 txs) <= List.length (skipn i proofs))%nat
    /\ Forall (proofChecks w) (combine (filter isTX4 txs) (skipn i proofs)).
Proof.
  induction txs as [|tx rest IH]; intros i E.
  { simpl. split; [lia|constructor]. }
  change (filter isTX4 (tx :: rest))
    with (if isTX4 tx then tx :: filter isTX4 rest else filter isTX4 rest).
  remember (isTX4 tx) as t eqn:T. unfold isTX4 in T.
  cbn [ValidateTX4_loop] in E. cbv zeta in E.
  destruct (IsPChainContractAddr (Tx_To tx)).
  2:{ simpl in T. subst t. exact (IH i E). }
  destruct (Z.ltb_spec (Z.of_nat (List.length (Tx_Data tx))) 4) as [Lt|Ge];
    [discriminate|].
  destruct (Z.leb_spec 4 (Z.of_nat (List.length (Tx_Data tx)))); [|lia].
  destruct (FunctionTypeFromId (firstn 4 (Tx_Data tx))) as [function err].
  destruct err as [e|]; [simpl in T; subst t; exact (IH i E)|].
  destruct (isWithdrawFromMainChain function);
    simpl in T; subst t; [|exact (IH i E)].
  destruct (nth_error proofs i) as [pd|] eqn:En; [|discriminate].
  destruct (cch_ValidateTX3ProofData w pd) eqn:V1; [discriminate|].
  destruct (cch_ValidateTX4WithInMemTX3ProofData w tx pd) eqn:V2;
    [discriminate|].
  destruct (IH (S i) E) as [L F].
  rewrite (skipn_nth_error _ _ _ En). cbn [List.length combine].
  split; [apply le_n_S; exact L|].
  constructor; [split; assumption|exact F].
Qed.

(** X17.  When [ValidateTX4] accepts a block, the block carries proof
    data for every TX4 it holds: the TX4 and the proof data pair up one
    by one, in order, and each pair validates.  Proof data beyond the
    last TX4 is not looked at. *)
Theorem ValidateTX4_accepts_only_proved_TX4 :
  forall (w : World) (b : TdmBlock),
    ValidateTX4 w b = Ok None ->
    (List.length (filter isTX4 (Block_Transactions w b))
     <= List.length (Block_TX3ProofData w b))%nat
    /\ Forall (proofChecks w)
         (combine (filter isTX4 (Block_Transactions w b))
                  (Block_TX3ProofData w b)).
Proof.
  intros w b E.
  exact (ValidateTX4_loop_accepts w _ _ 0%nat E).
Qed.

(** X18.  The TX3 proof data that [createProposalBlock] collects comes
    after what was collected before, in order, and holds at most one
    proof for each TX4 of the miner's block. *)
Theorem collectTX3ProofData_extends :
  forall (w : World) (txs : list Tx) (acc l : list TX3ProofData),
    collectTX3ProofData w txs acc = Ok l ->
    exists more,
      l = acc ++ more
      /\ (List.length more <= List.length (filter isTX4 txs))%nat.
Proof.
  intros w txs. induction txs as [|tx rest IH]; intros acc l E.
  { simpl in E. inversion E; subst. exists []. rewrite app_nil_r.
    split; [reflexivity|simpl; lia]. }
  change (filter isTX4 (tx :: rest))
    with (if isTX4 tx then tx :: filter isTX4 rest else filter isTX4 rest).
  remember (isTX4 tx) as t eqn:T. unfold isTX4 in T.
  cbn [collectTX3ProofData] in E. cbv zeta in E.
  destruct (IsPChainContractAddr (Tx_To tx)).
  2:{ simpl in T. subst t. exact (IH acc l E). }
  destruct (Z.ltb_spec (Z.of_nat (List.length (Tx_Data tx))) 4) as [Lt|Ge];
    [discriminate|].
  destruct (Z.leb_spec 4 (Z.of_nat (List.length (Tx_Data tx)))); [|lia].
  destruct (FunctionTypeFromId (firstn 4 (Tx_Data tx))) as [function err].
  destruct err as [e|]; [simpl in T; subst t; exact (IH acc l E)|].
  destruct (isWithdrawFromMainChain function);
    simpl in T; subst t; [|exact (IH acc l E)].
  cbn [List.length].
  assert (W : forall acc', collectTX3ProofData w rest acc' = Ok l ->
              (acc' = acc \/ exists p, acc' = acc ++ [p]) ->
              exists more,
                l = acc ++ more
                /\ (List.length more
                    <= S (List.length (filter isTX4 rest)))%nat).
  { intros acc' E' [->|[p ->]].
    - destruct (IH acc l E') as (more & M1 & M2). exists more.
      split; [exact M1|lia].
    - destruct (IH (acc ++ [p]) l E') as (more & M1 & M2).
      exists (p :: more). rewrite M1, <- app_assoc. simpl.
      split; [reflexivity|lia]. }
  destruct (UnpackWithdrawFromMainChainArgs _) as [args err].
  destruct err as [e|]; [apply (W acc E); left; reflexivity|].
  destruct (cch_GetTX3ProofData w args) as [proof|].
  - apply (W (acc ++ [proof]) E). right. exists proof. reflexivity.
  - apply (W acc E). left. reflexivity.
Qed.

(** ** The proposal fields *)

#[local] Instance keepsProposal_refl : Reflexive keepsProposal.
Proof. intros a. repeat split; reflexivity. Qed.

#[local] Instance keepsProposal_trans : Transitive keepsProposal.
Proof.
  intros a b c (A1 & A2 & A3) (B1 & B2 & B3).
  repeat split; congruence.
Qed.

Lemma sameRS_keepsProposal a b : sameRS a b -> keepsProposal a b.
Proof. intros [E _]. unfold keepsProposal. rewrite E. repeat split. Qed.

Ltac leafP :=
  first
    [ eapply followsAt_weaken;
      [ intros ? ?; apply sameRS_keepsProposal
      | first [leafRS | apply tryFinalizeCommit_sameRS] ]
    | apply sameRS_keepsProposal; apply set_world_sameRS
    | unfold updateRoundStep, modifyRS; apply followsAt_modify;
      repeat split; reflexivity
    | repeat split; reflexivity ].

Lemma enterPrevote_keepsProposal h r cs :
  followsAt keepsProposal (enterPrevote h r) cs.
Proof. unfold enterPrevote. fsteps; leafP. Qed.

Lemma enterPropose_keepsProposal h r cs :
  followsAt keepsProposal (enterPropose h r) cs.
Proof.
  unfold enterPropose. fsteps;
    first [leafP | apply enterPrevote_keepsProposal].
Qed.

(** X19.  A new round starts without a proposal, except round 0: when
    [enterNewRound] passes its guard and returns, the proposal, its
    block and its parts are cleared if the round is not 0, and are as
    they were if it is. *)
Theorem enterNewRound_resets_proposal :
  forall (height round : Z) (cs : ConsensusState) (x : unit)
         (cs' : ConsensusState),
    passesGuard NewRound height round (RS cs) ->
    enterNewRound height round cs = Ok (x, cs') ->
    if round =? 0 then keepsProposal cs cs'
    else Proposal_ (RS cs') = None /\ ProposalBlock (RS cs') = None
         /\ ProposalBlockParts (RS cs') = None.
Proof.
  intros h r cs x cs' [Eh G] E. unfold enterNewRound in E.
  rewrite bind_get in E. simpl in G.
  assert (B : (negb (Height (RS cs) =? h) || (r <? Round (RS cs))
               || ((Round (RS cs) =? r)
                   && negb (Step (RS cs) =? RoundStepNewHeight)))%bool
              = false).
  { zgoal; simpl; try reflexivity; lia. }
  rewrite B in E. clear B.
  binv E. binv E. binv E. binv E. binv E. binv E.
  assert (S0 : sameRS cs c).
  { revert E0. destruct (Round (RS cs) <? r).
    - destruct (ValidatorSet_Copy _ _) as [w1 v].
      unfold bind, modify, ret. intros E0. inversion E0; subst.
      split; reflexivity.
    - unfold ret. intros E0. inversion E0; subst. reflexivity. }
  unfold updateRoundStep, modifyRS, modify in E1, E2. inversion E1; subst c0.
  inversion E2; subst c1. clear E1 E2.
  inversion E4; subst c3. clear E4.
  pose proof (followsAt_use _ _ _ _ _ (fireRS_sameRS _ _) E5) as S5.
  assert (F : keepsProposal c4 cs').
  { revert E.
    match goal with
    | |- ?m c4 = _ -> _ =>
        assert (F : followsAt keepsProposal m c4);
        [|intros E; exact (F _ _ E)]
    end.
    fsteps; first [leafP | apply enterPropose_keepsProposal]. }
  apply sameRS_keepsProposal in S5.
  destruct S0 as [S0 _].
  destruct (r =? 0).
  - unfold ret in E3. inversion E3; subst c2.
    destruct F as (F1 & F2 & F3). destruct S5 as (G1 & G2 & G3).
    simpl in G1, G2, G3. rewrite S0 in G1, G2, G3.
    repeat split; congruence.
  - unfold modifyRS, modify in E3. inversion E3; subst c2.
    destruct F as (F1 & F2 & F3). destruct S5 as (G1 & G2 & G3).
    simpl in G1, G2, G3. repeat split; congruence.
Qed.

(** X20.  When the block the precommits of the commit round chose is the
    locked block, [enterCommit] makes the locked block and its parts the
    proposal block and parts, whatever they were before, and records the
    commit round. *)
Theorem enterCommit_adopts_locked_block :
  forall (height commitRound : Z) (cs : ConsensusState) (blockID : BlockID)
         (x : unit) (cs' : ConsensusState),
    passesGuard CommitT height commitRound (RS cs) ->
    VoteSet_TwoThirdsMajority (world cs)
      (HeightVoteSet_Precommits (world cs) (Votes (RS cs)) commitRound)
    = (blockID, true) ->
    Block_HashesTo (world cs) (LockedBlock (RS cs)) (bid_Hash blockID)
    = true ->
    enterCommit height commitRound cs = Ok (x, cs') ->
    ProposalBlock (RS cs') = LockedBlock (RS cs)
    /\ ProposalBlockParts (RS cs') = LockedBlockParts (RS cs)
    /\ CommitRound (RS cs') = commitRound
    /\ Step (RS cs') = RoundStepCommit.
Proof.
  intros h r cs blockID x cs' [Eh G] Maj Hl E. simpl in G.
  unfold enterCommit in E. rewrite bind_get in E.
  assert (B : (negb (Height (RS cs) =? h)
               || (RoundStepCommit <=? Step (RS cs)))%bool = false).
  { zgoal; simpl; try reflexivity; lia. }
  rewrite B in E. clear B.
  binv E.
  unfold enterCommit_body in E0. rewrite bind_get in E0.
  rewrite Maj in E0. simpl negb in E0. cbv iota in E0.
  rewrite Hl in E0.
  unfold bind, modifyRS, modify, get, ret in E0. simpl in E0.
  rewrite Hl in E0. simpl in E0. inversion E0; subst c. clear E0.
  rewrite bind_get in E. binv E. binv E. binv E.
  unfold updateRoundStep, modifyRS, modify in E0. inversion E0; subst c.
  unfold modify in E1. inversion E1; subst c0. clear E0 E1.
  pose proof (followsAt_use _ _ _ _ _ (newStep_sameRS _) E2) as [S2 _].
  pose proof (followsAt_use _ _ _ _ _ (tryFinalizeCommit_sameRS _ _) E)
    as [S3 _].
  rewrite S3, S2. simpl. repeat split; reflexivity.
Qed.

(** X21.  [enterCommit] must be called with +2/3 precommits for one
    block in the commit round: when it passes its guard and there is no
    such majority, it panics. *)
Theorem enterCommit_panics_without_majority :
  forall (height commitRound : Z) (cs : ConsensusState) (blockID : BlockID),
    passesGuard CommitT height commitRound (RS cs) ->
    VoteSet_TwoThirdsMajority (world cs)
      (HeightVoteSet_Precommits (world cs) (Votes (RS cs)) commitRound)
    = (blockID, false) ->
    enterCommit height commitRound cs
    = Panic "RunActionCommit() expects +2/3 precommits".
Proof.
  intros h r cs blockID [Eh G] Maj. simpl in G.
  unfold enterCommit. rewrite bind_get.
  assert (B : (negb (Height (RS cs) =? h)
               || (RoundStepCommit <=? Step (RS cs)))%bool = false).
  { zgoal; simpl; try reflexivity; lia. }
  rewrite B. unfold enterCommit_body, bind at 1. rewrite bind_get.
  rewrite Maj. reflexivity.
Qed.

(** X22.  When neither the locked block nor the proposal block is the
    block the precommits chose, and the proposal parts are not for it
    either, [enterCommit] drops the proposal block and starts a fresh
    part set for the header of the chosen block. *)
Theorem enterCommit_sets_up_missing_block :
  forall (height commitRound : Z) (cs : ConsensusState) (blockID : BlockID)
         (x : unit) (cs' : ConsensusState),
    passesGuard CommitT height commitRound (RS cs) ->
    VoteSet_TwoThirdsMajority (world cs)
      (HeightVoteSet_Precommits (world cs) (Votes (RS cs)) commitRound)
    = (blockID, true) ->
    Block_HashesTo (world cs) (LockedBlock (RS cs)) (bid_Hash blockID)
    = false ->
    Block_HashesTo (world cs) (ProposalBlock (RS cs)) (bid_Hash blockID)
    = false ->
    PartSet_HasHeader (world cs) (ProposalBlockParts (RS cs))
      (bid_PartsHeader blockID) = false ->
    enterCommit height commitRound cs = Ok (x, cs') ->
    ProposalBlock (RS cs') = None
    /\ ProposalBlockParts (RS cs')
       = Some (snd (NewPartSetFromHeader (world cs)
                      (bid_PartsHeader blockID)))
    /\ lockOf (RS cs') = lockOf (RS cs).
Proof.
  intros h r cs blockID x cs' [Eh G] Maj Hl Hp Hh E. simpl in G.
  unfold enterCommit in E. rewrite bind_get in E.
  assert (B : (negb (Height (RS cs) =? h)
               || (RoundStepCommit <=? Step (RS cs)))%bool = false).
  { zgoal; simpl; try reflexivity; lia. }
  rewrite B in E. clear B.
  binv E.
  unfold enterCommit_body in E0. rewrite bind_get in E0.
  rewrite Maj in E0. simpl negb in E0. cbv iota in E0.
  rewrite Hl in E0.
  unfold bind, modifyRS, modify, get, ret in E0. simpl in E0.
  rewrite Hp, Hh in E0. simpl in E0.
  destruct (NewPartSetFromHeader _ _) as [w1 ps]. simpl in E0.
  inversion E0; subst c. clear E0.
  rewrite bind_get in E. binv E. binv E. binv E.
  unfold updateRoundStep, modifyRS, modify in E0. inversion E0; subst c.
  unfold modify in E1. inversion E1; subst c0. clear E0 E1.
  pose proof (followsAt_use _ _ _ _ _ (newStep_sameRS _) E2) as [S2 _].
  pose proof (followsAt_use _ _ _ _ _ (tryFinalizeCommit_sameRS _ _) E)
    as [S3 _].
  rewrite S3, S2. simpl. repeat split; reflexivity.
Qed.

(** ** Timeouts *)

Lemma to_int_id z : - 2 ^ 63 <= z < 2 ^ 63 -> to_int z = z.
Proof.
  intros R. unfold to_int. rewrite Z.mod_small; lia.
Qed.

Lemma round_timeout base delta r r' :
  0 <= base -> 0 <= delta -> 0 <= r <= r' ->
  (base + delta * r') * Millisecond < 2 ^ 63 ->
  Duration_of_ms (to_int (base + to_int (delta * r)))
  = (base + delta * r) * Millisecond
  /\ (base + delta * r) * Millisecond <= (base + delta * r') * Millisecond.
Proof.
  intros Hb Hd Hr Fit. unfold Millisecond in *.
  assert (M : delta * r <= delta * r') by nia.
  assert (P : 0 <= delta * r) by nia.
  unfold Duration_of_ms, Millisecond.
  rewrite (to_int_id (delta * r)) by lia.
  rewrite (to_int_id (base + delta * r)) by lia.
  rewrite (to_int_id (base + delta * r)) by lia.
  rewrite to_int_id by lia. split; lia.
Qed.

(** X23.  As long as nothing overflows, the timeouts of propose, prevote
    and precommit are the base plus the delta times the round, in
    milliseconds, and so do not get shorter from one round to a later
    one. *)
Theorem round_timeouts_grow :
  forall (tp : TimeoutParams) (round round' : Z),
    timeoutsFit tp round' ->
    0 <= round <= round' ->
    (tp_Propose tp round
     = (Propose0 tp + ProposeDelta tp * round) * Millisecond
     /\ tp_Propose tp round <= tp_Propose tp round')
    /\ (tp_Prevote tp round
        = (Prevote0 tp + PrevoteDelta tp * round) * Millisecond
        /\ tp_Prevote tp round <= tp_Prevote tp round')
    /\ (tp_Precommit tp round
        = (Precommit0 tp + PrecommitDelta tp * round) * Millisecond
        /\ tp_Precommit tp round <= tp_Precommit tp round').
Proof.
  intros tp r r' (R0 & P0 & Pd & V0 & Vd & C0 & Cd & FP & FV & FC) Hr.
  unfold tp_Propose, tp_Prevote, tp_Precommit.
  assert (Hr' : 0 <= r' <= r') by lia.
  destruct (round_timeout _ _ r r' P0 Pd Hr FP) as [A1 A2].
  destruct (round_timeout _ _ r' r' P0 Pd Hr' FP) as [A3 _].
  destruct (round_timeout _ _ r r' V0 Vd Hr FV) as [B1 B2].
  destruct (round_timeout _ _ r' r' V0 Vd Hr' FV) as [B3 _].
  destruct (round_timeout _ _ r r' C0 Cd Hr FC) as [C1 C2].
  destruct (round_timeout _ _ r' r' C0 Cd Hr' FC) as [C3 _].
  rewrite A1, A3, B1, B3, C1, C3. repeat split; assumption.
Qed.

(** ** Proposing *)

Lemma sendInternalMessage_counts mi cs :
  exists cs',
    sendInternalMessage mi cs = Ok (tt, cs')
    /\ sentCount cs' = S (sentCount cs) /\ RS cs' = RS cs
    /\ In mi (internalMsgQueue cs' ++ spawnedSends cs')
    /\ forall x,
         In x (internalMsgQueue cs ++ spawnedSends cs) ->
         In x (internalMsgQueue cs' ++ spawnedSends cs').
Proof.
  unfold sendInternalMessage, modify, sentCount.
  destruct (_ <? _); eexists; (split; [reflexivity|]); simpl;
    rewrite !length_app; simpl;
    (split; [lia|]); (split; [reflexivity|]);
    (split; [|intros x]); rewrite !in_app_iff; simpl; tauto.
Qed.

Lemma fold_sendPart bp l :
  forall (m : M unit) cs c0,
    m cs = Ok (tt, c0) ->
    exists cs',
      fold_left (sendPart bp) l m cs = Ok (tt, cs')
      /\ sentCount cs' = (sentCount c0 + List.length l)%nat
      /\ RS cs' = RS c0
      /\ forall x,
           In x (internalMsgQueue c0 ++ spawnedSends c0) ->
           In x (internalMsgQueue cs' ++ spawnedSends cs').
Proof.
  induction l as [|i l IH]; intros m cs c0 Hm.
  { exists c0. simpl. repeat split; [exact Hm|lia|tauto]. }
  simpl.
  destruct (sendInternalMessage_counts
              (mkMsgInfo
                 (BlockPartMessage (Height (RS c0)) (Round (RS c0))
                    (PartSet_GetPart (world c0) bp (Z.of_nat i))) "") c0)
    as (c1 & E1 & N1 & R1 & _ & K1).
  assert (Hs : sendPart bp m i cs = Ok (tt, c1)).
  { unfold sendPart, bind. rewrite Hm. exact E1. }
  destruct (IH _ _ _ Hs) as (cs' & E & N & R & K).
  exists cs'. split; [exact E|]. split; [lia|]. split; [congruence|].
  intros x Hx. apply K, K1, Hx.
Qed.

Lemma firstn_skipn_room {A} n (x : A) (l : list A) :
  firstn n [x] ++ firstn (n - List.length (firstn n [x])) l
  = firstn n (x :: l)
  /\ skipn n [x] ++ skipn (n - List.length (firstn n [x])) l
     = skipn n (x :: l).
Proof.
  destruct n as [|k]; simpl; [split; reflexivity|].
  rewrite firstn_nil, skipn_nil, Nat.sub_0_r. simpl. split; reflexivity.
Qed.

Lemma sendInternalMessage_exact mi cs :
  exists cs',
    sendInternalMessage mi cs = Ok (tt, cs')
    /\ sentAll [mi] cs cs'
    /\ room cs' = (room cs - List.length (firstn (room cs) [mi]))%nat
    /\ RS cs' = RS cs /\ world cs' = world cs.
Proof.
  unfold sendInternalMessage, modify, sentAll.
  destruct (Z.ltb_spec (Z.of_nat (List.length (internalMsgQueue cs)))
              msgQueueSize) as [Lt|Ge];
    eexists; (split; [reflexivity|]).
  - assert (R1 : room (set_internalMsgQueue (internalMsgQueue cs ++ [mi]) cs)
                 = (room cs - 1)%nat).
    { unfold room. cbn [internalMsgQueue set_internalMsgQueue].
      rewrite length_app. cbn [List.length]. lia. }
    rewrite R1. cbn [internalMsgQueue spawnedSends set_internalMsgQueue RS
                      world].
    destruct (room cs) as [|k] eqn:Ek; [unfold room in Ek; lia|].
    cbn [firstn skipn List.length]. rewrite firstn_nil, skipn_nil, app_nil_r.
    cbn [List.length]. repeat split.
  - assert (R0 : room cs = 0%nat) by (unfold room; lia).
    assert (R1 : room (set_spawnedSends (spawnedSends cs ++ [mi]) cs)
                 = 0%nat) by exact R0.
    rewrite R1, R0.
    cbn [internalMsgQueue spawnedSends set_spawnedSends RS world firstn
         skipn List.length]. rewrite app_nil_r. repeat split.
Qed.

Lemma fold_sendPart_exact bp l :
  forall (m : M unit) cs c0,
    m cs = Ok (tt, c0) ->
    exists cs',
      fold_left (sendPart bp) l m cs = Ok (tt, cs')
      /\ sentAll (map (partMessage (world c0) c0 bp) l) c0 cs'
      /\ RS cs' = RS c0 /\ world cs' = world c0.
Proof.
  induction l as [|i l IH]; intros m cs c0 Hm.
  { exists c0. unfold sentAll. simpl.
    rewrite firstn_nil, skipn_nil, !app_nil_r. repeat split. exact Hm. }
  simpl.
  destruct (sendInternalMessage_exact (partMessage (world c0) c0 bp i) c0)
    as (c1 & E1 & [Q1 S1] & M1 & R1 & W1).
  assert (Hs : sendPart bp m i cs = Ok (tt, c1)).
  { unfold sendPart, bind. rewrite Hm. exact E1. }
  destruct (IH _ _ _ Hs) as (cs' & E & [Q S] & R & W).
  exists cs'. split; [exact E|].
  destruct (firstn_skipn_room (room c0) (partMessage (world c0) c0 bp i)
              (map (partMessage (world c0) c0 bp) l)) as [F1 F2].
  assert (P : map (partMessage (world c1) c1 bp) l
              = map (partMessage (world c0) c0 bp) l).
  { unfold partMessage. rewrite R1, W1. reflexivity. }
  rewrite P, M1 in Q, S.
  split; [split|split; congruence].
  - rewrite Q, Q1, <- app_assoc, F1. reflexivity.
  - rewrite S, S1, <- app_assoc, F2. reflexivity.
Qed.

(** X24.  A proposer that is locked on a block proposes that block
    again: when the signer signs the proposal, [defaultDecideProposal]
    returns with the round state as it was, and the messages that went
    out are exactly the signed proposal and then the parts of the
    locked block, part 0 to the last, each for the height and the round
    of the state and with an empty peer key. *)
Theorem defaultDecideProposal_reproposes_locked_block :
  forall (height round : Z) (cs : ConsensusState) (b : TdmBlock)
         (pv : PrivValidator) (w1 : World) (signed : Proposal),
    LockedBlock (RS cs) = Some b ->
    privValidator cs = Some pv ->
    PrivValidator_SignProposal (world cs) pv (state_ChainID (world cs))
      (mkProposal height round
         (PartSet_Header (world cs) (LockedBlockParts (RS cs)))
         (fst (HeightVoteSet_POLInfo (world cs) (Votes (RS cs))))
         (snd (HeightVoteSet_POLInfo (world cs) (Votes (RS cs)))) None)
    = (w1, signed, None) ->
    exists cs',
      defaultDecideProposal height round cs = Ok (tt, cs')
      /\ RS cs' = RS cs
      /\ sentAll
           (mkMsgInfo (ProposalMessage signed) ""
            :: map (partMessage w1 cs (LockedBlockParts (RS cs)))
                 (seq 0
                    (Z.to_nat
                       (PartSet_Total w1 (LockedBlockParts (RS cs))))))
           cs cs'
      /\ sentCount cs'
         = (sentCount cs + 1
            + Z.to_nat (PartSet_Total w1 (LockedBlockParts (RS cs))))%nat
      /\ In (mkMsgInfo (ProposalMessage signed) "")
           (internalMsgQueue cs' ++ spawnedSends cs').
Proof.
  intros h r cs b pv w1 signed HL Pv Sg.
  unfold defaultDecideProposal. rewrite bind_get. rewrite HL.
  unfold bind at 1. unfold ret at 1. cbn [fst snd]. rewrite bind_get.
  destruct (HeightVoteSet_POLInfo (world cs) (Votes (RS cs)))
    as [polRound polBlockID].
  cbn [fst snd] in Sg. rewrite Pv. rewrite Sg.
  unfold bind at 1. unfold modify at 1.
  destruct (sendInternalMessage_exact
              (mkMsgInfo (ProposalMessage signed) "") (set_world w1 cs))
    as (c1 & E1 & [Q1 S1] & M1 & R1 & W1).
  unfold bind at 1. rewrite E1.
  set (l := seq 0 (Z.to_nat (PartSet_Total w1 (LockedBlockParts (RS cs))))).
  destruct (fold_sendPart_exact (LockedBlockParts (RS cs)) l
              (ret tt) c1 c1 eq_refl) as (cs' & E & [Q S] & R & W).
  exists cs'. split; [exact E|].
  assert (Rs : RS cs' = RS cs) by (rewrite R, R1; reflexivity).
  split; [exact Rs|].
  assert (P : map (partMessage (world c1) c1 (LockedBlockParts (RS cs))) l
              = map (partMessage w1 cs (LockedBlockParts (RS cs))) l).
  { unfold partMessage. rewrite R1, W1. reflexivity. }
  rewrite P, M1 in Q, S.
  destruct (firstn_skipn_room (room (set_world w1 cs))
              (mkMsgInfo (ProposalMessage signed) "")
              (map (partMessage w1 cs (LockedBlockParts (RS cs))) l))
    as [F1 F2].
  assert (A : sentAll
                (mkMsgInfo (ProposalMessage signed) ""
                 :: map (partMessage w1 cs (LockedBlockParts (RS cs))) l)
                cs cs').
  { split.
    - rewrite Q, Q1, <- app_assoc, F1. reflexivity.
    - rewrite S, S1, <- app_assoc, F2. reflexivity. }
  split; [exact A|].
  destruct A as [A1 A2]. unfold sentCount. rewrite A1, A2. split.
  - rewrite !length_app.
    pose proof (firstn_skipn (room cs)
                  (mkMsgInfo (ProposalMessage signed) ""
                   :: map (partMessage w1 cs (LockedBlockParts (RS cs))) l))
      as FS.
    apply (f_equal (@List.length _)) in FS.
    rewrite length_app in FS. simpl in FS.
    rewrite length_map in FS. unfold l in FS |- *.
    rewrite length_seq in FS. lia.
  - pose proof (firstn_skipn (room cs)
                  (mkMsgInfo (ProposalMessage signed) ""
                   :: map (partMessage w1 cs (LockedBlockParts (RS cs))) l))
      as FS.
    assert (I : In (mkMsgInfo (ProposalMessage signed) "")
                  (firstn (room cs)
                     (mkMsgInfo (ProposalMessage signed) ""
                      :: map (partMessage w1 cs (LockedBlockParts (RS cs)))
                           l)
                   ++ skipn (room cs)
                        (mkMsgInfo (ProposalMessage signed) ""
                         :: map
                              (partMessage w1 cs (LockedBlockParts (RS cs)))
                              l))).
    { rewrite FS. left. reflexivity. }
    rewrite !in_app_iff in *. tauto.
Qed.

End Properties.

(** * The driver on concrete states *)

Import Sim.

#[local] Existing Instance simTypes.
#[local] Existing Instance simExternals.

Lemma enterPrecommit_follows_the_polka_witness :
  entersPrecommit 1 0 (RS csPolkaA)
  /\ enterPrecommit 1 0 csPolkaA = precommit_lock 0 idA csPolkaA
  /\ (forall x cs',
        enterPrecommit 1 0 csPolkaA = Ok (x, cs') ->
        lockOf (RS cs') = (0, Some blockA, Some headerA))
  /\ signs (world csPolkaA) csPolkaA VoteTypePrecommit idA precommitA1
  /\ exists cs',
       enterPrecommit 1 0 csPolkaA = Ok (tt, cs')
       /\ internalMsgQueue cs' = [mkMsgInfo (VoteMessage precommitA1) ""]
       /\ fired cs'
          = [EventPolka (mkEventDataRoundState 1 0 "RoundStepPrevote");
             EventLock (mkEventDataRoundState 1 0 "RoundStepPrevote");
             EventNewRoundStep
               (mkEventDataRoundState 1 0 "RoundStepPrecommit")]
       /\ Step (RS cs') = RoundStepPrecommit.
Proof.
  assert (G : entersPrecommit 1 0 (RS csPolkaA)).
  { unfold entersPrecommit. simpl. unfold RoundStepPrevote, RoundStepPrecommit.
    lia. }
  split; [exact G|].
  destruct (@enterPrecommit_follows_the_polka simTypes simExternals csPolkaA
              1 0 idA true 0 idA G eq_refl eq_refl) as [_ P].
  destruct (P eq_refl ltac:(lia)) as (_ & _ & _ & L & _).
  assert (N : bid_Hash idA <> []) by discriminate.
  destruct (L N eq_refl eq_refl eq_refl) as (E & Lk & C).
  split; [exact E|]. split; [exact Lk|].
  assert (Sg : signs (world csPolkaA) csPolkaA VoteTypePrecommit idA
                 precommitA1).
  { exists val1, quiet. repeat split. }
  split; [exact Sg|].
  destruct (C precommitA1 Sg) as (cs' & R & [Q _] & F & _ & St).
  exists cs'. split; [exact R|]. split; [exact Q|]. split; [exact F|exact St].
Defined.




Lemma locked_round_only_cleared_or_raised_witness :
  lockInRound (RS csLockedA)
  /\ forall x cs',
       receive (FromPeer (mkMsgInfo (VoteMessage prevoteB) "peer")) csLockedA
       = Ok (x, cs') ->
       Height (RS cs') = Height (RS csLockedA)
       /\ lockInRound (RS cs')
       /\ (unlocked (RS cs')
           \/ LockedRound (RS csLockedA) <= LockedRound (RS cs')).
Proof.
  assert (I : lockInRound (RS csLockedA)).
  { unfold lockInRound. simpl. lia. }
  split; [exact I|].
  destruct (@locked_round_only_cleared_or_raised simTypes simExternals
              csLockedA I) as (_ & _ & R).
  apply R.
Defined.

(** C5: the failing input.  With [SkipTimeoutCommit] set, the precommit
    that completes the set of all precommits for block A commits the
    block; the driver then calls [enterNewRound] for round 0 of the
    height it is at, which the guard turns down: the state stays at
    height 1, round 0, step Commit, and no timeout is scheduled. *)
Lemma skip_timeout_commit_stays_in_commit :
  SkipTimeoutCommit (timeoutParams csAllPrecommits) = true
  /\ VoteSet_HasAll (world csAllPrecommits)
       (HeightVoteSet_Precommits (world csAllPrecommits)
          (Votes (RS csAllPrecommits)) 0) = true
  /\ exists cs',
       addVote (precommitA 1) "peer" csAllPrecommits = Ok ((true, None), cs')
       /\ In (EventNewBlock blockA) (fired cs')
       /\ Height (RS cs') = 1 /\ Round (RS cs') = 0
       /\ Step (RS cs') = RoundStepCommit
       /\ scheduled cs' = []
       /\ enterNewRound (Height (RS cs')) 0 cs' = Ok (tt, cs').
Proof.
  split; [reflexivity|]. split; [reflexivity|].
  eexists. split; [vm_compute; reflexivity|].
  split; [simpl; tauto|]. repeat split.
Qed.

Lemma defaultSetProposal_outcomes_witness :
  ~ proposalIgnored proposalA (RS csPolkaA)
  /\ validPOLRound proposalA
  /\ proposalSigned proposalA csPolkaA
  /\ defaultSetProposal proposalA csPolkaA
     = Ok (None, proposalStored proposalA csPolkaA)
  /\ exists cs',
       defaultSetProposal proposalA csPolkaA = Ok (None, cs')
       /\ Proposal_ (RS cs') = Some proposalA
       /\ ProposalBlockParts (RS cs') = Some headerA.
Proof.
  assert (NI : ~ proposalIgnored proposalA (RS csPolkaA)).
  { unfold proposalIgnored. simpl. unfold RoundStepCommit, RoundStepPrevote.
    intros [C|[C|[C|C]]]; [apply C; reflexivity|lia|lia|lia]. }
  assert (V : validPOLRound proposalA) by (left; reflexivity).
  assert (S : proposalSigned proposalA csPolkaA) by reflexivity.
  split; [exact NI|]. split; [exact V|]. split; [exact S|].
  destruct (@defaultSetProposal_outcomes simTypes simExternals proposalA
              csPolkaA) as [_ O].
  destruct (O NI) as [_ P]. destruct (P V) as [_ Q].
  destruct (Q S) as [E (cs' & E' & P1 & P2 & _)].
  split; [exact E|]. exists cs'. split; [exact E'|].
  split; [exact P1|exact P2].
Defined.

Lemma votes_of_other_heights_and_errors_witness :
  vote_Height (precommitA 0) < Height (RS csPolkaA)
  /\ addVote (precommitA 0) "peer" csPolkaA = Ok ((false, None), csPolkaA).
Proof.
  assert (L : vote_Height (precommitA 0) < Height (RS csPolkaA)).
  { simpl. lia. }
  split; [exact L|].
  destruct (@votes_of_other_heights_and_errors simTypes simExternals csPolkaA
              (precommitA 0) "peer"%string) as [B _].
  exact (B L).
Defined.

(** C7 as the design document words it fails on a vote for a height
    above that of the state: the vote is not added, the error is not
    the conflicting-votes error, and [tryAddVote] does not turn it into
    [ErrAddingVote]. *)
Lemma tryAddVote_height_mismatch_counterexample :
  addVote (precommitA 2) "peer" csPolkaA
  = Ok ((false, Some ErrVoteHeightMismatch), csPolkaA)
  /\ isErrVoteConflictingVotes ErrVoteHeightMismatch = false
  /\ tryAddVote (precommitA 2) "peer" csPolkaA
     = Ok (Some ErrVoteHeightMismatch, csPolkaA)
  /\ tryAddVote (precommitA 2) "peer" csPolkaA
     <> Ok (Some ErrAddingVote, csPolkaA).
Proof.
  split; [reflexivity|]. split; [reflexivity|]. split; [reflexivity|].
  intros E.
  apply (f_equal (fun r => match r with
                           | Ok (Some ErrAddingVote, _) => true
                           | _ => false
                           end)) in E.
  vm_compute in E. discriminate E.
Qed.

Lemma handleTimeout_ignores_stale_witness :
  stale (mkTimeoutInfo 3000000000 1 0 RoundStepPropose) (RS csLateCommit)
  /\ handleTimeout (mkTimeoutInfo 3000000000 1 0 RoundStepPropose)
       (RS csLateCommit) csLateCommit
     = Ok (tt, csLateCommit).
Proof.
  assert (S : stale (mkTimeoutInfo 3000000000 1 0 RoundStepPropose)
                (RS csLateCommit)).
  { right. left. simpl. lia. }
  split; [exact S|].
  destruct (@handleTimeout_ignores_stale simTypes simExternals
              (mkTimeoutInfo 3000000000 1 0 RoundStepPropose) csLateCommit)
    as [I _].
  exact (I S).
Defined.

Lemma unlock_clears_the_lock_witness :
  unlocksOnPOL prevoteB (Some (polka idB)) csLockedA
  /\ exists cs',
       addVote_unlock prevoteB (Some (polka idB)) csLockedA = Ok (tt, cs')
       /\ unlocked (RS cs')
       /\ fired cs'
          = fired csLockedA
            ++ [EventUnlock
                  (RoundStateEvent
                     (rs_set_Locked 0 None None (RS csLockedA)))].
Proof.
  assert (U : unlocksOnPOL prevoteB (Some (polka idB)) csLockedA).
  { unfold unlocksOnPOL. simpl. split; [discriminate|].
    split; [vm_compute; split; [reflexivity|discriminate]|].
    split; reflexivity. }
  split; [exact U|].
  destruct (@unlock_clears_the_lock simTypes simExternals csLockedA) as [_ A].
  exact (A prevoteB (Some (polka idB)) U).
Defined.

Lemma signAddVote_outside_validator_set_witness :
  outsideValidatorSet csObserver
  /\ signAddVote VoteTypePrecommit blockA headerA csObserver
     = Ok (None, csObserver).
Proof.
  assert (O : outsideValidatorSet csObserver) by reflexivity.
  split; [exact O|].
  destruct (@signAddVote_outside_validator_set simTypes simExternals
              csObserver) as [S _].
  exact (S O VoteTypePrecommit blockA headerA).
Defined.

(** * The further properties, on the toy instance *)

Lemma CompareHRS_total_order_witness :
  CompareHRS 1 0 RoundStepPrevote 1 0 RoundStepPrecommit = -1
  /\ CompareHRS 1 0 RoundStepPrecommit 1 1 RoundStepNewRound = -1
  /\ CompareHRS 1 0 RoundStepPrevote 1 1 RoundStepNewRound = -1.
Proof.
  assert (A : CompareHRS 1 0 RoundStepPrevote 1 0 RoundStepPrecommit = -1)
    by reflexivity.
  assert (B : CompareHRS 1 0 RoundStepPrecommit 1 1 RoundStepNewRound = -1)
    by reflexivity.
  split; [exact A|]. split; [exact B|].
  destruct (CompareHRS_total_order 1 0 RoundStepPrevote 1 0
              RoundStepPrecommit 1 1 RoundStepNewRound) as (_ & _ & _ & T).
  exact (T A B).
Defined.

Lemma receive_never_goes_back_witness :
  exists cs',
    receive (Tock tockPropose) csLockedA = Ok (tt, cs')
    /\ Height (RS cs') = Height (RS csLockedA)
    /\ CompareHRS (Height (RS cs')) (Round (RS cs')) (Step (RS cs'))
         (Height (RS csLockedA)) (Round (RS csLockedA))
         (Step (RS csLockedA)) <> -1.
Proof.
  eexists. split; [vm_compute; reflexivity|].
  apply (@receive_never_goes_back simTypes simExternals (Tock tockPropose)
           csLockedA tt).
  vm_compute. reflexivity.
Defined.

Lemma transition_lands_on_target_witness :
  passesGuard Precommit 1 0 (RS csPolkaA)
  /\ exists cs',
       enter Precommit 1 0 csPolkaA = Ok (tt, cs')
       /\ Round (RS cs') = 0
       /\ RoundStepPrecommit <= Step (RS cs')
          <= Z.max RoundStepPrecommit RoundStepPrevote
       /\ (Precommit = CommitT -> CommitRound (RS cs') = 0).
Proof.
  assert (G : passesGuard Precommit 1 0 (RS csPolkaA)).
  { split; [reflexivity|]. right. split; [reflexivity|].
    vm_compute. reflexivity. }
  split; [exact G|].
  eexists. split; [vm_compute; reflexivity|].
  apply (@transition_lands_on_target simTypes simExternals Precommit 1 0
           csPolkaA tt _ G).
  vm_compute. reflexivity.
Defined.

Lemma receive_leaves_untouched_witness :
  exists cs',
    receive (FromPeer (mkMsgInfo (VoteMessage prevoteB) "peer")) csLockedA
    = Ok (tt, cs')
    /\ untouched csLockedA cs'.
Proof.
  eexists. split; [vm_compute; reflexivity|].
  apply (@receive_leaves_untouched simTypes simExternals
           (FromPeer (mkMsgInfo (VoteMessage prevoteB) "peer")) csLockedA tt).
  vm_compute. reflexivity.
Defined.

Lemma internal_queue_kept_witness :
  exists cs',
    receive (Tock tockPropose) csLockedA = Ok (tt, cs')
    /\ queueKept csLockedA cs'.
Proof.
  eexists. split; [vm_compute; reflexivity|].
  destruct (@internal_queue_kept simTypes simExternals csLockedA) as [_ K].
  apply (K (Tock tockPropose) tt).
  vm_compute. reflexivity.
Defined.

Lemma enterNewRound_needs_private_validator_witness :
  passesGuard NewRound 1 0 (RS csNoValidator)
  /\ privValidator csNoValidator = None
  /\ enterNewRound 1 0 csNoValidator = Panic nilDeref.
Proof.
  assert (G : passesGuard NewRound 1 0 (RS csNoValidator)).
  { split; [reflexivity|]. right. split; reflexivity. }
  split; [exact G|]. split; [reflexivity|].
  exact (@enterNewRound_needs_private_validator simTypes simExternals 1 0
           csNoValidator G eq_refl).
Defined.

Lemma handleTimeout_panics_on_other_steps_witness :
  ~ stale (mkTimeoutInfo 0 1 0 RoundStepPrevote) (RS csPolkaA)
  /\ handleTimeout (mkTimeoutInfo 0 1 0 RoundStepPrevote) (RS csPolkaA)
       csPolkaA
     = Panic "Invalid timeout step".
Proof.
  assert (N : ~ stale (mkTimeoutInfo 0 1 0 RoundStepPrevote) (RS csPolkaA)).
  { unfold stale. simpl. unfold RoundStepPrevote. lia. }
  split; [exact N|].
  apply (@handleTimeout_panics_on_other_steps simTypes simExternals
           (mkTimeoutInfo 0 1 0 RoundStepPrevote) csPolkaA N);
    simpl; discriminate.
Defined.

Lemma transition_is_noop_iff_blocked_witness :
  ~ passesGuard Prevote 2 0 (RS csPolkaA)
  /\ enter Prevote 2 0 csPolkaA = Ok (tt, csPolkaA).
Proof.
  assert (N : ~ passesGuard Prevote 2 0 (RS csPolkaA)).
  { intros [E _]. discriminate E. }
  split; [exact N|].
  destruct (@transition_is_noop_iff_blocked simTypes simExternals Prevote 2 0
              csPolkaA) as [_ B].
  exact (B N).
Defined.

Lemma transition_twice_is_once_witness :
  exists cs',
    enter Precommit 1 0 csPolkaA = Ok (tt, cs')
    /\ enter Precommit 1 0 cs' = Ok (tt, cs').
Proof.
  eexists. split; [vm_compute; reflexivity|].
  apply (@transition_twice_is_once simTypes simExternals Precommit 1 0
           csPolkaA tt).
  vm_compute. reflexivity.
Defined.

Lemma wait_timeouts_lead_on_witness :
  passesGuard PrevoteWait 1 0 (RS csPolkaA)
  /\ exists cs',
       enterPrevoteWait 1 0 csPolkaA = Ok (tt, cs')
       /\ scheduled cs'
          = scheduled csPolkaA
            ++ [mkTimeoutInfo (tp_Prevote params 0) 1 0 RoundStepPrevoteWait]
       /\ ~ stale (mkTimeoutInfo (tp_Prevote params 0) 1 0
                     RoundStepPrevoteWait) (RS cs')
       /\ handleTimeout
            (mkTimeoutInfo (tp_Prevote params 0) 1 0 RoundStepPrevoteWait)
            (RS cs') cs'
          = (bind (fireRS EventTimeoutWait)
               (fun _ => enterPrecommit 1 0)) cs'.
Proof.
  assert (G : passesGuard PrevoteWait 1 0 (RS csPolkaA)).
  { split; [reflexivity|]. right. split; [reflexivity|].
    vm_compute. reflexivity. }
  split; [exact G|].
  eexists. split; [vm_compute; reflexivity|].
  apply (proj1 (@wait_timeouts_lead_on simTypes simExternals 1 0 csPolkaA tt
                  _) G).
  vm_compute. reflexivity.
Defined.

Lemma signAddVote_sends_what_it_returns_witness :
  exists vote cs',
    signAddVote VoteTypePrevote blockA headerA csPolkaA = Ok (Some vote, cs')
    /\ RS cs' = RS csPolkaA
    /\ sentOut cs' = ([mkMsgInfo (VoteMessage vote) ""], []).
Proof.
  eexists. eexists. split; [vm_compute; reflexivity|].
  apply (@signAddVote_sends_what_it_returns simTypes simExternals
           VoteTypePrevote blockA headerA csPolkaA (Some _)).
  vm_compute. reflexivity.
Defined.

Lemma addVote_not_added_changes_nothing_witness :
  vote_Height (precommitA 1) = Height (RS (set_world deaf csPolkaA))
  /\ addVote (precommitA 1) "peer" (set_world deaf csPolkaA)
     = Ok ((false, None), set_world deaf (set_world deaf csPolkaA)).
Proof.
  split; [reflexivity|].
  exact (@addVote_not_added_changes_nothing simTypes simExternals
           (precommitA 1) "peer" (set_world deaf csPolkaA) deaf None
           eq_refl eq_refl).
Defined.

Lemma addProposalBlockPart_ignored_or_rejected_witness :
  Height (RS csPolkaA) <> 2
  /\ addProposalBlockPart 2 tt true csPolkaA = Ok ((false, None), csPolkaA).
Proof.
  assert (N : Height (RS csPolkaA) <> 2) by discriminate.
  split; [exact N|].
  destruct (@addProposalBlockPart_ignored_or_rejected simTypes simExternals
              2 tt true csPolkaA) as [I _].
  apply I. left. exact N.
Defined.

Lemma createProposalBlock_consumes_miner_block_witness :
  (exists r cs',
     createProposalBlock csMined
     = Ok (r, cs')
     /\ blockFromMiner cs' = None)
  /\ createProposalBlock csPolkaA = Ok ((None, None), csPolkaA).
Proof.
  destruct (@createProposalBlock_consumes_miner_block simTypes simExternals
              csMined) as [U _].
  destruct (@createProposalBlock_consumes_miner_block simTypes simExternals
              csPolkaA) as [_ V].
  split; [|exact (V eq_refl)].
  eexists. eexists. split; [vm_compute; reflexivity|].
  eapply U. vm_compute. reflexivity.
Defined.

Lemma tryFinalizeCommit_does_not_move_witness :
  tryFinalizeCommit 2 csCommitA = Panic "tryFinalizeCommit() height"
  /\ exists cs',
       tryFinalizeCommit 1 csCommitA = Ok (tt, cs')
       /\ In (EventNewBlock blockA) (fired cs')
       /\ RS cs' = RS csCommitA /\ sentOut cs' = sentOut csCommitA
       /\ scheduled cs' = scheduled csCommitA.
Proof.
  destruct (@tryFinalizeCommit_does_not_move simTypes simExternals 2
              csCommitA) as [P _].
  destruct (@tryFinalizeCommit_does_not_move simTypes simExternals 1
              csCommitA) as (_ & T & _).
  split; [apply P; discriminate|].
  eexists. split; [vm_compute; reflexivity|].
  split; [simpl; tauto|].
  apply (T tt). vm_compute. reflexivity.
Defined.

Lemma ValidateTX4_accepts_only_proved_TX4_witness :
  @ValidateTX4 simTypes simExternalsTx quiet blockAB = Ok None
  /\ filter (@isTX4 simTypes simExternalsTx)
       (@Block_Transactions simTypes simExternalsTx quiet blockAB)
     = [tt; tt]
  /\ (2 <= List.length
             (@Block_TX3ProofData simTypes simExternalsTx quiet blockAB))%nat
  /\ Forall (@proofChecks simTypes simExternalsTx quiet)
       (combine [tt; tt]
          (@Block_TX3ProofData simTypes simExternalsTx quiet blockAB)).
Proof.
  split; [reflexivity|]. split; [reflexivity|].
  exact (@ValidateTX4_accepts_only_proved_TX4 simTypes simExternalsTx quiet
           blockAB eq_refl).
Defined.

Lemma collectTX3ProofData_extends_witness :
  @collectTX3ProofData simTypes simExternalsTx quiet [tt; tt] [tt]
  = Ok [tt; tt; tt]
  /\ exists more,
       [tt; tt; tt] = [tt] ++ more
       /\ (List.length more
           <= List.length (filter (@isTX4 simTypes simExternalsTx) [tt; tt]))%nat.
Proof.
  split; [reflexivity|].
  exact (@collectTX3ProofData_extends simTypes simExternalsTx quiet [tt; tt]
           [tt] [tt; tt; tt] eq_refl).
Defined.

Lemma enterNewRound_resets_proposal_witness :
  passesGuard NewRound 1 1 (RS csPolkaA)
  /\ ProposalBlock (RS csPolkaA) = Some blockA
  /\ exists cs',
       enterNewRound 1 1 csPolkaA = Ok (tt, cs')
       /\ Proposal_ (RS cs') = None /\ ProposalBlock (RS cs') = None
       /\ ProposalBlockParts (RS cs') = None.
Proof.
  assert (G : passesGuard NewRound 1 1 (RS csPolkaA)).
  { split; [reflexivity|]. left. simpl. lia. }
  split; [exact G|]. split; [reflexivity|].
  eexists. split; [vm_compute; reflexivity|].
  apply (@enterNewRound_resets_proposal simTypes simExternals 1 1 csPolkaA
           tt _ G).
  vm_compute. reflexivity.
Defined.

Lemma enterCommit_adopts_locked_block_witness :
  passesGuard CommitT 1 0 (RS csLockedACommit)
  /\ ProposalBlock (RS csLockedACommit) = Some blockB
  /\ exists cs',
       enterCommit 1 0 csLockedACommit = Ok (tt, cs')
       /\ ProposalBlock (RS cs') = Some blockA
       /\ ProposalBlockParts (RS cs') = Some headerA
       /\ CommitRound (RS cs') = 0
       /\ Step (RS cs') = RoundStepCommit.
Proof.
  assert (G : passesGuard CommitT 1 0 (RS csLockedACommit)).
  { split; [reflexivity|]. vm_compute. reflexivity. }
  split; [exact G|]. split; [reflexivity|].
  eexists. split; [vm_compute; reflexivity|].
  apply (@enterCommit_adopts_locked_block simTypes simExternals 1 0
           csLockedACommit idA tt _ G eq_refl eq_refl).
  vm_compute. reflexivity.
Defined.

Lemma enterCommit_panics_without_majority_witness :
  passesGuard CommitT 1 0 (RS csPolkaA)
  /\ enterCommit 1 0 csPolkaA
     = Panic "RunActionCommit() expects +2/3 precommits".
Proof.
  assert (G : passesGuard CommitT 1 0 (RS csPolkaA)).
  { split; [reflexivity|]. vm_compute. reflexivity. }
  split; [exact G|].
  exact (@enterCommit_panics_without_majority simTypes simExternals 1 0
           csPolkaA idNil G eq_refl).
Defined.

Lemma enterCommit_sets_up_missing_block_witness :
  passesGuard CommitT 1 0 (RS csLateCommit)
  /\ exists cs',
       enterCommit 1 0 csLateCommit = Ok (tt, cs')
       /\ ProposalBlock (RS cs') = None
       /\ ProposalBlockParts (RS cs') = Some headerA
       /\ lockOf (RS cs') = lockOf (RS csLateCommit).
Proof.
  assert (G : passesGuard CommitT 1 0 (RS csLateCommit)).
  { split; [reflexivity|]. vm_compute. reflexivity. }
  split; [exact G|].
  eexists. split; [vm_compute; reflexivity|].
  apply (@enterCommit_sets_up_missing_block simTypes simExternals 1 0
           csLateCommit idA tt _ G eq_refl eq_refl eq_refl eq_refl).
  vm_compute. reflexivity.
Defined.

Lemma round_timeouts_grow_witness :
  timeoutsFit params 5
  /\ tp_Propose params 2 = 4000 * Millisecond
  /\ tp_Propose params 2 <= tp_Propose params 5.
Proof.
  assert (F : timeoutsFit params 5).
  { unfold timeoutsFit, Millisecond. simpl. lia. }
  split; [exact F|].
  destruct (@round_timeouts_grow params 2 5 F ltac:(lia)) as [[A B] _].
  split; [exact A|exact B].
Defined.

Lemma defaultDecideProposal_reproposes_locked_block_witness :
  LockedBlock (RS csLockedA) = Some blockA
  /\ exists cs',
       defaultDecideProposal 1 1 csLockedA = Ok (tt, cs')
       /\ RS cs' = RS csLockedA
       /\ internalMsgQueue cs'
          = [mkMsgInfo
               (ProposalMessage (mkProposal 1 1 headerA 1 idB (Some val1)))
               "";
             mkMsgInfo (BlockPartMessage 1 1 tt) ""]
       /\ spawnedSends cs' = []
       /\ sentCount cs' = 2%nat.
Proof.
  split; [reflexivity|].
  destruct (@defaultDecideProposal_reproposes_locked_block simTypes
              simExternals 1 1 csLockedA blockA val1 quiet
              (mkProposal 1 1 headerA 1 idB (Some val1))
              eq_refl eq_refl eq_refl)
    as (cs' & E & R & [Q S] & N & _).
  exists cs'. split; [exact E|]. split; [exact R|].
  split; [exact Q|]. split; [exact S|exact N].
Defined.
